(** * Transformation rules of the cascades planner (planner/cascades)

    A shallow embedding of [transformation_rules.go]: the memo is an arena
    of operator payloads, GroupExprs and Groups addressed by index, every
    rule is a program in a small state-and-failure monad over that arena,
    and the functions the rules consume from the expression, range and
    planner-core layers are fields of one record of collaborators. *)

From stdpp Require Import base option list strings pretty gmap.

Set Default Proof Using "Type".
Set Warnings "-register-all".

(** ** Expressions (package [expression]) *)

(** Modelled from the spec: a column is identified by its unique id
    ("column-for-column identical, by identity, not just type"). *)
Record Column := mkColumn { UniqueID : Z }.

Inductive Datum :=
| DNull
| DInt (z : Z).

Inductive Expression :=
| EColumn (c : Column)
| EConstant (d : Datum)
| EScalarFunction (name : string) (args : list Expression).

(** [*expression.ScalarFunction], the element type of [EqualConditions]. *)
Record ScalarFunction := mkScalarFunction {
  FuncName : string;
  GetArgs : list Expression }.

Definition Schema := list Column.

Global Instance Column_eq_dec : EqDecision Column.
Proof. solve_decision. Defined.

Global Instance Datum_eq_dec : EqDecision Datum.
Proof. solve_decision. Defined.

(** [expression.ScalarFuncs2Exprs]: every function seen as an expression. *)
Definition ScalarFuncs2Exprs (fs : list ScalarFunction) : list Expression :=
  map (fun f => EScalarFunction (FuncName f) (GetArgs f)) fs.

(** The type switch [case *expression.Constant]. *)
Definition isConstant (e : Expression) : bool :=
  match e with EConstant _ => true | _ => false end.

(** The type assertion of an expression to a column. *)
Definition asColumn (e : Expression) : option Column :=
  match e with EColumn c => Some c | _ => None end.

(** Modelled from the spec: [Schema.ColumnIndex], the position of a column
    in a schema, found by identity; [None] stands for Go's -1. *)
Fixpoint ColumnIndex (s : Schema) (c : Column) : option nat :=
  match s with
  | [] => None
  | c' :: s' => if decide (c' = c) then Some 0 else S <$> ColumnIndex s' c
  end.

(** Modelled from the spec: [Schema.Contains]. *)
Definition Contains (s : Schema) (c : Column) : bool :=
  bool_decide (is_Some (ColumnIndex s c)).

(** [append(cols[:idx], cols[idx+1:]...)] on a cloned schema. *)
Definition removeAt {A} (idx : nat) (l : list A) : list A :=
  take idx l ++ drop (S idx) l.

(** ** Operator payloads (package [plannercore]) *)

Module ByItems.
Record t := mk { Expr : Expression; Desc : bool }.
End ByItems.

Inductive AggFunctionMode :=
| CompleteMode | FinalMode | Partial1Mode | Partial2Mode | DedupMode.

Global Instance AggFunctionMode_eq_dec : EqDecision AggFunctionMode.
Proof. solve_decision. Defined.

Module AggFuncDesc.
Record t := mk {
  Name : string;
  Args : list Expression;
  Mode : AggFunctionMode;
  RetTp : nat }.
End AggFuncDesc.

Inductive JoinType :=
| InnerJoin | LeftOuterJoin | RightOuterJoin.

Global Instance JoinType_eq_dec : EqDecision JoinType.
Proof. solve_decision. Defined.

Module LogicalSelection.
Record t := mk { Conditions : list Expression }.
End LogicalSelection.

Module LogicalProjection.
Record t := mk { Exprs : list Expression; schema : Schema }.
Definition SetSchema (s : Schema) (p : t) : t := mk (Exprs p) s.
End LogicalProjection.

Module LogicalAggregation.
Record t := mk {
  AggFuncs : list AggFuncDesc.t;
  GroupByItems : list Expression }.
End LogicalAggregation.

Module LogicalJoin.
Record t := mk {
  JoinType : JoinType;
  LeftConditions : list Expression;
  RightConditions : list Expression;
  EqualConditions : list ScalarFunction;
  OtherConditions : list Expression;
  LeftJoinKeys : list Column;
  RightJoinKeys : list Column }.
End LogicalJoin.

Module LogicalSort.
Record t := mk { ByItems : list ByItems.t }.
End LogicalSort.

Module LogicalLimit.
Record t := mk { Offset : N; Count : N }.
End LogicalLimit.

Module LogicalTopN.
Record t := mk { ByItems : list ByItems.t; Offset : N; Count : N }.
End LogicalTopN.

(** A [*DataSource] is only ever passed along by the rules; it is kept as
    the name of the table it reads. *)
Module DataSource.
Record t := mk { table : string }.
End DataSource.

Module LogicalTableScan.
Record t := mk {
  Source : DataSource.t;
  Handle : option Column;
  AccessConds : list Expression }.
End LogicalTableScan.

(** A key range built by the range layer; opaque to the rules. *)
Module Range.
Record t := mk { LowVal : list Datum; HighVal : list Datum }.
End Range.

Module LogicalIndexScan.
Record t := mk {
  Source : DataSource.t;
  IsDoubleRead : bool;
  EqCondCount : Z;
  AccessConds : list Expression;
  Ranges : list Range.t;
  Index : string;
  Columns : list string;
  FullIdxCols : list Column;
  FullIdxColLens : list Z;
  IdxCols : list Column;
  IdxColLens : list Z }.
End LogicalIndexScan.

Module TiKVSingleGather.
Record t := mk { Source : DataSource.t; IsIndexGather : bool; Index : string }.
End TiKVSingleGather.

Module LogicalTableDual.
Record t := mk { RowCount : Z }.
End LogicalTableDual.

(** The dynamic type behind the [LogicalPlan] interface of a
    [GroupExpr.ExprNode]: one case per operand kind. *)
Inductive LogicalPlan :=
| PSelection (p : LogicalSelection.t)
| PProjection (p : LogicalProjection.t)
| PAggregation (p : LogicalAggregation.t)
| PJoin (p : LogicalJoin.t)
| PSort (p : LogicalSort.t)
| PLimit (p : LogicalLimit.t)
| PTopN (p : LogicalTopN.t)
| PDataSource (p : DataSource.t)
| PTableScan (p : LogicalTableScan.t)
| PIndexScan (p : LogicalIndexScan.t)
| PTiKVSingleGather (p : TiKVSingleGather.t)
| PTableDual (p : LogicalTableDual.t).

(** ** The memo (package [memo]) *)

Inductive Operand :=
| OperandAny
| OperandJoin
| OperandAggregation
| OperandProjection
| OperandSelection
| OperandDataSource
| OperandTableDual
| OperandSort
| OperandTopN
| OperandLimit
| OperandTiKVSingleGather
| OperandTableScan
| OperandIndexScan.

Global Instance Operand_eq_dec : EqDecision Operand.
Proof. solve_decision. Defined.

Inductive EngineType := EngineTiDB | EngineTiKV.

Global Instance EngineType_eq_dec : EqDecision EngineType.
Proof. solve_decision. Defined.

Inductive EngineTypeSet := EngineTiDBOnly | EngineTiKVOnly | EngineAll.

(** Modelled from the spec: the operand kind of a payload
    ([memo.GetOperand]). *)
Definition GetOperand (p : LogicalPlan) : Operand :=
  match p with
  | PSelection _ => OperandSelection
  | PProjection _ => OperandProjection
  | PAggregation _ => OperandAggregation
  | PJoin _ => OperandJoin
  | PSort _ => OperandSort
  | PLimit _ => OperandLimit
  | PTopN _ => OperandTopN
  | PDataSource _ => OperandDataSource
  | PTableScan _ => OperandTableScan
  | PIndexScan _ => OperandIndexScan
  | PTiKVSingleGather _ => OperandTiKVSingleGather
  | PTableDual _ => OperandTableDual
  end.

(** Pointers are indices into the arenas of the memo. *)
Definition ptr := nat.

Module GroupExpr.
Record t := mk {
  ExprNode : ptr;            (* the payload, shared by reference *)
  Children : list ptr;       (* child Groups *)
  Group : option ptr }.      (* the owning Group, nil until inserted *)
End GroupExpr.

Module Group.
Record t := mk {
  Equivalents : list ptr;    (* member GroupExprs, in insertion order *)
  Schema : Schema;           (* Prop.Schema *)
  EngineType : EngineType }.
End Group.

Record Memo := mkMemo {
  plans : list LogicalPlan;
  exprs : list GroupExpr.t;
  groups : list Group.t }.

(** ** A state-and-failure monad for the rules

    A rule either returns, returns the error of a collaborator, or stops
    in a Go run-time panic (failed type assertion, nil dereference, index
    out of range). *)

Inductive outcome (A : Type) :=
| Ok (a : A)
| Err (msg : string)
| Panic.
Arguments Ok {A} a.
Arguments Err {A} msg.
Arguments Panic {A}.

Definition M (A : Type) : Type := Memo -> outcome A * Memo.

Definition ret {A} (a : A) : M A := fun m => (Ok a, m).

Definition bind {A B} (c : M A) (k : A -> M B) : M B :=
  fun m =>
    match c m with
    | (Ok a, m') => k a m'
    | (Err e, m') => (Err e, m')
    | (Panic, m') => (Panic, m')
    end.

Definition panic {A} : M A := fun m => (Panic, m).

Definition fail {A} (e : string) : M A := fun m => (Err e, m).

Declare Scope memo_scope.
Delimit Scope memo_scope with memo.
Notation "x <- c ;; k" := (bind c (fun x => k))
  (at level 100, c at next level, right associativity) : memo_scope.
Notation "c ;;; k" := (bind c (fun _ => k))
  (at level 100, right associativity) : memo_scope.
Open Scope memo_scope.

(** A nil or dangling reference stops the rule. *)
Definition unwrap {A} (o : option A) : M A :=
  match o with Some a => ret a | None => panic end.

Definition readPlan (p : ptr) : M LogicalPlan :=
  fun m => unwrap (plans m !! p) m.

Definition readExpr (e : ptr) : M GroupExpr.t :=
  fun m => unwrap (exprs m !! e) m.

Definition readGroup (g : ptr) : M Group.t :=
  fun m => unwrap (groups m !! g) m.

(** [Xxx{...}.Init(sctx)]: a new payload on the heap. *)
Definition Init (p : LogicalPlan) : M ptr :=
  fun m => (Ok (length (plans m)),
            mkMemo (plans m ++ [p]) (exprs m) (groups m)).

Definition writePlan (p : ptr) (v : LogicalPlan) : M unit :=
  fun m => (Ok tt, mkMemo (<[p := v]> (plans m)) (exprs m) (groups m)).

Definition writeExpr (e : ptr) (v : GroupExpr.t) : M unit :=
  fun m => (Ok tt, mkMemo (plans m) (<[e := v]> (exprs m)) (groups m)).

Definition writeGroup (g : ptr) (v : Group.t) : M unit :=
  fun m => (Ok tt, mkMemo (plans m) (exprs m) (<[g := v]> (groups m))).

(** Modelled from the spec: [memo.NewGroupExpr] ("new group expr"), a
    GroupExpr around a payload, without children and without owner. *)
Definition NewGroupExpr (node : ptr) : M ptr :=
  fun m => (Ok (length (exprs m)),
            mkMemo (plans m) (exprs m ++ [GroupExpr.mk node [] None]) (groups m)).

(** Modelled from the spec: [GroupExpr.SetChildren] ("set children"). *)
Definition SetChildren (e : ptr) (children : list ptr) : M unit :=
  ge <- readExpr e ;;
  writeExpr e (GroupExpr.mk (GroupExpr.ExprNode ge) children (GroupExpr.Group ge)).

(** [e.Children = append(e.Children, g)]. *)
Definition appendChild (e : ptr) (g : ptr) : M unit :=
  ge <- readExpr e ;;
  writeExpr e (GroupExpr.mk (GroupExpr.ExprNode ge)
                 (GroupExpr.Children ge ++ [g]) (GroupExpr.Group ge)).

(** Modelled from the spec: [memo.NewGroupWithSchema] ("new group with
    schema"): a new Group of the given schema, on the coordinator tier,
    whose only member is [e]; [e] is told its owner. *)
Definition NewGroupWithSchema (e : ptr) (s : Schema) : M ptr :=
  ge <- readExpr e ;;
  fun m =>
    let g := length (groups m) in
    (Ok g,
     mkMemo (plans m)
       (<[e := GroupExpr.mk (GroupExpr.ExprNode ge) (GroupExpr.Children ge) (Some g)]>
          (exprs m))
       (groups m ++ [Group.mk [e] s EngineTiDB])).

(** Modelled from the spec: [Group.SetEngineType] ("set engine tier");
    it returns the Group it was called on. *)
Definition SetEngineType (g : ptr) (t : EngineType) : M ptr :=
  gr <- readGroup g ;;
  writeGroup g (Group.mk (Group.Equivalents gr) (Group.Schema gr) t) ;;;
  ret g.

(** Type assertions on [ExprNode]. *)
Definition asSelection (p : LogicalPlan) : M LogicalSelection.t :=
  match p with PSelection x => ret x | _ => panic end.
Definition asProjection (p : LogicalPlan) : M LogicalProjection.t :=
  match p with PProjection x => ret x | _ => panic end.
Definition asAggregation (p : LogicalPlan) : M LogicalAggregation.t :=
  match p with PAggregation x => ret x | _ => panic end.
Definition asJoin (p : LogicalPlan) : M LogicalJoin.t :=
  match p with PJoin x => ret x | _ => panic end.
Definition asSort (p : LogicalPlan) : M LogicalSort.t :=
  match p with PSort x => ret x | _ => panic end.
Definition asLimit (p : LogicalPlan) : M LogicalLimit.t :=
  match p with PLimit x => ret x | _ => panic end.
Definition asTopN (p : LogicalPlan) : M LogicalTopN.t :=
  match p with PTopN x => ret x | _ => panic end.
Definition asDataSource (p : LogicalPlan) : M DataSource.t :=
  match p with PDataSource x => ret x | _ => panic end.
Definition asTableScan (p : LogicalPlan) : M LogicalTableScan.t :=
  match p with PTableScan x => ret x | _ => panic end.
Definition asIndexScan (p : LogicalPlan) : M LogicalIndexScan.t :=
  match p with PIndexScan x => ret x | _ => panic end.
Definition asTiKVSingleGather (p : LogicalPlan) : M TiKVSingleGather.t :=
  match p with PTiKVSingleGather x => ret x | _ => panic end.

(** ** Patterns and bindings (package [memo]) *)

Inductive Pattern := mkPattern {
  patOperand : Operand;
  patEngine : EngineTypeSet;
  patChildren : list Pattern }.

Definition NewPattern (o : Operand) (e : EngineTypeSet) : Pattern :=
  mkPattern o e [].

Definition BuildPattern (o : Operand) (e : EngineTypeSet) (children : list Pattern) : Pattern :=
  mkPattern o e children.

(** One binding of a pattern: the Group, the bound member (nil at a
    wildcard position) and the bindings of the children. *)
Inductive ExprIter := mkExprIter {
  itGroup : ptr;
  itElement : option ptr;
  itChildren : list ExprIter }.

(** [it.GetExpr()]: the bound GroupExpr, by reference. *)
Definition GetExpr (it : ExprIter) : M ptr := unwrap (itElement it).

(** [it.Children[i]]. *)
Definition child (i : nat) (it : ExprIter) : M ExprIter :=
  unwrap (itChildren it !! i).

(** [e.Children[i]] of a GroupExpr. *)
Definition childGroupOf (ge : GroupExpr.t) (i : nat) : M ptr :=
  unwrap (GroupExpr.Children ge !! i).

(** [e.Group.Prop.Schema] of a GroupExpr. *)
Definition groupSchemaOf (ge : GroupExpr.t) : M Schema :=
  g <- unwrap (GroupExpr.Group ge) ;;
  gr <- readGroup g ;;
  ret (Group.Schema gr).

(** What [OnTransform] returns besides the error. *)
Record Result := mkResult {
  newExprs : list ptr;
  eraseOld : bool;
  eraseAll : bool }.

(** [return nil, false, false, nil]. *)
Definition noRewrite : Result := mkResult [] false false.

(** ** Collaborators

    The functions of the expression, range, aggregation and planner-core
    layers that the rules call; the session context they all take is left
    out. *)

Module DetachRangeResult.
Record t := mk {
  Ranges : list Range.t;
  AccessConds : list Expression;
  RemainedConds : list Expression;
  EqCondCount : Z;
  EqOrInCount : Z;
  IsDNFCond : bool }.
End DetachRangeResult.

Record Collab := mkCollab {
  (* expression *)
  HasAssignSetVarFunc : Expression -> bool;
  HasGetSetVarFunc : Expression -> bool;
  ColumnSubstitute : Expression -> Schema -> list Expression -> Expression;
  ExtractColumns : Expression -> list Column;
  ExtractFiltersFromDNFs : list Expression -> list Expression;
  PropagateConstant : list Expression -> list Expression;
  RemoveDupExprs : list Expression -> list Expression;
  ExprEqual : Expression -> Expression -> bool;
  ExpressionsToPB : list Expression -> list Expression * list Expression;
  HashCode : Column -> string;
  (* ranger *)
  DetachCondsForColumn :
    list Expression -> Column -> option (list Expression) * list Expression;
  DetachCondAndBuildRangeForIndex :
    list Expression -> list Column -> list Z -> string + DetachRangeResult.t;
  (* plannercore *)
  Conds2TableDual : LogicalJoin.t -> list Expression -> option LogicalTableDual.t;
  ExtractOnCondition :
    LogicalJoin.t -> list Expression -> Schema -> Schema ->
    list ScalarFunction * list Expression * list Expression * list Expression;
  ExprsHasSideEffects : list Expression -> bool;
  ResolveExprAndReplace : Expression -> gmap string Column -> Expression;
  ReplaceColumnOfExpr : Expression -> LogicalProjection.t -> Schema -> Expression;
  GetGroupByCols : LogicalAggregation.t -> list Column;
  CheckAggCanPushCop : list AggFuncDesc.t -> list Expression -> bool;
  BuildFinalModeAggregation :
    list AggFuncDesc.t -> list Expression -> Schema ->
    list AggFuncDesc.t * list Expression * Schema;
  RemoveUnnecessaryFirstRow :
    list AggFuncDesc.t -> list Expression -> list AggFuncDesc.t ->
    list Expression -> Schema -> list AggFuncDesc.t;
  (* one (gather, scan below it, schema of the scan) per access path *)
  Convert2Gathers : DataSource.t -> list (TiKVSingleGather.t * LogicalPlan * Schema) }.

(** The interface [Transformation]. *)
Record Transformation := mkTransformation {
  GetPattern : Pattern;
  Match : ExprIter -> M bool;
  OnTransform : ExprIter -> M Result }.

(** [baseRule.Match]. *)
Definition baseRule_Match (expr : ExprIter) : M bool := ret true.

(** [it.GetExpr()] dereferenced. *)
Definition exprOf (it : ExprIter) : M GroupExpr.t :=
  e <- GetExpr it ;; readExpr e.

(** [it.GetExpr().ExprNode], the payload behind the reference. *)
Definition nodeOf (it : ExprIter) : M LogicalPlan :=
  ge <- exprOf it ;; readPlan (GroupExpr.ExprNode ge).

(** ** The rules *)

Section Rules.
Context (X : Collab).

(** *** PushSelDownTableScan: [Selection -> TableScan] *)

Definition PushSelDownTableScan_Pattern : Pattern :=
  BuildPattern OperandSelection EngineTiKVOnly
    [NewPattern OperandTableScan EngineTiKVOnly].

(** The new scan is built with a copy of the old access conditions and
    extended before anything else can see it; both steps are one [Init]. *)
Definition PushSelDownTableScan_OnTransform (old : ExprIter) : M Result :=
  oldExpr <- exprOf old ;;
  sel <- (p <- readPlan (GroupExpr.ExprNode oldExpr) ;; asSelection p) ;;
  c0 <- child 0 old ;;
  ts <- (p <- nodeOf c0 ;; asTableScan p) ;;
  match LogicalTableScan.Handle ts with
  | None => ret noRewrite
  | Some handle =>
    let '(accesses, remained) :=
      DetachCondsForColumn X (LogicalSelection.Conditions sel) handle in
    match accesses with
    | None => ret noRewrite
    | Some accesses =>
      newTblScan <- Init (PTableScan (LogicalTableScan.mk
                            (LogicalTableScan.Source ts)
                            (LogicalTableScan.Handle ts)
                            (LogicalTableScan.AccessConds ts ++ accesses))) ;;
      tblScanExpr <- NewGroupExpr newTblScan ;;
      if decide (length remained = 0) then
        ret (mkResult [tblScanExpr] true false)
      else
        schema <- groupSchemaOf oldExpr ;;
        tblScanGroup <- NewGroupWithSchema tblScanExpr schema ;;
        newSel <- Init (PSelection (LogicalSelection.mk remained)) ;;
        selExpr <- NewGroupExpr newSel ;;
        appendChild selExpr tblScanGroup ;;;
        ret (mkResult [selExpr] true false)
    end
  end.

(** *** PushSelDownIndexScan: [Selection -> IndexScan] *)

Definition PushSelDownIndexScan_Pattern : Pattern :=
  BuildPattern OperandSelection EngineTiKVOnly
    [NewPattern OperandIndexScan EngineTiKVOnly].

(** The fixpoint guard: same number of access conditions, pairwise
    [Equal]. *)
Definition sameConds (new old : list Expression) : bool :=
  bool_decide (length new = length old) &&
  forallb (fun '(a, b) => ExprEqual X a b) (zip new old).

(** With [is.AccessConds] nil or empty the merged slice holds the
    elements of [sel.Conditions], as the unmerged one does. *)
Definition PushSelDownIndexScan_OnTransform (old : ExprIter) : M Result :=
  sel <- (p <- nodeOf old ;; asSelection p) ;;
  c0 <- child 0 old ;;
  isExpr0 <- exprOf c0 ;;
  idx <- (p <- readPlan (GroupExpr.ExprNode isExpr0) ;; asIndexScan p) ;;
  if decide (length (LogicalIndexScan.IdxCols idx) = 0) then ret noRewrite
  else
    let conditions :=
      LogicalSelection.Conditions sel ++ LogicalIndexScan.AccessConds idx in
    match DetachCondAndBuildRangeForIndex X conditions
            (LogicalIndexScan.IdxCols idx) (LogicalIndexScan.IdxColLens idx) with
    | inl err => fail err
    | inr res =>
      if sameConds (DetachRangeResult.AccessConds res) (LogicalIndexScan.AccessConds idx)
      then ret noRewrite
      else
        newIs <- Init (PIndexScan (LogicalIndexScan.mk
                         (LogicalIndexScan.Source idx)
                         (LogicalIndexScan.IsDoubleRead idx)
                         (DetachRangeResult.EqCondCount res)
                         (DetachRangeResult.AccessConds res)
                         (DetachRangeResult.Ranges res)
                         (LogicalIndexScan.Index idx)
                         (LogicalIndexScan.Columns idx)
                         (LogicalIndexScan.FullIdxCols idx)
                         (LogicalIndexScan.FullIdxColLens idx)
                         (LogicalIndexScan.IdxCols idx)
                         (LogicalIndexScan.IdxColLens idx))) ;;
        isExpr <- NewGroupExpr newIs ;;
        if decide (length (DetachRangeResult.RemainedConds res) = 0) then
          ret (mkResult [isExpr] true false)
        else
          schema <- groupSchemaOf isExpr0 ;;
          isGroup <- NewGroupWithSchema isExpr schema ;;
          newSel <- Init (PSelection
                            (LogicalSelection.mk (DetachRangeResult.RemainedConds res))) ;;
          selExpr <- NewGroupExpr newSel ;;
          SetChildren selExpr [isGroup] ;;;
          ret (mkResult [selExpr] true false)
    end.

(** *** PushSelDownTiKVSingleGather: [Selection -> TiKVSingleGather -> Any] *)

Definition PushSelDownTiKVSingleGather_Pattern : Pattern :=
  BuildPattern OperandSelection EngineTiDBOnly
    [BuildPattern OperandTiKVSingleGather EngineTiDBOnly
       [NewPattern OperandAny EngineTiKVOnly]].

Definition PushSelDownTiKVSingleGather_OnTransform (old : ExprIter) : M Result :=
  sel <- (p <- nodeOf old ;; asSelection p) ;;
  c0 <- child 0 old ;;
  sgExpr <- exprOf c0 ;;
  sg <- (p <- readPlan (GroupExpr.ExprNode sgExpr) ;; asTiKVSingleGather p) ;;
  c00 <- child 0 c0 ;;
  let childGroup := itGroup c00 in
  let '(pushed, remained) := ExpressionsToPB X (LogicalSelection.Conditions sel) in
  if decide (length pushed = 0) then ret noRewrite
  else
    pushedSel <- Init (PSelection (LogicalSelection.mk pushed)) ;;
    pushedSelExpr <- NewGroupExpr pushedSel ;;
    appendChild pushedSelExpr childGroup ;;;
    cg <- readGroup childGroup ;;
    pushedSelGroup <- (g <- NewGroupWithSchema pushedSelExpr (Group.Schema cg) ;;
                       SetEngineType g (Group.EngineType cg)) ;;
    (* the same gather payload is referenced, not copied *)
    tblGatherExpr <- NewGroupExpr (GroupExpr.ExprNode sgExpr) ;;
    appendChild tblGatherExpr pushedSelGroup ;;;
    if decide (length remained = 0) then
      ret (mkResult [tblGatherExpr] true false)
    else
      psg <- readGroup pushedSelGroup ;;
      tblGatherGroup <- NewGroupWithSchema tblGatherExpr (Group.Schema psg) ;;
      remainedSel <- Init (PSelection (LogicalSelection.mk remained)) ;;
      remainedSelExpr <- NewGroupExpr remainedSel ;;
      appendChild remainedSelExpr tblGatherGroup ;;;
      ret (mkResult [remainedSelExpr] true false).

(** *** EnumeratePaths: [DataSource] *)

Definition EnumeratePaths_Pattern : Pattern :=
  NewPattern OperandDataSource EngineTiDBOnly.

(** Modelled from the spec: [memo.Convert2GroupExpr] on a gather over one
    scan: the scan gets a Group of its own schema, the gather a GroupExpr
    over that Group. *)
Definition Convert2GroupExpr (gather : TiKVSingleGather.t * LogicalPlan * Schema) : M ptr :=
  let '(tg, scan, s) := gather in
  scanNode <- Init scan ;;
  scanExpr <- NewGroupExpr scanNode ;;
  scanGroup <- NewGroupWithSchema scanExpr s ;;
  tgNode <- Init (PTiKVSingleGather tg) ;;
  tgExpr <- NewGroupExpr tgNode ;;
  SetChildren tgExpr [scanGroup] ;;;
  ret tgExpr.

Fixpoint EnumeratePaths_loop
    (gathers : list (TiKVSingleGather.t * LogicalPlan * Schema))
    (acc : list ptr) : M (list ptr) :=
  match gathers with
  | [] => ret acc
  | gather :: rest =>
    expr <- Convert2GroupExpr gather ;;
    ge <- readExpr expr ;;
    g <- childGroupOf ge 0 ;;
    SetEngineType g EngineTiKV ;;;
    EnumeratePaths_loop rest (acc ++ [expr])
  end.

Definition EnumeratePaths_OnTransform (old : ExprIter) : M Result :=
  ds <- (p <- nodeOf old ;; asDataSource p) ;;
  es <- EnumeratePaths_loop (Convert2Gathers X ds) [] ;;
  ret (mkResult es true false).

(** *** PushAggDownGather: [Aggregation -> TiKVSingleGather] *)

Definition PushAggDownGather_Pattern : Pattern :=
  BuildPattern OperandAggregation EngineTiDBOnly
    [NewPattern OperandTiKVSingleGather EngineTiDBOnly].

Definition PushAggDownGather_Match (expr : ExprIter) : M bool :=
  agg <- (p <- nodeOf expr ;; asAggregation p) ;;
  if forallb (fun aggFunc => bool_decide (AggFuncDesc.Mode aggFunc = CompleteMode))
       (LogicalAggregation.AggFuncs agg)
  then ret (CheckAggCanPushCop X (LogicalAggregation.AggFuncs agg)
              (LogicalAggregation.GroupByItems agg))
  else ret false.

(** The partial-stage copy of an aggregate function: same name, return
    type and arguments (in a slice of its own), mode [Partial1Mode]. *)
Definition toPartial1 (aggFunc : AggFuncDesc.t) : AggFuncDesc.t :=
  AggFuncDesc.mk (AggFuncDesc.Name aggFunc) (AggFuncDesc.Args aggFunc)
    Partial1Mode (AggFuncDesc.RetTp aggFunc).

Definition PushAggDownGather_OnTransform (old : ExprIter) : M Result :=
  oldExpr <- exprOf old ;;
  agg <- (p <- readPlan (GroupExpr.ExprNode oldExpr) ;; asAggregation p) ;;
  aggSchema <- groupSchemaOf oldExpr ;;
  c0 <- child 0 old ;;
  gatherExpr0 <- exprOf c0 ;;
  _ <- (p <- readPlan (GroupExpr.ExprNode gatherExpr0) ;; asTiKVSingleGather p) ;;
  childGroup <- childGroupOf gatherExpr0 0 ;;
  let partialAggFuncs := map toPartial1 (LogicalAggregation.AggFuncs agg) in
  let partialGbyItems := LogicalAggregation.GroupByItems agg in
  partialAgg <- Init (PAggregation (LogicalAggregation.mk partialAggFuncs partialGbyItems)) ;;
  let '(finalAggFuncs, finalGbyItems, partialSchema) :=
    BuildFinalModeAggregation X partialAggFuncs partialGbyItems aggSchema in
  writePlan partialAgg
    (PAggregation (LogicalAggregation.mk
       (RemoveUnnecessaryFirstRow X finalAggFuncs finalGbyItems
          partialAggFuncs partialGbyItems partialSchema)
       partialGbyItems)) ;;;
  finalAgg <- Init (PAggregation (LogicalAggregation.mk finalAggFuncs finalGbyItems)) ;;
  partialAggExpr <- NewGroupExpr partialAgg ;;
  SetChildren partialAggExpr [childGroup] ;;;
  cg <- readGroup childGroup ;;
  partialAggGroup <- (g <- NewGroupWithSchema partialAggExpr partialSchema ;;
                      SetEngineType g (Group.EngineType cg)) ;;
  gatherExpr <- NewGroupExpr (GroupExpr.ExprNode gatherExpr0) ;;
  SetChildren gatherExpr [partialAggGroup] ;;;
  gatherGroup <- NewGroupWithSchema gatherExpr partialSchema ;;
  finalAggExpr <- NewGroupExpr finalAgg ;;
  SetChildren finalAggExpr [gatherGroup] ;;;
  (* the old complete-mode Aggregation is not erased *)
  ret (mkResult [finalAggExpr] false false).

(** *** PushSelDownSort: [Selection -> Sort] *)

Definition PushSelDownSort_Pattern : Pattern :=
  BuildPattern OperandSelection EngineTiDBOnly
    [NewPattern OperandSort EngineTiDBOnly].

Definition PushSelDownSort_OnTransform (old : ExprIter) : M Result :=
  selExpr <- exprOf old ;;
  _ <- (p <- readPlan (GroupExpr.ExprNode selExpr) ;; asSelection p) ;;
  c0 <- child 0 old ;;
  sortExpr <- exprOf c0 ;;
  _ <- (p <- readPlan (GroupExpr.ExprNode sortExpr) ;; asSort p) ;;
  childGroup <- childGroupOf sortExpr 0 ;;
  newSelExpr <- NewGroupExpr (GroupExpr.ExprNode selExpr) ;;
  appendChild newSelExpr childGroup ;;;
  cg <- readGroup childGroup ;;
  newSelGroup <- NewGroupWithSchema newSelExpr (Group.Schema cg) ;;
  newSortExpr <- NewGroupExpr (GroupExpr.ExprNode sortExpr) ;;
  appendChild newSortExpr newSelGroup ;;;
  ret (mkResult [newSortExpr] true false).

(** *** PushSelDownProjection: [Selection -> Projection] *)

Definition PushSelDownProjection_Pattern : Pattern :=
  BuildPattern OperandSelection EngineTiDBOnly
    [NewPattern OperandProjection EngineTiDBOnly].

Definition PushSelDownProjection_OnTransform (old : ExprIter) : M Result :=
  sel <- (p <- nodeOf old ;; asSelection p) ;;
  c0 <- child 0 old ;;
  projExpr <- exprOf c0 ;;
  proj <- (p <- readPlan (GroupExpr.ExprNode projExpr) ;; asProjection p) ;;
  pg <- readGroup (itGroup c0) ;;
  let projSchema := Group.Schema pg in
  childGroup <- childGroupOf projExpr 0 ;;
  if existsb (HasAssignSetVarFunc X) (LogicalProjection.Exprs proj) then ret noRewrite
  else
    let canBePushed :=
      map (fun cond => ColumnSubstitute X cond projSchema (LogicalProjection.Exprs proj))
        (filter (fun cond => HasGetSetVarFunc X cond = false)
           (LogicalSelection.Conditions sel)) in
    let canNotBePushed :=
      filter (fun cond => HasGetSetVarFunc X cond = true)
        (LogicalSelection.Conditions sel) in
    if decide (length canBePushed = 0) then ret noRewrite
    else
      newBottomSel <- Init (PSelection (LogicalSelection.mk canBePushed)) ;;
      newBottomSelExpr <- NewGroupExpr newBottomSel ;;
      SetChildren newBottomSelExpr [childGroup] ;;;
      cg <- readGroup childGroup ;;
      newBottomSelGroup <- NewGroupWithSchema newBottomSelExpr (Group.Schema cg) ;;
      newProjExpr <- NewGroupExpr (GroupExpr.ExprNode projExpr) ;;
      SetChildren newProjExpr [newBottomSelGroup] ;;;
      if decide (length canNotBePushed = 0) then
        ret (mkResult [newProjExpr] true false)
      else
        newProjGroup <- NewGroupWithSchema newProjExpr projSchema ;;
        newTopSel <- Init (PSelection (LogicalSelection.mk canNotBePushed)) ;;
        newTopSelExpr <- NewGroupExpr newTopSel ;;
        SetChildren newTopSelExpr [newProjGroup] ;;;
        ret (mkResult [newTopSelExpr] true false).

(** *** PushSelDownAggregation: [Selection -> Aggregation] *)

Definition PushSelDownAggregation_Pattern : Pattern :=
  BuildPattern OperandSelection EngineAll
    [NewPattern OperandAggregation EngineAll].

(** The cloned schema of the aggregation without its group-by columns. *)
Definition aggrNoGroupBySchema (aggrSchema : Schema) (groupByCols : list Column) : Schema :=
  fold_left
    (fun s col => match ColumnIndex s col with
                  | Some idx => removeAt idx s
                  | None => s
                  end)
    groupByCols aggrSchema.

(** [containCol]: the condition uses a column that only the aggregate
    functions produce. *)
Definition containCol (noGroupBy : Schema) (expr : Expression) : bool :=
  existsb (Contains noGroupBy) (ExtractColumns X expr).

Definition PushSelDownAggregation_OnTransform (old : ExprIter) : M Result :=
  sel <- (p <- nodeOf old ;; asSelection p) ;;
  c0 <- child 0 old ;;
  aggrExpr <- exprOf c0 ;;
  aggr <- (p <- readPlan (GroupExpr.ExprNode aggrExpr) ;; asAggregation p) ;;
  aggrSchema <- groupSchemaOf aggrExpr ;;
  childGroup <- childGroupOf aggrExpr 0 ;;
  let noGroupBy := aggrNoGroupBySchema aggrSchema (GetGroupByCols X aggr) in
  let canBePushed :=
    filter (fun expr => containCol noGroupBy expr = false)
      (LogicalSelection.Conditions sel) in
  let canNotBePushed :=
    filter (fun expr => containCol noGroupBy expr = true)
      (LogicalSelection.Conditions sel) in
  if decide (length canBePushed = 0) then ret noRewrite
  else
    newBottomSel <- Init (PSelection (LogicalSelection.mk canBePushed)) ;;
    newBottomSelExpr <- NewGroupExpr newBottomSel ;;
    SetChildren newBottomSelExpr [childGroup] ;;;
    cg <- readGroup childGroup ;;
    newBottomSelGroup <- NewGroupWithSchema newBottomSelExpr (Group.Schema cg) ;;
    newAggrExpr <- NewGroupExpr (GroupExpr.ExprNode aggrExpr) ;;
    SetChildren newAggrExpr [newBottomSelGroup] ;;;
    if decide (length canNotBePushed = 0) then
      ret (mkResult [newAggrExpr] true false)
    else
      newAggrGroup <- NewGroupWithSchema newAggrExpr aggrSchema ;;
      newTopSel <- Init (PSelection (LogicalSelection.mk canNotBePushed)) ;;
      newTopSelExpr <- NewGroupExpr newTopSel ;;
      SetChildren newTopSelExpr [newAggrGroup] ;;;
      ret (mkResult [newTopSelExpr] true false).

(** *** TransformLimitToTopN: [Limit -> Sort] *)

Definition TransformLimitToTopN_Pattern : Pattern :=
  BuildPattern OperandLimit EngineTiDBOnly
    [NewPattern OperandSort EngineTiDBOnly].

Definition TransformLimitToTopN_OnTransform (old : ExprIter) : M Result :=
  limit <- (p <- nodeOf old ;; asLimit p) ;;
  c0 <- child 0 old ;;
  sortExpr <- exprOf c0 ;;
  sort <- (p <- readPlan (GroupExpr.ExprNode sortExpr) ;; asSort p) ;;
  childGroup <- childGroupOf sortExpr 0 ;;
  topN <- Init (PTopN (LogicalTopN.mk (LogicalSort.ByItems sort)
                         (LogicalLimit.Offset limit) (LogicalLimit.Count limit))) ;;
  topNExpr <- NewGroupExpr topN ;;
  SetChildren topNExpr [childGroup] ;;;
  ret (mkResult [topNExpr] true false).

(** *** PushSelDownJoin: [Selection -> Join] *)

Definition PushSelDownJoin_Pattern : Pattern :=
  BuildPattern OperandSelection EngineTiDBOnly
    [NewPattern OperandJoin EngineTiDBOnly].

Definition buildChildSelectionGroup
    (conditions : list Expression) (childGroup : ptr) : M ptr :=
  if decide (length conditions = 0) then ret childGroup
  else
    newSel <- Init (PSelection (LogicalSelection.mk conditions)) ;;
    groupExpr <- NewGroupExpr newSel ;;
    SetChildren groupExpr [childGroup] ;;;
    cg <- readGroup childGroup ;;
    NewGroupWithSchema groupExpr (Group.Schema cg).

(** The loop over [join.EqualConditions] that appends to the join keys of
    the join it reads them from; [None] when an argument is missing or is
    not a column (the type assertion panics). *)
Fixpoint appendJoinKeys (eqConds : list ScalarFunction) (join : LogicalJoin.t)
  : option LogicalJoin.t :=
  match eqConds with
  | [] => Some join
  | eqCond :: rest =>
    l ← GetArgs eqCond !! 0 ≫= asColumn ;
    r ← GetArgs eqCond !! 1 ≫= asColumn ;
    appendJoinKeys rest
      (LogicalJoin.mk (LogicalJoin.JoinType join)
         (LogicalJoin.LeftConditions join) (LogicalJoin.RightConditions join)
         (LogicalJoin.EqualConditions join) (LogicalJoin.OtherConditions join)
         (LogicalJoin.LeftJoinKeys join ++ [l])
         (LogicalJoin.RightJoinKeys join ++ [r]))
  end.

(** The part of the rule after the [switch]: it works on the join
    payload as the [switch] left it. *)
Definition PushSelDownJoin_finish
    (joinNode : ptr) (joinExpr : GroupExpr.t)
    (leftCond rightCond : list Expression) : M Result :=
  let leftCond := RemoveDupExprs X leftCond in
  let rightCond := RemoveDupExprs X rightCond in
  join <- (p <- readPlan joinNode ;; asJoin p) ;;
  join' <- unwrap (appendJoinKeys (LogicalJoin.EqualConditions join) join) ;;
  writePlan joinNode (PJoin join') ;;;
  c0 <- childGroupOf joinExpr 0 ;;
  leftGroup <- buildChildSelectionGroup leftCond c0 ;;
  c1 <- childGroupOf joinExpr 1 ;;
  rightGroup <- buildChildSelectionGroup rightCond c1 ;;
  newJoinExpr <- NewGroupExpr joinNode ;;
  SetChildren newJoinExpr [leftGroup; rightGroup] ;;;
  ret (mkResult [newJoinExpr] true false).

(** [tempCond]: the conditions of the join and of the selection, after
    filter extraction and constant propagation. *)
Definition combinedCond (join : LogicalJoin.t) (sel : LogicalSelection.t)
  : list Expression :=
  let tempCond :=
    LogicalJoin.LeftConditions join ++ LogicalJoin.RightConditions join ++
    ScalarFuncs2Exprs (LogicalJoin.EqualConditions join) ++
    LogicalJoin.OtherConditions join ++ LogicalSelection.Conditions sel in
  let tempCond := ExtractFiltersFromDNFs X tempCond in
  PropagateConstant X tempCond.

Definition PushSelDownJoin_OnTransform (old : ExprIter) : M Result :=
  sel <- (p <- nodeOf old ;; asSelection p) ;;
  c0 <- child 0 old ;;
  joinExpr <- exprOf c0 ;;
  let joinNode := GroupExpr.ExprNode joinExpr in
  join <- (p <- readPlan joinNode ;; asJoin p) ;;
  leftGroup <- childGroupOf joinExpr 0 ;;
  rightGroup <- childGroupOf joinExpr 1 ;;
  match LogicalJoin.JoinType join with
  | InnerJoin =>
    let tempCond := combinedCond join sel in
    (* Return table dual when filter is constant false or null. *)
    match Conds2TableDual X join tempCond with
    | Some dual =>
      d <- Init (PTableDual dual) ;;
      e <- NewGroupExpr d ;;
      ret (mkResult [e] false true)
    | None =>
      lg <- readGroup leftGroup ;;
      rg <- readGroup rightGroup ;;
      let '(equalCond, leftPushCond, rightPushCond, otherCond) :=
        ExtractOnCondition X join tempCond (Group.Schema lg) (Group.Schema rg) in
      (* the matched join itself is updated *)
      writePlan joinNode
        (PJoin (LogicalJoin.mk (LogicalJoin.JoinType join) [] [] equalCond otherCond
                  (LogicalJoin.LeftJoinKeys join) (LogicalJoin.RightJoinKeys join))) ;;;
      PushSelDownJoin_finish joinNode joinExpr leftPushCond rightPushCond
    end
  | _ =>
    PushSelDownJoin_finish joinNode joinExpr [] []
  end.

(** *** EliminateProjection: [Projection -> Any] *)

Definition EliminateProjection_Pattern : Pattern :=
  BuildPattern OperandProjection EngineTiDBOnly
    [NewPattern OperandAny EngineTiDBOnly].

(** Modelled from the spec: [Column.Equal], identity of columns. *)
Definition Column_Equal (a b : Column) : bool := bool_decide (a = b).

Definition EliminateProjection_OnTransform (old : ExprIter) : M Result :=
  c <- child 0 old ;;
  cg <- readGroup (itGroup c) ;;
  oldExpr <- exprOf old ;;
  oldSchema <- groupSchemaOf oldExpr ;;
  if decide (length (Group.Schema cg) ≠ length oldSchema) then ret noRewrite
  else if forallb (fun '(col, oldCol) => Column_Equal col oldCol)
            (zip (Group.Schema cg) oldSchema)
  then
    (* Promote the children group's expression. *)
    ret (mkResult (Group.Equivalents cg) true false)
  else ret noRewrite.

(** *** MergeAdjacentProjection: [Projection -> Projection] *)

Definition MergeAdjacentProjection_Pattern : Pattern :=
  BuildPattern OperandProjection EngineTiDBOnly
    [NewPattern OperandProjection EngineTiDBOnly].

(** The map [replace]: for position [i] of the child's schema, when
    [child.Exprs[i]] is a column, the hash code of the schema column is
    mapped to it. [None] when the schema is longer than [child.Exprs]. *)
Fixpoint buildReplace (cols : list Column) (i : nat) (childExprs : list Expression)
    (replace : gmap string Column) : option (gmap string Column) :=
  match cols with
  | [] => Some replace
  | col :: cols' =>
    e ← childExprs !! i ;
    buildReplace cols' (S i) childExprs
      (match asColumn e with
       | Some colOrigin => <[HashCode X col := colOrigin]> replace
       | None => replace
       end)
  end.

(** [ResolveExprAndReplace] on a clone, then [ReplaceColumnOfExpr]. *)
Definition replaceThrough (replace : gmap string Column)
    (child : LogicalProjection.t) (childSchema : Schema) (expr : Expression) : Expression :=
  ReplaceColumnOfExpr X (ResolveExprAndReplace X expr replace) child childSchema.

Definition MergeAdjacentProjection_OnTransform (old : ExprIter) : M Result :=
  oldExpr <- exprOf old ;;
  proj <- (p <- readPlan (GroupExpr.ExprNode oldExpr) ;; asProjection p) ;;
  c0 <- child 0 old ;;
  let childGroup := itGroup c0 in
  childExpr <- exprOf c0 ;;
  child <- (p <- readPlan (GroupExpr.ExprNode childExpr) ;; asProjection p) ;;
  if ExprsHasSideEffects X (LogicalProjection.Exprs child) then ret noRewrite
  else
    cg <- readGroup childGroup ;;
    replace <- unwrap (buildReplace (Group.Schema cg) 0 (LogicalProjection.Exprs child) ∅) ;;
    oldSchema <- groupSchemaOf oldExpr ;;
    newProj <- Init (PProjection
                 (LogicalProjection.SetSchema oldSchema
                    (LogicalProjection.mk
                       (map (replaceThrough replace child (Group.Schema cg))
                          (LogicalProjection.Exprs proj))
                       []))) ;;
    newProjExpr <- NewGroupExpr newProj ;;
    x <- childGroupOf childExpr 0 ;;
    SetChildren newProjExpr [x] ;;;
    ret (mkResult [newProjExpr] true false).

(** *** PushTopNDownProjection: [TopN -> Projection] *)

Definition PushTopNDownProjection_Pattern : Pattern :=
  BuildPattern OperandTopN EngineTiDBOnly
    [NewPattern OperandProjection EngineTiDBOnly].

Definition PushTopNDownProjection_Match (expr : ExprIter) : M bool :=
  c0 <- child 0 expr ;;
  proj <- (p <- nodeOf c0 ;; asProjection p) ;;
  if existsb (HasAssignSetVarFunc X) (LogicalProjection.Exprs proj)
  then ret false else ret true.

(** [append(s[:i], s[i+1:]...)] for a slice [s] that spans its whole
    backing array: the elements after [i] move one place down inside the
    array, the last place keeps what it held. The value is the array
    afterwards; the slice [append] returns is its first [len(s)-1]
    elements. *)
Definition appendInPlace {A} (i : nat) (arr : list A) : list A :=
  take i arr ++ drop (S i) arr ++ drop (length arr - 1) arr.

(** The loop "remove meaningless constant sort items", for
    [i = len(newTopN.ByItems)-1] down to [0]. [arr] is the backing array
    of [newTopN.ByItems], whose length the loop never changes; [assigned]
    is what the loop has last assigned to [topN.ByItems], the field of
    the matched TopN, if it has. *)
Fixpoint removeConstLoop (i : nat) (arr : list ByItems.t)
    (assigned : option (list ByItems.t)) : list ByItems.t * option (list ByItems.t) :=
  match i with
  | 0 => (arr, assigned)
  | S j =>
    match arr !! j with
    | Some item =>
      if isConstant (ByItems.Expr item) then
        let arr' := appendInPlace j arr in
        removeConstLoop j arr' (Some (take (length arr - 1) arr'))
      else removeConstLoop j arr assigned
    | None => (arr, assigned)
    end
  end.

Definition PushTopNDownProjection_OnTransform (old : ExprIter) : M Result :=
  topNExpr0 <- exprOf old ;;
  let topNNode := GroupExpr.ExprNode topNExpr0 in
  topN <- (p <- readPlan topNNode ;; asTopN p) ;;
  c0 <- child 0 old ;;
  projExpr0 <- exprOf c0 ;;
  proj <- (p <- readPlan (GroupExpr.ExprNode projExpr0) ;; asProjection p) ;;
  childGroup <- childGroupOf projExpr0 0 ;;
  pg <- readGroup (itGroup c0) ;;
  let byItems :=
    map (fun item => ByItems.mk
                    (ColumnSubstitute X (ByItems.Expr item) (Group.Schema pg)
                       (LogicalProjection.Exprs proj))
                    (ByItems.Desc item))
      (LogicalTopN.ByItems topN) in
  (* remove meaningless constant sort items. *)
  let '(newByItems, assigned) := removeConstLoop (length byItems) byItems None in
  newTopN <- Init (PTopN (LogicalTopN.mk newByItems
                            (LogicalTopN.Offset topN) (LogicalTopN.Count topN))) ;;
  match assigned with
  | Some items =>
    writePlan topNNode
      (PTopN (LogicalTopN.mk items (LogicalTopN.Offset topN) (LogicalTopN.Count topN)))
  | None => ret tt
  end ;;;
  projExpr <- NewGroupExpr (GroupExpr.ExprNode projExpr0) ;;
  topNExpr <- NewGroupExpr newTopN ;;
  SetChildren topNExpr [childGroup] ;;;
  cg <- readGroup childGroup ;;
  topNGroup <- NewGroupWithSchema topNExpr (Group.Schema cg) ;;
  SetChildren projExpr [topNGroup] ;;;
  ret (mkResult [projExpr] true false).

(** *** MergeAggregationProjection: [Aggregation -> Projection] *)

Definition MergeAggregationProjection_Pattern : Pattern :=
  BuildPattern OperandAggregation EngineTiDBOnly
    [NewPattern OperandProjection EngineTiDBOnly].

Definition MergeAggregationProjection_Match (old : ExprIter) : M bool :=
  c0 <- child 0 old ;;
  proj <- (p <- nodeOf c0 ;; asProjection p) ;;
  if ExprsHasSideEffects X (LogicalProjection.Exprs proj)
  then ret false else ret true.

Definition MergeAggregationProjection_OnTransform (old : ExprIter) : M Result :=
  aggr <- (p <- nodeOf old ;; asAggregation p) ;;
  c0 <- child 0 old ;;
  let childGroup := itGroup c0 in
  childExpr <- exprOf c0 ;;
  child <- (p <- readPlan (GroupExpr.ExprNode childExpr) ;; asProjection p) ;;
  cg <- readGroup childGroup ;;
  replace <- unwrap (buildReplace (Group.Schema cg) 0 (LogicalProjection.Exprs child) ∅) ;;
  let through := replaceThrough replace child (Group.Schema cg) in
  newAggr <- Init (PAggregation (LogicalAggregation.mk
               (map (fun agg => AggFuncDesc.mk (AggFuncDesc.Name agg)
                                  (map through (AggFuncDesc.Args agg))
                                  (AggFuncDesc.Mode agg) (AggFuncDesc.RetTp agg))
                  (LogicalAggregation.AggFuncs aggr))
               (map through (LogicalAggregation.GroupByItems aggr)))) ;;
  newAggrExpr <- NewGroupExpr newAggr ;;
  x <- childGroupOf childExpr 0 ;;
  SetChildren newAggrExpr [x] ;;;
  ret (mkResult [newAggrExpr] true false).

(** *** The catalog *)

Definition NewRulePushSelDownTableScan : Transformation :=
  mkTransformation PushSelDownTableScan_Pattern baseRule_Match
    PushSelDownTableScan_OnTransform.
Definition NewRulePushSelDownIndexScan : Transformation :=
  mkTransformation PushSelDownIndexScan_Pattern baseRule_Match
    PushSelDownIndexScan_OnTransform.
Definition NewRulePushSelDownTiKVSingleGather : Transformation :=
  mkTransformation PushSelDownTiKVSingleGather_Pattern baseRule_Match
    PushSelDownTiKVSingleGather_OnTransform.
Definition NewRuleEnumeratePaths : Transformation :=
  mkTransformation EnumeratePaths_Pattern baseRule_Match
    EnumeratePaths_OnTransform.
Definition NewRulePushAggDownGather : Transformation :=
  mkTransformation PushAggDownGather_Pattern PushAggDownGather_Match
    PushAggDownGather_OnTransform.
Definition NewRulePushSelDownSort : Transformation :=
  mkTransformation PushSelDownSort_Pattern baseRule_Match
    PushSelDownSort_OnTransform.
Definition NewRulePushSelDownProjection : Transformation :=
  mkTransformation PushSelDownProjection_Pattern baseRule_Match
    PushSelDownProjection_OnTransform.
Definition NewRulePushSelDownAggregation : Transformation :=
  mkTransformation PushSelDownAggregation_Pattern baseRule_Match
    PushSelDownAggregation_OnTransform.
Definition NewRuleTransformLimitToTopN : Transformation :=
  mkTransformation TransformLimitToTopN_Pattern baseRule_Match
    TransformLimitToTopN_OnTransform.
Definition NewRulePushSelDownJoin : Transformation :=
  mkTransformation PushSelDownJoin_Pattern baseRule_Match
    PushSelDownJoin_OnTransform.
Definition NewRuleEliminateProjection : Transformation :=
  mkTransformation EliminateProjection_Pattern baseRule_Match
    EliminateProjection_OnTransform.
Definition NewRuleMergeAdjacentProjection : Transformation :=
  mkTransformation MergeAdjacentProjection_Pattern baseRule_Match
    MergeAdjacentProjection_OnTransform.
Definition NewRulePushTopNDownProjection : Transformation :=
  mkTransformation PushTopNDownProjection_Pattern PushTopNDownProjection_Match
    PushTopNDownProjection_OnTransform.
Definition NewRuleMergeAggregationProjection : Transformation :=
  mkTransformation MergeAggregationProjection_Pattern MergeAggregationProjection_Match
    MergeAggregationProjection_OnTransform.

(** The rule types of the package, one name per rule. *)
Inductive Rule :=
| PushSelDownTableScan
| PushSelDownIndexScan
| PushSelDownTiKVSingleGather
| EnumeratePaths
| PushAggDownGather
| PushSelDownSort
| PushSelDownProjection
| PushSelDownAggregation
| TransformLimitToTopN
| PushSelDownJoin
| EliminateProjection
| MergeAdjacentProjection
| PushTopNDownProjection
| MergeAggregationProjection.

Definition NewRule (r : Rule) : Transformation :=
  match r with
  | PushSelDownTableScan => NewRulePushSelDownTableScan
  | PushSelDownIndexScan => NewRulePushSelDownIndexScan
  | PushSelDownTiKVSingleGather => NewRulePushSelDownTiKVSingleGather
  | EnumeratePaths => NewRuleEnumeratePaths
  | PushAggDownGather => NewRulePushAggDownGather
  | PushSelDownSort => NewRulePushSelDownSort
  | PushSelDownProjection => NewRulePushSelDownProjection
  | PushSelDownAggregation => NewRulePushSelDownAggregation
  | TransformLimitToTopN => NewRuleTransformLimitToTopN
  | PushSelDownJoin => NewRulePushSelDownJoin
  | EliminateProjection => NewRuleEliminateProjection
  | MergeAdjacentProjection => NewRuleMergeAdjacentProjection
  | PushTopNDownProjection => NewRulePushTopNDownProjection
  | MergeAggregationProjection => NewRuleMergeAggregationProjection
  end.

(** [defaultTransformationMap], by rule name. *)
Definition defaultRules (o : Operand) : list Rule :=
  match o with
  | OperandSelection =>
    [ PushSelDownTableScan;
      PushSelDownTiKVSingleGather;
      PushSelDownSort;
      PushSelDownProjection;
      PushSelDownAggregation;
      PushSelDownJoin;
      PushSelDownIndexScan ]
  | OperandDataSource => [ EnumeratePaths ]
  | OperandAggregation => [ PushAggDownGather; MergeAggregationProjection ]
  | OperandLimit => [ TransformLimitToTopN ]
  | OperandProjection => [ EliminateProjection; MergeAdjacentProjection ]
  | OperandTopN => [ PushTopNDownProjection ]
  | _ => []
  end.

Definition defaultTransformationMap (o : Operand) : list Transformation :=
  map NewRule (defaultRules o).

End Rules.

(** ** Bindings of a pattern in a memo *)

(** Modelled from the spec: "an ordered list of child-Group references
    (arity fixed by operand kind)". *)
Definition arity (o : Operand) : nat :=
  match o with
  | OperandJoin => 2
  | OperandAggregation | OperandProjection | OperandSelection | OperandSort
  | OperandTopN | OperandLimit | OperandTiKVSingleGather => 1
  | OperandAny | OperandDataSource | OperandTableDual
  | OperandTableScan | OperandIndexScan => 0
  end.

(** Modelled from the spec: the tier constraint of a pattern position
    against the tier of the Group bound there. *)
Definition engineOK (s : EngineTypeSet) (e : EngineType) : bool :=
  match s, e with
  | EngineAll, _ | EngineTiDBOnly, EngineTiDB | EngineTiKVOnly, EngineTiKV => true
  | _, _ => false
  end.

(** Modelled from the spec: the matcher [ExprIter] of package [memo]
    produces bindings; [Matched m p it] says that [it] is a binding of
    the pattern [p] in the memo [m]. At a wildcard position the Group is
    bound as a unit. Elsewhere a member of the Group is bound, of the
    operand kind of the pattern, with as many children as its kind has,
    all of them Groups of the memo; when the pattern has children, they
    bind the child Groups of that member, position by position. *)
Fixpoint Matched (m : Memo) (p : Pattern) (it : ExprIter) {struct p} : bool :=
  match groups m !! itGroup it with
  | None => false
  | Some gr =>
    engineOK (patEngine p) (Group.EngineType gr) &&
    if decide (patOperand p = OperandAny) then bool_decide (itElement it = None)
    else
      match itElement it with
      | None => false
      | Some e =>
        match exprs m !! e with
        | None => false
        | Some ge =>
          match plans m !! GroupExpr.ExprNode ge with
          | None => false
          | Some node =>
            bool_decide (e ∈ Group.Equivalents gr) &&
            bool_decide (GroupExpr.Group ge = Some (itGroup it)) &&
            bool_decide (GetOperand node = patOperand p) &&
            bool_decide (length (GroupExpr.Children ge) = arity (patOperand p)) &&
            forallb (fun g => bool_decide (is_Some (groups m !! g))) (GroupExpr.Children ge) &&
            match patChildren p with
            | [] => true
            | ps =>
              (fix children (ps : list Pattern) (its : list ExprIter) (gs : list ptr) : bool :=
                 match ps, its, gs with
                 | [], [], [] => true
                 | p' :: ps', it' :: its', g :: gs' =>
                   bool_decide (itGroup it' = g) && Matched m p' it' && children ps' its' gs'
                 | _, _, _ => false
                 end) ps (itChildren it) (GroupExpr.Children ge)
            end
          end
        end
      end
  end.

(** What a binding of a non-wildcard position gives to a rule. *)
Record BoundNode (m : Memo) (o : Operand) (it : ExprIter)
    (e : ptr) (ge : GroupExpr.t) (node : LogicalPlan) (gr : Group.t) : Prop := {
  bn_group : groups m !! itGroup it = Some gr;
  bn_elem : itElement it = Some e;
  bn_expr : exprs m !! e = Some ge;
  bn_member : e ∈ Group.Equivalents gr;
  bn_owner : GroupExpr.Group ge = Some (itGroup it);
  bn_node : plans m !! GroupExpr.ExprNode ge = Some node;
  bn_operand : GetOperand node = o;
  bn_arity : length (GroupExpr.Children ge) = arity o;
  bn_children : Forall (fun g => is_Some (groups m !! g)) (GroupExpr.Children ge) }.


(** ** Constant contradictions *)

(** Modelled from the spec: a constant that is false or null. *)
Definition isFalseOrNull (e : Expression) : bool :=
  match e with
  | EConstant DNull | EConstant (DInt 0) => true
  | _ => false
  end.

(** Modelled from the spec: "the combined condition is a constant
    contradiction", a condition list that is one constant, false or
    null. *)
Definition constContradiction (conds : list Expression) : bool :=
  match conds with
  | [c] => isFalseOrNull c
  | _ => false
  end.

(** An equal condition of a join compares a column of the left side with
    a column of the right side; the rule PushSelDownJoin asserts it. *)
Definition columnEquality (f : ScalarFunction) : Prop :=
  exists a b rest, GetArgs f = EColumn a :: EColumn b :: rest.

(** Modelled from the spec: the range layer's index function is
    "idempotent when reapplied to its own prior output". The rule hands
    it the remaining conditions followed by the access conditions; on
    those it succeeds again and finds the same access conditions, as the
    rule compares them. *)
Definition rangerIdempotent (X : Collab) : Prop :=
  forall conds idxCols lens res,
    DetachCondAndBuildRangeForIndex X conds idxCols lens = inr res ->
    exists res',
      DetachCondAndBuildRangeForIndex X
        (DetachRangeResult.RemainedConds res ++ DetachRangeResult.AccessConds res)
        idxCols lens = inr res' /\
      sameConds X (DetachRangeResult.AccessConds res')
        (DetachRangeResult.AccessConds res) = true.

(** The predicates that an operator holds. *)
Definition condsOfPlan (p : LogicalPlan) : list Expression :=
  match p with
  | PSelection s => LogicalSelection.Conditions s
  | PJoin j =>
    LogicalJoin.LeftConditions j ++ LogicalJoin.RightConditions j ++
    ScalarFuncs2Exprs (LogicalJoin.EqualConditions j) ++ LogicalJoin.OtherConditions j
  | PTableScan ts => LogicalTableScan.AccessConds ts
  | PIndexScan idx => LogicalIndexScan.AccessConds idx
  | _ => []
  end.

(** The predicates of the plans that a GroupExpr stands for: its own and
    those of every member of its child Groups, down to the given depth. *)
Fixpoint predicatesBelow (depth : nat) (m : Memo) (e : ptr) : list Expression :=
  match depth with
  | 0 => []
  | S depth' =>
    match exprs m !! e with
    | None => []
    | Some ge =>
      from_option condsOfPlan [] (plans m !! GroupExpr.ExprNode ge) ++
      flat_map
        (fun g => match groups m !! g with
                  | None => []
                  | Some gr => flat_map (predicatesBelow depth' m) (Group.Equivalents gr)
                  end)
        (GroupExpr.Children ge)
    end
  end.

(** ** Schemas in the memo *)








(** Every member of a Group knows the Group as its owner. *)
Definition membersOwned (m : Memo) : Prop :=
  forall g gr e,
    groups m !! g = Some gr -> e ∈ Group.Equivalents gr ->
    exists ge, exprs m !! e = Some ge /\ GroupExpr.Group ge = Some g.

(** ** Reading a binding without running a rule *)

(** [m'] has every cell of [m], unchanged, and possibly new ones. *)
Definition extends (m m' : Memo) : Prop :=
  plans m `prefix_of` plans m' /\
  exprs m `prefix_of` exprs m' /\
  groups m `prefix_of` groups m'.


(** The GroupExpr bound at a position. *)
Definition boundExpr (m : Memo) (it : ExprIter) : option GroupExpr.t :=
  e ← itElement it ; exprs m !! e.

(** The payload of the GroupExpr bound at a position. *)
Definition boundNode (m : Memo) (it : ExprIter) : option LogicalPlan :=
  ge ← boundExpr m it ; plans m !! GroupExpr.ExprNode ge.

(** The payload bound at the child position of a binding. *)
Definition childNode (m : Memo) (old : ExprIter) : option LogicalPlan :=
  c0 ← itChildren old !! 0 ; boundNode m c0.


(** ** A reference instance of the collaborators

    The rules are run on concrete memos with these stand-ins for the
    expression, range and planner-core layers. *)

Module Ref.

(** Some function of the expression is one of [names]. *)
Fixpoint hasFunc (names : list string) (e : Expression) : bool :=
  match e with
  | EScalarFunction n args => bool_decide (n ∈ names) || existsb (hasFunc names) args
  | _ => false
  end.

(** Modelled from the spec: [expression.HasAssignSetVarFunc], the
    detection of an assignment to a session variable. *)
Definition HasAssignSetVarFunc : Expression -> bool := hasFunc ["setvar"].

(** Modelled from the spec: [expression.HasGetSetVarFunc], the detection
    of an assignment to or a read of a session variable. *)
Definition HasGetSetVarFunc : Expression -> bool := hasFunc ["setvar"; "getvar"].

(** Modelled from the spec: [plannercore.ExprsHasSideEffects], "any
    expression with an observable side effect". *)
Definition ExprsHasSideEffects (es : list Expression) : bool :=
  existsb (hasFunc ["setvar"; "sleep"]) es.

(** Modelled from the spec: [expression.ColumnSubstitute], every column
    of the schema replaced by the expression at its position. *)
Fixpoint ColumnSubstitute (e : Expression) (s : Schema) (newExprs : list Expression)
  : Expression :=
  match e with
  | EColumn c =>
    match ColumnIndex s c with
    | Some i => default e (newExprs !! i)
    | None => e
    end
  | EConstant _ => e
  | EScalarFunction n args =>
    EScalarFunction n (map (fun a => ColumnSubstitute a s newExprs) args)
  end.

(** Modelled from the spec: [expression.ExtractColumns]. *)
Fixpoint ExtractColumns (e : Expression) : list Column :=
  match e with
  | EColumn c => [c]
  | EConstant _ => []
  | EScalarFunction _ args => flat_map ExtractColumns args
  end.

(** Structural equality of expressions, for [Expression.Equal]. *)
Fixpoint ExprEqual (a b : Expression) : bool :=
  match a, b with
  | EColumn c, EColumn c' => bool_decide (c = c')
  | EConstant d, EConstant d' => bool_decide (d = d')
  | EScalarFunction n args, EScalarFunction n' args' =>
    bool_decide (n = n') &&
    (fix go (l l' : list Expression) : bool :=
       match l, l' with
       | [], [] => true
       | x :: l, y :: l' => ExprEqual x y && go l l'
       | _, _ => false
       end) args args'
  | _, _ => false
  end.

(** Modelled from the spec: [expression.RemoveDupExprs], the first
    occurrence of every expression, in order. *)
Fixpoint RemoveDupExprs (es : list Expression) : list Expression :=
  match es with
  | [] => []
  | e :: es' => e :: filter (fun e' => ExprEqual e e' = false) (RemoveDupExprs es')
  end.

(** An equality of two integer constants is its truth value. *)
Definition foldConst (e : Expression) : Expression :=
  match e with
  | EScalarFunction "eq" [EConstant (DInt a); EConstant (DInt b)] =>
    EConstant (DInt (if decide (a = b) then 1 else 0))
  | _ => e
  end.

(** A stand-in for constant propagation: constants are folded, and a
    conjunction with a false or null constant in it is the constant
    false. *)
Definition PropagateConstant (conds : list Expression) : list Expression :=
  let conds := map foldConst conds in
  if existsb isFalseOrNull conds then [EConstant (DInt 0)] else conds.

(** Modelled from the spec: [plannercore.Conds2TableDual], "Return table
    dual when filter is constant false or null". *)
Definition Conds2TableDual (join : LogicalJoin.t) (conds : list Expression)
  : option LogicalTableDual.t :=
  match conds with
  | [c] => if isFalseOrNull c then Some (LogicalTableDual.mk 0) else None
  | _ => None
  end.

(** A stand-in for the storage-tier classifier: a predicate without
    session variables can be evaluated by the storage tier. *)
Definition ExpressionsToPB (conds : list Expression) : list Expression * list Expression :=
  (filter (fun e => HasGetSetVarFunc e = false) conds,
   filter (fun e => HasGetSetVarFunc e = true) conds).

Definition HashCode (c : Column) : string := pretty (UniqueID c).

(** [col op constant] for one of the given operators. *)
Definition isCmpOn (ops : list string) (col : Column) (e : Expression) : bool :=
  match e with
  | EScalarFunction n [EColumn c; EConstant _] =>
    bool_decide (n ∈ ops) && bool_decide (c = col)
  | _ => false
  end.

(** A stand-in for [ranger.DetachCondsForColumn]: comparisons of the
    handle with a constant are access conditions. *)
Definition DetachCondsForColumn (conds : list Expression) (handle : Column)
  : option (list Expression) * list Expression :=
  let ops := ["eq"; "lt"; "le"; "gt"; "ge"] in
  match filter (fun e => isCmpOn ops handle e = true) conds with
  | [] => (None, conds)
  | acc => (Some acc, filter (fun e => isCmpOn ops handle e = false) conds)
  end.

(** A stand-in for [ranger.DetachCondAndBuildRangeForIndex]: equalities
    of the first index column with a constant are access conditions. *)
Definition DetachCondAndBuildRangeForIndex
    (conds : list Expression) (idxCols : list Column) (lens : list Z)
  : string + DetachRangeResult.t :=
  match idxCols with
  | [] => inl "no index column"
  | c :: _ =>
    let acc := filter (fun e => isCmpOn ["eq"] c e = true) conds in
    inr (DetachRangeResult.mk [] acc
           (filter (fun e => isCmpOn ["eq"] c e = false) conds)
           (Z.of_nat (length acc)) (Z.of_nat (length acc)) false)
  end.

(** A stand-in for [LogicalJoin.ExtractOnCondition]: an equality of a
    left column with a right column is a join key, a condition over one
    side only is pushed to that side, the rest stays with the join. *)
Definition ExtractOnCondition (join : LogicalJoin.t) (conds : list Expression)
    (ls rs : Schema)
  : list ScalarFunction * list Expression * list Expression * list Expression :=
  let onSide (s : Schema) (e : Expression) : bool :=
    forallb (Contains s) (ExtractColumns e) in
  let isKey (e : Expression) : bool :=
    match e with
    | EScalarFunction "eq" [EColumn a; EColumn b] => Contains ls a && Contains rs b
    | _ => false
    end in
  (omap (fun e => match e with
                  | EScalarFunction n args =>
                    if isKey e then Some (mkScalarFunction n args) else None
                  | _ => None
                  end) conds,
   filter (fun e => (negb (isKey e) && onSide ls e) = true) conds,
   filter (fun e => (negb (isKey e) && negb (onSide ls e) && onSide rs e) = true) conds,
   filter (fun e => (negb (isKey e) && negb (onSide ls e) && negb (onSide rs e)) = true) conds).

Definition ResolveExprAndReplace (e : Expression) (replace : gmap string Column)
  : Expression :=
  (fix go (e : Expression) : Expression :=
     match e with
     | EColumn c => EColumn (default c (replace !! HashCode c))
     | EConstant _ => e
     | EScalarFunction n args => EScalarFunction n (map go args)
     end) e.

Definition ReplaceColumnOfExpr (e : Expression) (proj : LogicalProjection.t) (s : Schema)
  : Expression :=
  ColumnSubstitute e s (LogicalProjection.Exprs proj).

Definition GetGroupByCols (agg : LogicalAggregation.t) : list Column :=
  omap asColumn (LogicalAggregation.GroupByItems agg).

(** A stand-in for [plannercore.CheckAggCanPushCop]: nothing with a side
    effect goes to the storage tier. *)
Definition CheckAggCanPushCop (fs : list AggFuncDesc.t) (gby : list Expression) : bool :=
  negb (ExprsHasSideEffects (flat_map AggFuncDesc.Args fs ++ gby)).

(** A stand-in for [plannercore.BuildFinalModeAggregation]: the final
    function at a position reads the column at that position of the
    partial result. *)
Definition BuildFinalModeAggregation (fs : list AggFuncDesc.t) (gby : list Expression)
    (finalSchema : Schema) : list AggFuncDesc.t * list Expression * Schema :=
  (zip_with (fun f c => AggFuncDesc.mk (AggFuncDesc.Name f) [EColumn c] FinalMode
                          (AggFuncDesc.RetTp f)) fs finalSchema,
   gby, finalSchema).

Definition RemoveUnnecessaryFirstRow
    (finalFuncs : list AggFuncDesc.t) (finalGby : list Expression)
    (partialFuncs : list AggFuncDesc.t) (partialGby : list Expression)
    (partialSchema : Schema) : list AggFuncDesc.t :=
  partialFuncs.

(** One access path: the full table scan. *)
Definition Convert2Gathers (ds : DataSource.t)
  : list (TiKVSingleGather.t * LogicalPlan * Schema) :=
  [(TiKVSingleGather.mk ds false "", PTableScan (LogicalTableScan.mk ds None []), [])].

Definition collab : Collab :=
  mkCollab HasAssignSetVarFunc HasGetSetVarFunc ColumnSubstitute ExtractColumns
    (fun conds => conds) PropagateConstant RemoveDupExprs ExprEqual ExpressionsToPB
    HashCode DetachCondsForColumn DetachCondAndBuildRangeForIndex
    Conds2TableDual ExtractOnCondition ExprsHasSideEffects
    ResolveExprAndReplace ReplaceColumnOfExpr GetGroupByCols CheckAggCanPushCop
    BuildFinalModeAggregation RemoveUnnecessaryFirstRow Convert2Gathers.

End Ref.

(** ** Concrete memos *)

Module Examples.

Definition colA : Column := mkColumn 1.
Definition colB : Column := mkColumn 2.
Definition colX : Column := mkColumn 11.
Definition colY : Column := mkColumn 12.
Definition T : DataSource.t := DataSource.mk "T".
Definition S : DataSource.t := DataSource.mk "S".

(** [Limit(offset=5, count=10) -> Sort(by=[colA asc]) -> Scan(T)]. *)
Definition limitSortMemo : Memo :=
  mkMemo
    [ PTableScan (LogicalTableScan.mk T None []);
      PSort (LogicalSort.mk [ByItems.mk (EColumn colA) false]);
      PLimit (LogicalLimit.mk 5 10) ]
    [ GroupExpr.mk 0 [] (Some 0);
      GroupExpr.mk 1 [0] (Some 1);
      GroupExpr.mk 2 [1] (Some 2) ]
    [ Group.mk [0] [colA] EngineTiDB;
      Group.mk [1] [colA] EngineTiDB;
      Group.mk [2] [colA] EngineTiDB ].

Definition limitSortIter : ExprIter :=
  mkExprIter 2 (Some 2) [mkExprIter 1 (Some 1) []].

(** [Aggregation(count(a), group by b) -> TiKVSingleGather -> Scan(T)]. *)
Definition aggGatherMemo : Memo :=
  mkMemo
    [ PTableScan (LogicalTableScan.mk T None []);
      PTiKVSingleGather (TiKVSingleGather.mk T false "");
      PAggregation (LogicalAggregation.mk
        [AggFuncDesc.mk "count" [EColumn colA] CompleteMode 0] [EColumn colB]) ]
    [ GroupExpr.mk 0 [] (Some 0);
      GroupExpr.mk 1 [0] (Some 1);
      GroupExpr.mk 2 [1] (Some 2) ]
    [ Group.mk [0] [colA; colB] EngineTiKV;
      Group.mk [1] [colA; colB] EngineTiDB;
      Group.mk [2] [colX] EngineTiDB ].

Definition aggGatherIter : ExprIter :=
  mkExprIter 2 (Some 2) [mkExprIter 1 (Some 1) []].

(** [Projection(x + 1) -> Projection(x := setvar("v", a)) -> Scan(T)]. *)
Definition projProjMemo : Memo :=
  mkMemo
    [ PTableScan (LogicalTableScan.mk T None []);
      PProjection (LogicalProjection.mk
        [EScalarFunction "setvar" [EConstant (DInt 7); EColumn colA]] [colX]);
      PProjection (LogicalProjection.mk
        [EScalarFunction "plus" [EColumn colX; EConstant (DInt 1)]] [colY]) ]
    [ GroupExpr.mk 0 [] (Some 0);
      GroupExpr.mk 1 [0] (Some 1);
      GroupExpr.mk 2 [1] (Some 2) ]
    [ Group.mk [0] [colA; colB] EngineTiDB;
      Group.mk [1] [colX] EngineTiDB;
      Group.mk [2] [colY] EngineTiDB ].

Definition projProjIter : ExprIter :=
  mkExprIter 2 (Some 2) [mkExprIter 1 (Some 1) []].

Definition eqAX : ScalarFunction :=
  mkScalarFunction "eq" [EColumn colA; EColumn colX].

(** [Selection(1 = 0) -> InnerJoin(a = x)(Scan(T), Scan(S))]. *)
Definition innerJoinMemo : Memo :=
  mkMemo
    [ PTableScan (LogicalTableScan.mk T None []);
      PTableScan (LogicalTableScan.mk S None []);
      PJoin (LogicalJoin.mk InnerJoin [] [] [eqAX] [] [] []);
      PSelection (LogicalSelection.mk
        [EScalarFunction "eq" [EConstant (DInt 1); EConstant (DInt 0)]]) ]
    [ GroupExpr.mk 0 [] (Some 0);
      GroupExpr.mk 1 [] (Some 1);
      GroupExpr.mk 2 [0; 1] (Some 2);
      GroupExpr.mk 3 [2] (Some 3) ]
    [ Group.mk [0] [colA; colB] EngineTiDB;
      Group.mk [1] [colX; colY] EngineTiDB;
      Group.mk [2] [colA; colB; colX; colY] EngineTiDB;
      Group.mk [3] [colA; colB; colX; colY] EngineTiDB ].

(** [Selection(b > 5) -> LeftOuterJoin(a = x)(Scan(T), Scan(S))]. *)
Definition outerJoinMemo : Memo :=
  mkMemo
    [ PTableScan (LogicalTableScan.mk T None []);
      PTableScan (LogicalTableScan.mk S None []);
      PJoin (LogicalJoin.mk LeftOuterJoin [] [] [eqAX] [] [] []);
      PSelection (LogicalSelection.mk
        [EScalarFunction "gt" [EColumn colB; EConstant (DInt 5)]]) ]
    [ GroupExpr.mk 0 [] (Some 0);
      GroupExpr.mk 1 [] (Some 1);
      GroupExpr.mk 2 [0; 1] (Some 2);
      GroupExpr.mk 3 [2] (Some 3) ]
    [ Group.mk [0] [colA; colB] EngineTiDB;
      Group.mk [1] [colX; colY] EngineTiDB;
      Group.mk [2] [colA; colB; colX; colY] EngineTiDB;
      Group.mk [3] [colA; colB; colX; colY] EngineTiDB ].

Definition selJoinIter : ExprIter :=
  mkExprIter 3 (Some 3) [mkExprIter 2 (Some 2) []].

Definition eqA1 : Expression :=
  EScalarFunction "eq" [EColumn colA; EConstant (DInt 1)].
Definition gtB2 : Expression :=
  EScalarFunction "gt" [EColumn colB; EConstant (DInt 2)].

(** [Selection(a = 1, b > 2) -> IndexScan(T, index on a)]. *)
Definition selIndexScanMemo : Memo :=
  mkMemo
    [ PIndexScan (LogicalIndexScan.mk T false 0 [] [] "idx_a" ["a"]
                    [colA] [(-1)%Z] [colA] [(-1)%Z]);
      PSelection (LogicalSelection.mk [eqA1; gtB2]) ]
    [ GroupExpr.mk 0 [] (Some 0);
      GroupExpr.mk 1 [0] (Some 1) ]
    [ Group.mk [0] [colA; colB] EngineTiKV;
      Group.mk [1] [colA; colB] EngineTiKV ].

Definition selIndexScanIter : ExprIter :=
  mkExprIter 1 (Some 1) [mkExprIter 0 (Some 0) []].

Definition gtB0 : Expression :=
  EScalarFunction "gt" [EColumn colB; EConstant (DInt 0)].
Definition gtB5 : Expression :=
  EScalarFunction "gt" [EColumn colB; EConstant (DInt 5)].

(** [Selection(b > 5) -> InnerJoin(a = x, left: b > 0)(Scan(T), Scan(S))]. *)
Definition innerFilterJoinMemo : Memo :=
  mkMemo
    [ PTableScan (LogicalTableScan.mk T None []);
      PTableScan (LogicalTableScan.mk S None []);
      PJoin (LogicalJoin.mk InnerJoin [gtB0] [] [eqAX] [] [] []);
      PSelection (LogicalSelection.mk [gtB5]) ]
    [ GroupExpr.mk 0 [] (Some 0);
      GroupExpr.mk 1 [] (Some 1);
      GroupExpr.mk 2 [0; 1] (Some 2);
      GroupExpr.mk 3 [2] (Some 3) ]
    [ Group.mk [0] [colA; colB] EngineTiDB;
      Group.mk [1] [colX; colY] EngineTiDB;
      Group.mk [2] [colA; colB; colX; colY] EngineTiDB;
      Group.mk [3] [colA; colB; colX; colY] EngineTiDB ].

(** [TopN(by b desc, a asc; offset 0, count 3) ->
     Projection(a := 1, b := x) -> Scan(S)]. *)
Definition topNProjMemo : Memo :=
  mkMemo
    [ PTableScan (LogicalTableScan.mk S None []);
      PProjection (LogicalProjection.mk
        [EConstant (DInt 1); EColumn colX] [colA; colB]);
      PTopN (LogicalTopN.mk
        [ByItems.mk (EColumn colB) true; ByItems.mk (EColumn colA) false] 0 3) ]
    [ GroupExpr.mk 0 [] (Some 0);
      GroupExpr.mk 1 [0] (Some 1);
      GroupExpr.mk 2 [1] (Some 2) ]
    [ Group.mk [0] [colX; colY] EngineTiDB;
      Group.mk [1] [colA; colB] EngineTiDB;
      Group.mk [2] [colA; colB] EngineTiDB ].

Definition topNProjIter : ExprIter :=
  mkExprIter 2 (Some 2) [mkExprIter 1 (Some 1) []].

End Examples.

(** ** Outcomes *)

(** A computation that never returns an error: it returns or panics. *)
Definition neverErr {A} (c : M A) : Prop :=
  forall m e m', c m <> (Err e, m').

(** A computation that leaves the memo as it was, whatever it returns. *)
Definition readOnly {A} (c : M A) : Prop :=
  forall m o m', c m = (o, m') -> m' = m.

(** A rule body that, when it returns, returns a new expression. *)
Definition rewrites (c : M Result) : Prop :=
  forall m res m', c m = (Ok res, m') -> newExprs res <> [].

(** A rule body that, when it returns no new expression, has left the
    memo as it was. *)
Definition declines (c : M Result) : Prop :=
  forall m res m', c m = (Ok res, m') -> newExprs res = [] -> m' = m.

(** ** What a rule hands back *)

(** A GroupExpr that a rule hands back for insertion: a cell that was
    not in the memo [m] before the rule ran, owned by no Group yet, whose
    payload is in the memo [m'] and whose children are Groups of [m'],
    as many as its operand takes. *)
Definition freshRoot (m m' : Memo) (e : ptr) : Prop :=
  length (exprs m) <= e /\
  exists ge node,
    exprs m' !! e = Some ge /\
    GroupExpr.Group ge = None /\
    plans m' !! GroupExpr.ExprNode ge = Some node /\
    length (GroupExpr.Children ge) = arity (GetOperand node) /\
    Forall (fun g => is_Some (groups m' !! g)) (GroupExpr.Children ge).

(** ** The loop of PushTopNDownProjection in closed form *)

(** A sort item that is not a constant. *)
Definition notConstant (item : ByItems.t) : Prop :=
  isConstant (ByItems.Expr item) = false.

Global Instance notConstant_dec item : Decision (notConstant item).
Proof. unfold notConstant. apply _. Defined.

(** The items that are not constants, in order, followed by the last
    item of the array, once for each constant. *)
Definition withoutConstants (arr : list ByItems.t) : list ByItems.t :=
  let keep := filter notConstant arr in
  keep ++ match last arr with
          | Some d => replicate (length arr - length keep) d
          | None => []
          end.

(** ** The predicates of a replacement *)

(** The predicates held by the part of a plan that a rule has built: those
    of the GroupExpr [e] and of the members of its child Groups, down to
    the given depth, as far as these GroupExprs are new cells of [m'],
    not cells of [m]. A payload that a new GroupExpr shares with an old
    one counts. *)
Fixpoint newPredicates (depth : nat) (m m' : Memo) (e : ptr) : list Expression :=
  match depth with
  | 0 => []
  | S depth' =>
    if decide (e < length (exprs m)) then []
    else
      match exprs m' !! e with
      | None => []
      | Some ge =>
        from_option condsOfPlan [] (plans m' !! GroupExpr.ExprNode ge) ++
        flat_map
          (fun g => match groups m' !! g with
                    | None => []
                    | Some gr => flat_map (newPredicates depth' m m') (Group.Equivalents gr)
                    end)
          (GroupExpr.Children ge)
      end
  end.

(** The range layer and the storage-tier classifier split the conditions
    they are given: every condition comes back once, as an access (or
    pushed) condition or as a remaining one. *)
Definition splitsConditions (X : Collab) : Prop :=
  (forall conds handle acc rem,
     DetachCondsForColumn X conds handle = (Some acc, rem) -> acc ++ rem ≡ₚ conds) /\
  (forall conds cols lens res,
     DetachCondAndBuildRangeForIndex X conds cols lens = inr res ->
     DetachRangeResult.AccessConds res ++ DetachRangeResult.RemainedConds res ≡ₚ conds) /\
  (forall conds pushed rem,
     ExpressionsToPB X conds = (pushed, rem) -> pushed ++ rem ≡ₚ conds).

(** ** Join keys *)

(** The columns that the loop over the equal conditions appends to the
    left and to the right join keys. *)
Definition leftKeys (eqConds : list ScalarFunction) : list Column :=
  omap (fun f => GetArgs f !! 0 ≫= asColumn) eqConds.

Definition rightKeys (eqConds : list ScalarFunction) : list Column :=
  omap (fun f => GetArgs f !! 1 ≫= asColumn) eqConds.

(** A join with more join keys. *)
Definition withKeys (join : LogicalJoin.t) (lk rk : list Column) : LogicalJoin.t :=
  LogicalJoin.mk (LogicalJoin.JoinType join)
    (LogicalJoin.LeftConditions join) (LogicalJoin.RightConditions join)
    (LogicalJoin.EqualConditions join) (LogicalJoin.OtherConditions join)
    (LogicalJoin.LeftJoinKeys join ++ lk) (LogicalJoin.RightJoinKeys join ++ rk).

(** ** Access paths in the memo *)

(** The GroupExpr [e] of the memo is the gather of an access path: its
    payload is the gather of the path and its only child is a Group on
    the storage tier with the schema of the path. *)
Definition gatherOfPath (m : Memo) (e : ptr)
    (path : TiKVSingleGather.t * LogicalPlan * Schema) : Prop :=
  exists ge g gr,
    exprs m !! e = Some ge /\
    plans m !! GroupExpr.ExprNode ge = Some (PTiKVSingleGather path.1.1) /\
    GroupExpr.Children ge = [g] /\
    groups m !! g = Some gr /\
    Group.EngineType gr = EngineTiKV /\
    Group.Schema gr = path.2.

(** ** More concrete memos *)

Module MoreExamples.

(** [Selection(b > 5) -> Sort(by a asc) -> Scan(T)]. *)
Definition selSortMemo : Memo :=
  mkMemo
    [ PTableScan (LogicalTableScan.mk Examples.T None []);
      PSort (LogicalSort.mk [ByItems.mk (EColumn Examples.colA) false]);
      PSelection (LogicalSelection.mk [Examples.gtB5]) ]
    [ GroupExpr.mk 0 [] (Some 0);
      GroupExpr.mk 1 [0] (Some 1);
      GroupExpr.mk 2 [1] (Some 2) ]
    [ Group.mk [0] [Examples.colA; Examples.colB] EngineTiDB;
      Group.mk [1] [Examples.colA; Examples.colB] EngineTiDB;
      Group.mk [2] [Examples.colA; Examples.colB] EngineTiDB ].

Definition selSortIter : ExprIter :=
  mkExprIter 2 (Some 2) [mkExprIter 1 (Some 1) []].

Definition getvarEqA : Expression :=
  EScalarFunction "eq" [EScalarFunction "getvar" [EConstant (DInt 7)];
                        EColumn Examples.colA].

(** [Selection(b > 5, getvar(7) = a) -> Projection(a := x, b := y) -> Scan(S)]. *)
Definition selProjMemo : Memo :=
  mkMemo
    [ PTableScan (LogicalTableScan.mk Examples.S None []);
      PProjection (LogicalProjection.mk
        [EColumn Examples.colX; EColumn Examples.colY] [Examples.colA; Examples.colB]);
      PSelection (LogicalSelection.mk [Examples.gtB5; getvarEqA]) ]
    [ GroupExpr.mk 0 [] (Some 0);
      GroupExpr.mk 1 [0] (Some 1);
      GroupExpr.mk 2 [1] (Some 2) ]
    [ Group.mk [0] [Examples.colX; Examples.colY] EngineTiDB;
      Group.mk [1] [Examples.colA; Examples.colB] EngineTiDB;
      Group.mk [2] [Examples.colA; Examples.colB] EngineTiDB ].

Definition selProjIter : ExprIter :=
  mkExprIter 2 (Some 2) [mkExprIter 1 (Some 1) []].

(** [Projection(a, b) -> Scan(T)], a projection that changes nothing. *)
Definition elimProjMemo : Memo :=
  mkMemo
    [ PTableScan (LogicalTableScan.mk Examples.T None []);
      PProjection (LogicalProjection.mk
        [EColumn Examples.colA; EColumn Examples.colB] [Examples.colA; Examples.colB]) ]
    [ GroupExpr.mk 0 [] (Some 0);
      GroupExpr.mk 1 [0] (Some 1) ]
    [ Group.mk [0] [Examples.colA; Examples.colB] EngineTiDB;
      Group.mk [1] [Examples.colA; Examples.colB] EngineTiDB ].

Definition elimProjIter : ExprIter :=
  mkExprIter 1 (Some 1) [mkExprIter 0 None []].

(** [Aggregation(count(a)) -> Projection(a := x) -> Scan(S)]. *)
Definition aggProjMemo : Memo :=
  mkMemo
    [ PTableScan (LogicalTableScan.mk Examples.S None []);
      PProjection (LogicalProjection.mk [EColumn Examples.colX] [Examples.colA]);
      PAggregation (LogicalAggregation.mk
        [AggFuncDesc.mk "count" [EColumn Examples.colA] CompleteMode 0] []) ]
    [ GroupExpr.mk 0 [] (Some 0);
      GroupExpr.mk 1 [0] (Some 1);
      GroupExpr.mk 2 [1] (Some 2) ]
    [ Group.mk [0] [Examples.colX; Examples.colY] EngineTiDB;
      Group.mk [1] [Examples.colA] EngineTiDB;
      Group.mk [2] [Examples.colB] EngineTiDB ].

Definition aggProjIter : ExprIter :=
  mkExprIter 2 (Some 2) [mkExprIter 1 (Some 1) []].

(** [DataSource(T)]. *)
Definition dataSourceMemo : Memo :=
  mkMemo
    [ PDataSource Examples.T ]
    [ GroupExpr.mk 0 [] (Some 0) ]
    [ Group.mk [0] [Examples.colA; Examples.colB] EngineTiDB ].

Definition dataSourceIter : ExprIter :=
  mkExprIter 0 (Some 0) [].

End MoreExamples.

(** ** Memos that keep their bindings *)

(** [m'] has the GroupExprs and the Groups of [m], unchanged, and at
    every payload of [m] a payload of the same operand. *)
Definition keepsOperands (m m' : Memo) : Prop :=
  exprs m `prefix_of` exprs m' /\
  groups m `prefix_of` groups m' /\
  forall (i : ptr) node,
    plans m !! i = Some node ->
    exists node', plans m' !! i = Some node' /\ GetOperand node' = GetOperand node.
(** * Properties *)

Ltac boolify :=
  repeat match goal with
  | H : _ && _ = true |- _ => apply andb_prop in H as [? ?]
  | H : bool_decide _ = true |- _ => apply bool_decide_eq_true_1 in H
  | H : negb _ = true |- _ => apply negb_true_iff in H
  end.

(** ** Inversion of bindings *)

Lemma Matched_node m p it :
  patOperand p ≠ OperandAny ->
  Matched m p it = true ->
  exists e ge node gr, BoundNode m (patOperand p) it e ge node gr.
Proof.
  intros Hany H. destruct p as [o en ps]; simpl in *.
  destruct (groups m !! itGroup it) as [gr|] eqn:Hg; [|done].
  apply andb_prop in H as [_ H].
  destruct (decide (o = OperandAny)); [done|].
  destruct (itElement it) as [e|] eqn:He; [|done].
  destruct (exprs m !! e) as [ge|] eqn:Hge; [|done].
  destruct (plans m !! GroupExpr.ExprNode ge) as [node|] eqn:Hn; [|done].
  boolify.
  exists e, ge, node, gr. split; try done.
  apply Forall_forall. intros g Hin.
  match goal with Hf : forallb _ _ = true |- _ =>
    rewrite forallb_forall in Hf; apply list_elem_of_In, Hf in Hin end.
  by boolify.
Qed.

(** A binding of [o1 -> p2] for a unary [o1]: the root binds a member
    with one child Group, and the child binding is a binding of [p2] in
    that Group. *)
Lemma Matched_unary m o1 e1 p2 it :
  o1 ≠ OperandAny -> arity o1 = 1 ->
  Matched m (BuildPattern o1 e1 [p2]) it = true ->
  exists e ge node gr c0,
    BoundNode m o1 it e ge node gr /\
    itChildren it = [c0] /\
    GroupExpr.Children ge = [itGroup c0] /\
    Matched m p2 c0 = true.
Proof.
  intros Hany Har H.
  destruct (Matched_node m (BuildPattern o1 e1 [p2]) it Hany H) as (e & ge & node & gr & HB).
  exists e, ge, node, gr.
  simpl in H. pose proof HB as [Hg He Hge Hm Ho Hn Hop Ha Hc]. simpl in *.
  rewrite Hg, He, Hge, Hn in H.
  destruct (decide (o1 = OperandAny)); [done|].
  destruct (itChildren it) as [|c0 [|]] eqn:Hits;
    destruct (GroupExpr.Children ge) as [|g0 [|]] eqn:Hgs;
    simpl in H; boolify; try done.
  exists c0. by subst g0.
Qed.

(** ** Running the primitives *)

Lemma insert_snoc {A} (l : list A) (x y : A) :
  <[length l := y]> (l ++ [x]) = l ++ [y].
Proof. rewrite insert_app_r_alt by lia. by rewrite Nat.sub_diag. Qed.

Lemma lookup_snoc {A} (l : list A) (x : A) : (l ++ [x]) !! length l = Some x.
Proof. by apply list_lookup_middle. Qed.

Lemma BoundNode_boundNode m o it e ge node gr :
  BoundNode m o it e ge node gr ->
  boundExpr m it = Some ge /\ boundNode m it = Some node.
Proof.
  intros [Hg He Hge Hm Ho Hn Hop Ha Hc]. unfold boundNode, boundExpr.
  rewrite He. simpl. rewrite Hge. simpl. by rewrite Hn.
Qed.

Lemma GetOperand_Limit node :
  GetOperand node = OperandLimit -> exists p, node = PLimit p.
Proof. destruct node; try done. eauto. Qed.

Lemma GetOperand_Sort node :
  GetOperand node = OperandSort -> exists p, node = PSort p.
Proof. destruct node; try done. eauto. Qed.

(** ** TransformLimitToTopN *)

(** C8. For every binding [Limit -> Sort -> X] the rule's [Match] accepts
    and [OnTransform] returns, without error, exactly one new GroupExpr
    with [eraseOld = true] and [eraseAll = false]: a new TopN whose offset
    and count are the limit's, whose sort keys are the sort's by-items, and
    whose single child is X's Group. Nothing else in the memo changes. *)
Theorem TransformLimitToTopN_always_rewrites (m : Memo) (old : ExprIter) :
  Matched m TransformLimitToTopN_Pattern old = true ->
  exists limit c0 sortExpr sort x,
    boundNode m old = Some (PLimit limit) /\
    itChildren old = [c0] /\
    boundExpr m c0 = Some sortExpr /\
    boundNode m c0 = Some (PSort sort) /\
    GroupExpr.Children sortExpr = [x] /\
    Match NewRuleTransformLimitToTopN old m = (Ok true, m) /\
    OnTransform NewRuleTransformLimitToTopN old m =
      (Ok (mkResult [length (exprs m)] true false),
       mkMemo
         (plans m ++ [PTopN (LogicalTopN.mk (LogicalSort.ByItems sort)
                               (LogicalLimit.Offset limit) (LogicalLimit.Count limit))])
         (exprs m ++ [GroupExpr.mk (length (plans m)) [x] None])
         (groups m)).
Proof.
  intros H.
  apply Matched_unary in H as (e & ge & node & gr & c0 & HB & Hits & Hgs & Hc); [|done..].
  apply Matched_node in Hc as (e0 & ge0 & node0 & gr0 & HB0); [|done].
  simpl in HB0.
  destruct (GetOperand_Limit node (bn_operand _ _ _ _ _ _ _ HB)) as [limit ->].
  destruct (GetOperand_Sort node0 (bn_operand _ _ _ _ _ _ _ HB0)) as [sort ->].
  pose proof (bn_arity _ _ _ _ _ _ _ HB0) as Har. simpl in Har.
  destruct (GroupExpr.Children ge0) as [|x [|]] eqn:Hx; try done.
  exists limit, c0, ge0, sort, x.
  destruct (BoundNode_boundNode _ _ _ _ _ _ _ HB) as [? ?].
  destruct (BoundNode_boundNode _ _ _ _ _ _ _ HB0) as [? ?].
  repeat split; try done.
  destruct HB as [Hg He Hge Hm Ho Hn Hop Ha Hcs].
  destruct HB0 as [Hg0 He0 Hge0 Hm0 Ho0 Hn0 Hop0 Ha0 Hcs0].
  simpl. unfold TransformLimitToTopN_OnTransform, nodeOf, exprOf, GetExpr, child,
    childGroupOf, readExpr, readPlan, bind, unwrap, SetChildren.
  rewrite He. simpl. rewrite Hge. simpl. rewrite Hn. simpl.
  rewrite Hits. simpl. rewrite He0. simpl. rewrite Hge0. simpl. rewrite Hn0. simpl.
  rewrite Hx. simpl. unfold readExpr, writeExpr, bind, unwrap. simpl.
  rewrite lookup_snoc. simpl. by rewrite insert_snoc.
Qed.

Lemma lookup_app_plus {A} (l k : list A) i : (l ++ k) !! (length l + i) = k !! i.
Proof. rewrite lookup_app_r by lia. f_equal. lia. Qed.

Lemma lookup_app_plus0 {A} (l k : list A) : (l ++ k) !! (length l) = k !! 0.
Proof. rewrite lookup_app_r by lia. by rewrite Nat.sub_diag. Qed.

Lemma insert_app_plus {A} (l k : list A) i x :
  <[length l + i := x]> (l ++ k) = l ++ <[i := x]> k.
Proof. rewrite insert_app_r_alt by lia. do 2 f_equal. lia. Qed.

Lemma insert_app_plus0 {A} (l k : list A) x :
  <[length l := x]> (l ++ k) = l ++ <[0 := x]> k.
Proof. rewrite insert_app_r_alt by lia. by rewrite Nat.sub_diag. Qed.

Lemma length_app_plus {A} (l k : list A) : length (l ++ k) = length l + length k.
Proof. apply length_app. Qed.

(** Unfold the primitives of the monad and of the memo. *)
Ltac unfold_prims :=
  unfold nodeOf, exprOf, GetExpr, child, childGroupOf, groupSchemaOf,
    SetChildren, appendChild, NewGroupWithSchema, SetEngineType, NewGroupExpr,
    readExpr, readPlan, readGroup, writeExpr, writePlan, writeGroup, Init,
    asSelection, asProjection, asAggregation, asJoin, asSort, asLimit, asTopN,
    asDataSource, asTableScan, asIndexScan, asTiKVSingleGather,
    bind, unwrap, ret, panic, fail in *.

(** Bring the arenas of the memo to the form [old ++ new cells] and
    resolve the reads and writes that hit the new cells. *)
Ltac norm_memo :=
  repeat first
    [ rewrite <- app_assoc
    | rewrite length_app_plus
    | rewrite lookup_app_plus
    | rewrite lookup_app_plus0
    | rewrite insert_app_plus
    | rewrite insert_app_plus0
    | progress simpl ].

(** Resolve the reads of old cells with the facts at hand. *)
Ltac use_lookups :=
  repeat match goal with
  | H : ?l !! ?i = Some _ |- context [?l !! ?i] => rewrite H
  | H : ?l !! ?i = Some _ |- context [(?l ++ _) !! ?i] =>
    rewrite (lookup_app_l_Some l _ i _ H)
  | H : ?l !! ?j = Some _ |- context [<[?j := ?v]> ?l !! ?j] =>
    rewrite (list_lookup_insert_eq l j v (lookup_lt_Some l j _ H))
  | H : ?x = Some _ |- context [match ?x with _ => _ end] => rewrite H
  | H : ?x = _ :: _ |- context [?x !! _] => rewrite H
  | H : ?x = [_] |- context [?x] => rewrite H
  end.

Ltac run := repeat (unfold_prims; use_lookups; norm_memo).

(** A read of a new cell, or a fact that holds by computation. *)
Ltac new_cell :=
  simpl; rewrite ?lookup_app_plus0, ?lookup_app_plus; simpl; reflexivity.

(** C8, at [Limit(offset=5, count=10) -> Sort(by=[colA asc]) -> Scan(T)]. *)
Lemma TransformLimitToTopN_always_rewrites_witness :
  Matched Examples.limitSortMemo TransformLimitToTopN_Pattern Examples.limitSortIter = true /\
  exists limit c0 sortExpr sort x,
    boundNode Examples.limitSortMemo Examples.limitSortIter = Some (PLimit limit) /\
    itChildren Examples.limitSortIter = [c0] /\
    boundExpr Examples.limitSortMemo c0 = Some sortExpr /\
    boundNode Examples.limitSortMemo c0 = Some (PSort sort) /\
    GroupExpr.Children sortExpr = [x] /\
    Match NewRuleTransformLimitToTopN Examples.limitSortIter Examples.limitSortMemo =
      (Ok true, Examples.limitSortMemo) /\
    OnTransform NewRuleTransformLimitToTopN Examples.limitSortIter Examples.limitSortMemo =
      (Ok (mkResult [length (exprs Examples.limitSortMemo)] true false),
       mkMemo
         (plans Examples.limitSortMemo ++
            [PTopN (LogicalTopN.mk (LogicalSort.ByItems sort)
                      (LogicalLimit.Offset limit) (LogicalLimit.Count limit))])
         (exprs Examples.limitSortMemo ++
            [GroupExpr.mk (length (plans Examples.limitSortMemo)) [x] None])
         (groups Examples.limitSortMemo)).
Proof.
  split; [vm_compute; reflexivity|].
  apply (TransformLimitToTopN_always_rewrites Examples.limitSortMemo Examples.limitSortIter).
  vm_compute; reflexivity.
Defined.

(** The example of the specification, run: the result is
    [TopN(offset=5, count=10, by=[colA asc]) -> Scan(T)], superseding the
    limit. *)
Example TransformLimitToTopN_example :
  OnTransform NewRuleTransformLimitToTopN Examples.limitSortIter Examples.limitSortMemo =
    (Ok (mkResult [3] true false),
     mkMemo
       (plans Examples.limitSortMemo ++
          [PTopN (LogicalTopN.mk [ByItems.mk (EColumn Examples.colA) false] 5 10)])
       (exprs Examples.limitSortMemo ++ [GroupExpr.mk 3 [0] None])
       (groups Examples.limitSortMemo)).
Proof. reflexivity. Qed.

Lemma GetOperand_Aggregation node :
  GetOperand node = OperandAggregation -> exists p, node = PAggregation p.
Proof. destruct node; try done. eauto. Qed.

Lemma GetOperand_TiKVSingleGather node :
  GetOperand node = OperandTiKVSingleGather -> exists p, node = PTiKVSingleGather p.
Proof. destruct node; try done. eauto. Qed.

Lemma extends_app m ps es gs :
  extends m (mkMemo (plans m ++ ps) (exprs m ++ es) (groups m ++ gs)).
Proof. repeat split; by eexists. Qed.

(** ** PushAggDownGather *)

(** C7. On a binding [Aggregation -> TiKVSingleGather], [Match] accepts
    if and only if every aggregate function of the aggregation is in
    complete mode and [CheckAggCanPushCop] passes on its aggregate
    functions and group-by items. [OnTransform] returns one candidate,
    the final aggregation built by [BuildFinalModeAggregation], with
    [eraseOld = false] and [eraseAll = false]; every cell of the memo is
    as it was, so the matched aggregation is still what it was and still
    a member of its Group. *)
Theorem PushAggDownGather_contract (X : Collab) (m : Memo) (old : ExprIter) :
  Matched m PushAggDownGather_Pattern old = true ->
  exists e agg gr,
    itElement old = Some e /\
    boundNode m old = Some (PAggregation agg) /\
    groups m !! itGroup old = Some gr /\
    (exists b,
       Match (NewRulePushAggDownGather X) old m = (Ok b, m) /\
       (b = true <->
        Forall (fun f => AggFuncDesc.Mode f = CompleteMode) (LogicalAggregation.AggFuncs agg) /\
        CheckAggCanPushCop X (LogicalAggregation.AggFuncs agg)
          (LogicalAggregation.GroupByItems agg) = true)) /\
    exists final finalExpr m',
      OnTransform (NewRulePushAggDownGather X) old m =
        (Ok (mkResult [final] false false), m') /\
      exprs m' !! final = Some finalExpr /\
      plans m' !! GroupExpr.ExprNode finalExpr =
        Some (PAggregation
                (LogicalAggregation.mk
                   (BuildFinalModeAggregation X
                      (map toPartial1 (LogicalAggregation.AggFuncs agg))
                      (LogicalAggregation.GroupByItems agg) (Group.Schema gr)).1.1
                   (BuildFinalModeAggregation X
                      (map toPartial1 (LogicalAggregation.AggFuncs agg))
                      (LogicalAggregation.GroupByItems agg) (Group.Schema gr)).1.2)) /\
      extends m m' /\
      boundNode m' old = Some (PAggregation agg) /\
      groups m' !! itGroup old = Some gr /\
      e ∈ Group.Equivalents gr.
Proof.
  intros H.
  apply Matched_unary in H as (e & ge & node & gr & c0 & HB & Hits & Hgs & Hc); [|done..].
  apply Matched_node in Hc as (e0 & ge0 & node0 & gr0 & HB0); [|done].
  simpl in HB0.
  destruct (GetOperand_Aggregation node (bn_operand _ _ _ _ _ _ _ HB)) as [agg ->].
  destruct (GetOperand_TiKVSingleGather node0 (bn_operand _ _ _ _ _ _ _ HB0)) as [tg ->].
  pose proof (bn_arity _ _ _ _ _ _ _ HB0) as Har. simpl in Har.
  destruct (GroupExpr.Children ge0) as [|x [|]] eqn:Hx; try done.
  pose proof (bn_children _ _ _ _ _ _ _ HB0) as Hch. rewrite Hx in Hch.
  apply Forall_singleton in Hch as [cg Hcg].
  destruct (BoundNode_boundNode _ _ _ _ _ _ _ HB) as [HbE HbN].
  destruct HB as [Hg He Hge Hm Ho Hn Hop Ha Hcs].
  destruct HB0 as [Hg0 He0 Hge0 Hm0 Ho0 Hn0 Hop0 Ha0 Hcs0].
  exists e, agg, gr. split; [done|]. split; [done|]. split; [done|]. split.
  - simpl. unfold PushAggDownGather_Match. run.
    destruct (forallb _ _) eqn:Hall.
    + eexists; split; [reflexivity|].
      rewrite forallb_forall in Hall. split.
      * intros Hc. split; [|done]. apply Forall_forall. intros f Hf.
        apply list_elem_of_In, Hall in Hf. by boolify.
      * by intros [_ ?].
    + exists false. split; [done|]. split; [done|]. intros [Hf _].
      assert (forallb (fun aggFunc => bool_decide (AggFuncDesc.Mode aggFunc = CompleteMode))
                (LogicalAggregation.AggFuncs agg) = true) as Hc; [|congruence].
      apply forallb_forall. intros f Hin. apply bool_decide_eq_true_2.
      rewrite Forall_forall in Hf. by apply Hf, list_elem_of_In.
  - simpl. unfold PushAggDownGather_OnTransform. run.
    destruct (BuildFinalModeAggregation X _ _ _)
      as [[finalAggFuncs finalGbyItems] partialSchema] eqn:Hfin.
    run. do 3 eexists. split; [reflexivity|]. simpl.
    split; [by rewrite lookup_app_plus|]. simpl.
    split; [by rewrite lookup_app_plus|].
    split; [apply extends_app|].
    split.
    + unfold boundNode, boundExpr. rewrite He. simpl.
      rewrite (lookup_app_l_Some _ _ _ _ Hge). simpl.
      by rewrite (lookup_app_l_Some _ _ _ _ Hn).
    + split; [|done]. by rewrite (lookup_app_l_Some _ _ _ _ Hg).
Qed.

(** C7, at [Aggregation(count(a), group by b) -> TiKVSingleGather -> Scan(T)]. *)
Lemma PushAggDownGather_contract_witness :
  Matched Examples.aggGatherMemo PushAggDownGather_Pattern Examples.aggGatherIter = true /\
  exists final m',
    OnTransform (NewRulePushAggDownGather Ref.collab) Examples.aggGatherIter
      Examples.aggGatherMemo = (Ok (mkResult [final] false false), m') /\
    extends Examples.aggGatherMemo m'.
Proof.
  assert (Matched Examples.aggGatherMemo PushAggDownGather_Pattern
            Examples.aggGatherIter = true) as H by (vm_compute; reflexivity).
  split; [exact H|].
  destruct (PushAggDownGather_contract Ref.collab _ _ H)
    as (e & agg & gr & _ & _ & _ & _ & final & fe & m' & Hrun & _ & _ & Hext & _).
  exists final, m'. by split.
Defined.

(** ** Induction on expressions *)

Lemma Expression_ind' (P : Expression -> Prop) :
  (forall c, P (EColumn c)) ->
  (forall d, P (EConstant d)) ->
  (forall n args, Forall P args -> P (EScalarFunction n args)) ->
  forall e, P e.
Proof.
  intros Hc Hd Hf. fix IH 1. intros [c|d|n args]; [apply Hc|apply Hd|].
  apply Hf. induction args as [|a args IHargs]; constructor; [apply IH|apply IHargs].
Qed.

Lemma hasFunc_mono (names names' : list string) e :
  names ⊆ names' -> Ref.hasFunc names e = true -> Ref.hasFunc names' e = true.
Proof.
  intros Hsub. induction e as [c|d|n args IH] using Expression_ind'; simpl; try done.
  intros H. apply orb_true_iff in H as [H'|H']; apply orb_true_iff.
  - left. boolify. apply bool_decide_eq_true_2. by apply Hsub.
  - right. apply existsb_exists in H' as (a & Hin & Ha). apply existsb_exists.
    exists a. split; [done|]. rewrite Forall_forall in IH.
    by apply IH; [apply list_elem_of_In|].
Qed.

(** The reference collaborators count an assignment to a session
    variable among the side effects. *)
Lemma Ref_assign_is_side_effect (es : list Expression) :
  existsb (HasAssignSetVarFunc Ref.collab) es = true ->
  ExprsHasSideEffects Ref.collab es = true.
Proof.
  simpl. unfold Ref.ExprsHasSideEffects, Ref.HasAssignSetVarFunc.
  intros H. apply existsb_exists in H as (a & Hin & Ha). apply existsb_exists.
  exists a. split; [done|]. revert Ha. apply hasFunc_mono.
  intros x Hx. apply list_elem_of_singleton in Hx as ->. constructor.
Qed.

(** ** The side-effect guard *)

(** C5. Take a binding whose child position binds a projection that
    contains a variable-assignment expression, and collaborators for
    which a variable assignment is a side effect. Then none of the three
    rules rewrites: on a binding [Projection -> Projection]
    MergeAdjacentProjection's [OnTransform] returns the empty result with
    both flags false, without error and without touching the memo; the
    [Match] of PushTopNDownProjection and the [Match] of
    MergeAggregationProjection reject the binding. *)
Theorem side_effect_guard (X : Collab) (m : Memo) (old : ExprIter)
    (proj : LogicalProjection.t) :
  (forall es, existsb (HasAssignSetVarFunc X) es = true -> ExprsHasSideEffects X es = true) ->
  childNode m old = Some (PProjection proj) ->
  existsb (HasAssignSetVarFunc X) (LogicalProjection.Exprs proj) = true ->
  (forall top, boundNode m old = Some (PProjection top) ->
     OnTransform (NewRuleMergeAdjacentProjection X) old m = (Ok noRewrite, m)) /\
  Match (NewRulePushTopNDownProjection X) old m = (Ok false, m) /\
  Match (NewRuleMergeAggregationProjection X) old m = (Ok false, m).
Proof.
  intros Hside Hchild Hassign.
  unfold childNode in Hchild.
  destruct (itChildren old !! 0) as [c0|] eqn:Hc0; [|done]. simpl in Hchild.
  unfold boundNode, boundExpr in Hchild.
  destruct (itElement c0) as [e0|] eqn:He0; [|done]. simpl in Hchild.
  destruct (exprs m !! e0) as [ge0|] eqn:Hge0; [|done]. simpl in Hchild.
  destruct (plans m !! GroupExpr.ExprNode ge0) as [node0|] eqn:Hn0; [|done].
  injection Hchild as ->.
  split; [|split].
  - intros top Htop. unfold boundNode, boundExpr in Htop.
    destruct (itElement old) as [e|] eqn:He; [|done]. simpl in Htop.
    destruct (exprs m !! e) as [ge|] eqn:Hge; [|done]. simpl in Htop.
    simpl. unfold MergeAdjacentProjection_OnTransform. run.
    by rewrite (Hside _ Hassign).
  - simpl. unfold PushTopNDownProjection_Match. run. by rewrite Hassign.
  - simpl. unfold MergeAggregationProjection_Match. run.
    by rewrite (Hside _ Hassign).
Qed.

(** C5, at [Projection(x + 1) -> Projection(x := setvar("v", a)) -> Scan(T)]. *)
Lemma side_effect_guard_witness :
  childNode Examples.projProjMemo Examples.projProjIter =
    Some (PProjection (LogicalProjection.mk
            [EScalarFunction "setvar" [EConstant (DInt 7); EColumn Examples.colA]]
            [Examples.colX])) /\
  OnTransform (NewRuleMergeAdjacentProjection Ref.collab) Examples.projProjIter
    Examples.projProjMemo = (Ok noRewrite, Examples.projProjMemo) /\
  Match (NewRulePushTopNDownProjection Ref.collab) Examples.projProjIter
    Examples.projProjMemo = (Ok false, Examples.projProjMemo) /\
  Match (NewRuleMergeAggregationProjection Ref.collab) Examples.projProjIter
    Examples.projProjMemo = (Ok false, Examples.projProjMemo).
Proof.
  split; [reflexivity|].
  destruct (side_effect_guard Ref.collab Examples.projProjMemo Examples.projProjIter _
              Ref_assign_is_side_effect eq_refl eq_refl) as (Hmerge & Htop & Hagg).
  split; [|by split]. by eapply Hmerge.
Defined.

(** ** PushSelDownJoin *)

Lemma boundNode_inv m it node :
  boundNode m it = Some node ->
  exists e ge, itElement it = Some e /\ exprs m !! e = Some ge /\
               plans m !! GroupExpr.ExprNode ge = Some node.
Proof.
  unfold boundNode, boundExpr. intros H.
  destruct (itElement it) as [e|]; [|done]. simpl in H.
  destruct (exprs m !! e) as [ge|] eqn:Hge; [|done]. simpl in H. eauto.
Qed.

(** C2. On a binding [Selection -> Join] whose join is an inner join,
    when the conditions of the join and of the selection, after filter
    extraction and constant propagation, are a constant contradiction
    (and [Conds2TableDual] answers every constant contradiction with a
    table dual), [OnTransform] returns exactly one new GroupExpr, a
    table-dual operator without children, with [eraseOld = false] and
    [eraseAll = true]. *)
Theorem PushSelDownJoin_contradiction (X : Collab) (m : Memo) (old : ExprIter)
    (sel : LogicalSelection.t) (join : LogicalJoin.t) :
  (forall j conds, constContradiction conds = true -> is_Some (Conds2TableDual X j conds)) ->
  Matched m PushSelDownJoin_Pattern old = true ->
  boundNode m old = Some (PSelection sel) ->
  childNode m old = Some (PJoin join) ->
  LogicalJoin.JoinType join = InnerJoin ->
  constContradiction (combinedCond X join sel) = true ->
  exists dual,
    OnTransform (NewRulePushSelDownJoin X) old m =
      (Ok (mkResult [length (exprs m)] false true),
       mkMemo (plans m ++ [PTableDual dual])
         (exprs m ++ [GroupExpr.mk (length (plans m)) [] None])
         (groups m)).
Proof.
  intros Hdual H Hsel Hjoin Hinner Hcontra.
  apply Matched_unary in H as (e & ge & node & gr & c0 & HB & Hits & Hgs & Hc); [|done..].
  apply Matched_node in Hc as (e0 & ge0 & node0 & gr0 & HB0); [|done].
  simpl in HB0.
  destruct (BoundNode_boundNode _ _ _ _ _ _ _ HB) as [_ Hn'].
  rewrite Hn' in Hsel. injection Hsel as ->.
  unfold childNode in Hjoin. rewrite Hits in Hjoin. simpl in Hjoin.
  destruct (BoundNode_boundNode _ _ _ _ _ _ _ HB0) as [_ Hn0'].
  rewrite Hn0' in Hjoin. injection Hjoin as ->.
  pose proof (bn_arity _ _ _ _ _ _ _ HB0) as Har. simpl in Har.
  destruct (GroupExpr.Children ge0) as [|l [|r [|]]] eqn:Hx; try done.
  destruct HB as [Hg He Hge Hm Ho Hn Hop Ha Hcs].
  destruct HB0 as [Hg0 He0 Hge0 Hm0 Ho0 Hn0 Hop0 Ha0 Hcs0].
  destruct (Hdual join _ Hcontra) as [dual Hd].
  exists dual. simpl. unfold PushSelDownJoin_OnTransform. run.
  rewrite Hinner. by run.
Qed.

(** The reference [Conds2TableDual] answers every constant contradiction. *)
Lemma Ref_Conds2TableDual_contradiction (j : LogicalJoin.t) (conds : list Expression) :
  constContradiction conds = true -> is_Some (Conds2TableDual Ref.collab j conds).
Proof.
  destruct conds as [|c [|]]; try done. simpl. intros ->. eauto.
Qed.

(** C2, at [Selection(1 = 0) -> InnerJoin(a = x)(Scan(T), Scan(S))]. *)
Lemma PushSelDownJoin_contradiction_witness :
  Matched Examples.innerJoinMemo PushSelDownJoin_Pattern Examples.selJoinIter = true /\
  constContradiction
    (combinedCond Ref.collab
       (LogicalJoin.mk InnerJoin [] [] [Examples.eqAX] [] [] [])
       (LogicalSelection.mk
          [EScalarFunction "eq" [EConstant (DInt 1); EConstant (DInt 0)]])) = true /\
  exists dual,
    OnTransform (NewRulePushSelDownJoin Ref.collab) Examples.selJoinIter
      Examples.innerJoinMemo =
      (Ok (mkResult [4] false true),
       mkMemo (plans Examples.innerJoinMemo ++ [PTableDual dual])
         (exprs Examples.innerJoinMemo ++ [GroupExpr.mk 4 [] None])
         (groups Examples.innerJoinMemo)).
Proof.
  split; [vm_compute; reflexivity|]. split; [vm_compute; reflexivity|].
  apply (PushSelDownJoin_contradiction Ref.collab Examples.innerJoinMemo
           Examples.selJoinIter
           (LogicalSelection.mk
              [EScalarFunction "eq" [EConstant (DInt 1); EConstant (DInt 0)]])
           (LogicalJoin.mk InnerJoin [] [] [Examples.eqAX] [] [] [])
           Ref_Conds2TableDual_contradiction);
    vm_compute; reflexivity.
Defined.

Lemma appendJoinKeys_columns eqs join :
  Forall columnEquality eqs ->
  exists lk rk,
    appendJoinKeys eqs join =
      Some (LogicalJoin.mk (LogicalJoin.JoinType join)
              (LogicalJoin.LeftConditions join) (LogicalJoin.RightConditions join)
              (LogicalJoin.EqualConditions join) (LogicalJoin.OtherConditions join)
              (LogicalJoin.LeftJoinKeys join ++ lk)
              (LogicalJoin.RightJoinKeys join ++ rk)) /\
    length lk = length eqs /\ length rk = length eqs.
Proof.
  intros Hwf. revert join. induction Hwf as [|f eqs (a & b & rest & Hf) _ IH]; intros join.
  - exists [], []. destruct join. simpl. by rewrite !app_nil_r.
  - simpl. rewrite Hf. simpl.
    destruct (IH (LogicalJoin.mk (LogicalJoin.JoinType join)
              (LogicalJoin.LeftConditions join) (LogicalJoin.RightConditions join)
              (LogicalJoin.EqualConditions join) (LogicalJoin.OtherConditions join)
              (LogicalJoin.LeftJoinKeys join ++ [a])
              (LogicalJoin.RightJoinKeys join ++ [b]))) as (lk & rk & -> & Hl & Hr).
    exists (a :: lk), (b :: rk). simpl. rewrite <- !app_assoc. simpl.
    split; [done|]. by rewrite Hl, Hr.
Qed.

(** C10. On a binding [Selection -> Join] whose join is not an inner
    join (and whose equal conditions compare columns), [Match] accepts
    and [OnTransform] returns, without error, one new GroupExpr with
    [eraseOld = true] and [eraseAll = false]. The new GroupExpr refers to
    the payload of the matched join and has the children of the matched
    join; that payload keeps its join type and its four condition lists
    (only join keys are appended to it). No Selection is created and the
    result does not depend on the conditions of the matched Selection:
    none of them reaches the new join. *)
Theorem PushSelDownJoin_non_inner (X : Collab) (m : Memo) (old c0 : ExprIter)
    (sel : LogicalSelection.t) (joinExpr : GroupExpr.t) (join : LogicalJoin.t) :
  RemoveDupExprs X [] = [] ->
  Matched m PushSelDownJoin_Pattern old = true ->
  boundNode m old = Some (PSelection sel) ->
  itChildren old !! 0 = Some c0 ->
  boundExpr m c0 = Some joinExpr ->
  plans m !! GroupExpr.ExprNode joinExpr = Some (PJoin join) ->
  LogicalJoin.JoinType join ≠ InnerJoin ->
  Forall columnEquality (LogicalJoin.EqualConditions join) ->
  Match (NewRulePushSelDownJoin X) old m = (Ok true, m) /\
  exists lk rk,
    OnTransform (NewRulePushSelDownJoin X) old m =
      (Ok (mkResult [length (exprs m)] true false),
       mkMemo
         (<[GroupExpr.ExprNode joinExpr :=
              PJoin (LogicalJoin.mk (LogicalJoin.JoinType join)
                       (LogicalJoin.LeftConditions join)
                       (LogicalJoin.RightConditions join)
                       (LogicalJoin.EqualConditions join)
                       (LogicalJoin.OtherConditions join)
                       (LogicalJoin.LeftJoinKeys join ++ lk)
                       (LogicalJoin.RightJoinKeys join ++ rk))]> (plans m))
         (exprs m ++ [GroupExpr.mk (GroupExpr.ExprNode joinExpr)
                        (GroupExpr.Children joinExpr) None])
         (groups m)).
Proof.
  intros Hdup H Hsel Hc0 Hje Hjoin Houter Hwf. split; [done|].
  apply Matched_unary in H as (e & ge & node & gr & c0' & HB & Hits & Hgs & Hc); [|done..].
  apply Matched_node in Hc as (e0 & ge0 & node0 & gr0 & HB0); [|done].
  simpl in HB0.
  rewrite Hits in Hc0. injection Hc0 as <-.
  destruct (BoundNode_boundNode _ _ _ _ _ _ _ HB) as [_ Hn'].
  rewrite Hn' in Hsel. injection Hsel as ->.
  destruct (BoundNode_boundNode _ _ _ _ _ _ _ HB0) as [He0' _].
  rewrite He0' in Hje. injection Hje as ->.
  pose proof (bn_arity _ _ _ _ _ _ _ HB0) as Har. simpl in Har.
  destruct (GroupExpr.Children joinExpr) as [|l [|r [|]]] eqn:Hx; try done.
  destruct HB as [Hg He Hge Hm Ho Hn Hop Ha Hcs].
  destruct HB0 as [Hg0 He0 Hge0 Hm0 Ho0 Hn0 Hop0 Ha0 Hcs0].
  destruct (appendJoinKeys_columns _ join Hwf) as (lk & rk & Hkeys & _ & _).
  exists lk, rk. simpl. unfold PushSelDownJoin_OnTransform. run.
  destruct (LogicalJoin.JoinType join) eqn:Hjt; [done| |];
    unfold PushSelDownJoin_finish, buildChildSelectionGroup; run;
    rewrite ?Hkeys, ?Hdup; by run.
Qed.

(** C10, at [Selection(b > 5) -> LeftOuterJoin(a = x)(Scan(T), Scan(S))]. *)
Lemma PushSelDownJoin_non_inner_witness :
  Matched Examples.outerJoinMemo PushSelDownJoin_Pattern Examples.selJoinIter = true /\
  Match (NewRulePushSelDownJoin Ref.collab) Examples.selJoinIter Examples.outerJoinMemo =
    (Ok true, Examples.outerJoinMemo) /\
  exists lk rk,
    OnTransform (NewRulePushSelDownJoin Ref.collab) Examples.selJoinIter
      Examples.outerJoinMemo =
      (Ok (mkResult [4] true false),
       mkMemo
         (<[2 := PJoin (LogicalJoin.mk LeftOuterJoin [] [] [Examples.eqAX] []
                          ([] ++ lk) ([] ++ rk))]> (plans Examples.outerJoinMemo))
         (exprs Examples.outerJoinMemo ++ [GroupExpr.mk 2 [0; 1] None])
         (groups Examples.outerJoinMemo)).
Proof.
  split; [vm_compute; reflexivity|].
  apply (PushSelDownJoin_non_inner Ref.collab Examples.outerJoinMemo
           Examples.selJoinIter (mkExprIter 2 (Some 2) [])
           (LogicalSelection.mk
              [EScalarFunction "gt" [EColumn Examples.colB; EConstant (DInt 5)]])
           (GroupExpr.mk 2 [0; 1] (Some 2))
           (LogicalJoin.mk LeftOuterJoin [] [] [Examples.eqAX] [] [] []));
    try (vm_compute; reflexivity).
  - done.
  - repeat constructor. by exists Examples.colA, Examples.colX, [].
Defined.

(** ** PushSelDownIndexScan *)

Lemma GetOperand_Selection node :
  GetOperand node = OperandSelection -> exists p, node = PSelection p.
Proof. destruct node; try done. eauto. Qed.

Lemma GetOperand_IndexScan node :
  GetOperand node = OperandIndexScan -> exists p, node = PIndexScan p.
Proof. destruct node; try done. eauto. Qed.

(** Re-application: a Selection of the remaining conditions over an
    IndexScan that carries the access conditions found before is left
    alone, in whatever memo it is bound. *)
Lemma PushSelDownIndexScan_again (X : Collab) (m : Memo) (it : ExprIter)
    (conds : list Expression) (res : DetachRangeResult.t)
    (sel : LogicalSelection.t) (idx : LogicalIndexScan.t) :
  rangerIdempotent X ->
  DetachCondAndBuildRangeForIndex X conds (LogicalIndexScan.IdxCols idx)
    (LogicalIndexScan.IdxColLens idx) = inr res ->
  LogicalSelection.Conditions sel = DetachRangeResult.RemainedConds res ->
  LogicalIndexScan.AccessConds idx = DetachRangeResult.AccessConds res ->
  boundNode m it = Some (PSelection sel) ->
  childNode m it = Some (PIndexScan idx) ->
  OnTransform (NewRulePushSelDownIndexScan X) it m = (Ok noRewrite, m).
Proof.
  intros Hidem Hres Hsel Hacc Hn Hc.
  apply boundNode_inv in Hn as (e & ge & He & Hge & Hn).
  unfold childNode in Hc. destruct (itChildren it !! 0) as [c0|] eqn:Hc0; [|done].
  simpl in Hc. apply boundNode_inv in Hc as (e0 & ge0 & He0 & Hge0 & Hn0).
  simpl. unfold PushSelDownIndexScan_OnTransform. run.
  destruct (decide _); [done|].
  rewrite Hsel, Hacc.
  destruct (Hidem _ _ _ _ Hres) as (res' & -> & ->). done.
Qed.

(** C4. Apply PushSelDownIndexScan to a binding [Selection -> IndexScan],
    with a range layer that is idempotent on its own output. Unless the
    range layer fails, the rule either does not rewrite, and then does
    not rewrite when applied again; or returns the new IndexScan alone,
    and no Selection is left to apply it to; or returns a new Selection
    over a new Group whose only member is the new IndexScan. In the last
    case, wherever that Selection and that IndexScan are bound again with
    their payloads as the rule left them, the rule returns the empty
    result with both flags false, without error, and leaves the memo as
    it is. *)
Theorem PushSelDownIndexScan_fixpoint (X : Collab) (m : Memo) (old : ExprIter) :
  rangerIdempotent X ->
  Matched m PushSelDownIndexScan_Pattern old = true ->
  (exists err, OnTransform (NewRulePushSelDownIndexScan X) old m = (Err err, m)) \/
  (OnTransform (NewRulePushSelDownIndexScan X) old m = (Ok noRewrite, m)) \/
  (exists m1 isExpr isGe newIs,
     OnTransform (NewRulePushSelDownIndexScan X) old m =
       (Ok (mkResult [isExpr] true false), m1) /\
     exprs m1 !! isExpr = Some isGe /\
     plans m1 !! GroupExpr.ExprNode isGe = Some (PIndexScan newIs)) \/
  (exists m1 selExpr selGe newSel isGroup isGr isExpr isGe newIs,
     OnTransform (NewRulePushSelDownIndexScan X) old m =
       (Ok (mkResult [selExpr] true false), m1) /\
     exprs m1 !! selExpr = Some selGe /\
     plans m1 !! GroupExpr.ExprNode selGe = Some (PSelection newSel) /\
     GroupExpr.Children selGe = [isGroup] /\
     groups m1 !! isGroup = Some isGr /\
     Group.Equivalents isGr = [isExpr] /\
     exprs m1 !! isExpr = Some isGe /\
     plans m1 !! GroupExpr.ExprNode isGe = Some (PIndexScan newIs) /\
     forall m2 again,
       boundNode m2 again = Some (PSelection newSel) ->
       childNode m2 again = Some (PIndexScan newIs) ->
       OnTransform (NewRulePushSelDownIndexScan X) again m2 = (Ok noRewrite, m2)).
Proof.
  intros Hidem H.
  apply Matched_unary in H as (e & ge & node & gr & c0 & HB & Hits & Hgs & Hc); [|done..].
  apply Matched_node in Hc as (e0 & ge0 & node0 & gr0 & HB0); [|done].
  simpl in HB0.
  destruct (GetOperand_Selection node (bn_operand _ _ _ _ _ _ _ HB)) as [sel ->].
  destruct (GetOperand_IndexScan node0 (bn_operand _ _ _ _ _ _ _ HB0)) as [idx ->].
  destruct HB as [Hg He Hge Hm Ho Hn Hop Ha Hcs].
  destruct HB0 as [Hg0 He0 Hge0 Hm0 Ho0 Hn0 Hop0 Ha0 Hcs0].
  simpl. unfold PushSelDownIndexScan_OnTransform. run.
  destruct (decide (length (LogicalIndexScan.IdxCols idx) = 0)); [by right; left|].
  destruct (DetachCondAndBuildRangeForIndex X _ _ _) as [err|res] eqn:Hres; [left; eauto|].
  destruct (sameConds X _ _) eqn:Hsame; [by right; left|].
  destruct (decide (length (DetachRangeResult.RemainedConds res) = 0)).
  - right; right; left. run. do 4 eexists. split; [reflexivity|].
    split; [new_cell|new_cell].
  - right; right; right. run. do 9 eexists. split; [reflexivity|].
    repeat (split; [new_cell|]).
    intros m2 again Hn2 Hc2.
    refine (PushSelDownIndexScan_again X m2 again _ res _ _ Hidem _ _ _ Hn2 Hc2);
      [exact Hres | reflexivity | reflexivity].
Qed.

Lemma Ref_ExprEqual_refl (e : Expression) : Ref.ExprEqual e e = true.
Proof.
  induction e as [c|d|n args IH] using Expression_ind'; simpl.
  - by apply bool_decide_eq_true_2.
  - by apply bool_decide_eq_true_2.
  - apply andb_true_intro. split; [by apply bool_decide_eq_true_2|].
    induction IH as [|a args Ha _ IHargs]; [done|]. by rewrite Ha, IHargs.
Qed.

Lemma Ref_sameConds_refl (l : list Expression) : sameConds Ref.collab l l = true.
Proof.
  unfold sameConds. apply andb_true_intro. split; [by apply bool_decide_eq_true_2|].
  induction l as [|a l IH]; [done|]. simpl in *. by rewrite Ref_ExprEqual_refl.
Qed.

Lemma filter_access_again (P : Expression -> bool) (l : list Expression) :
  filter (fun e => P e = true) (filter (fun e => P e = false) l ++ filter (fun e => P e = true) l)
  = filter (fun e => P e = true) l.
Proof.
  rewrite filter_app.
  assert (filter (fun e => P e = true) (filter (fun e => P e = false) l) = []) as ->.
  { induction l as [|a l IH]; [done|]. rewrite (filter_cons (fun e => P e = false)).
    destruct (decide (P a = false)) as [Ha|Ha]; [|done].
    rewrite filter_cons. destruct (decide (P a = true)); [congruence|done]. }
  simpl. induction l as [|a l IH]; [done|]. rewrite (filter_cons _ a l).
  destruct (decide (P a = true)) as [Ha|Ha]; [|done].
  rewrite filter_cons. destruct (decide (P a = true)); [|done]. by rewrite IH.
Qed.

(** The reference range layer is idempotent on its own output. *)
Lemma Ref_rangerIdempotent : rangerIdempotent Ref.collab.
Proof.
  intros conds idxCols lens res H. simpl in *.
  unfold Ref.DetachCondAndBuildRangeForIndex in *.
  destruct idxCols as [|c idxCols]; [done|]. injection H as <-. simpl.
  eexists. split; [reflexivity|]. simpl.
  rewrite filter_access_again. apply Ref_sameConds_refl.
Qed.

(** C4, at [Selection(a = 1, b > 2) -> IndexScan(T, index on a)]: the
    first application moves [a = 1] into the scan, the second finds
    nothing to do. *)
Lemma PushSelDownIndexScan_fixpoint_witness :
  rangerIdempotent Ref.collab /\
  Matched Examples.selIndexScanMemo PushSelDownIndexScan_Pattern
    Examples.selIndexScanIter = true /\
  exists m1 selExpr newSel newIs,
    OnTransform (NewRulePushSelDownIndexScan Ref.collab) Examples.selIndexScanIter
      Examples.selIndexScanMemo = (Ok (mkResult [selExpr] true false), m1) /\
    forall m2 again,
      boundNode m2 again = Some (PSelection newSel) ->
      childNode m2 again = Some (PIndexScan newIs) ->
      OnTransform (NewRulePushSelDownIndexScan Ref.collab) again m2 = (Ok noRewrite, m2).
Proof.
  assert (Matched Examples.selIndexScanMemo PushSelDownIndexScan_Pattern
            Examples.selIndexScanIter = true) as H by (vm_compute; reflexivity).
  split; [exact Ref_rangerIdempotent|]. split; [exact H|].
  destruct (PushSelDownIndexScan_fixpoint Ref.collab _ _ Ref_rangerIdempotent H)
    as [(err & Hr) | [Hr | [(m1 & isExpr & isGe & newIs & Hr & Hx) |
        (m1 & selExpr & selGe & newSel & isGroup & isGr & isExpr & isGe & newIs &
         Hr & _ & _ & _ & _ & _ & _ & _ & Hagain)]]].
  - vm_compute in Hr. discriminate Hr.
  - vm_compute in Hr. discriminate Hr.
  - exfalso. destruct Hx as [Hx1 Hx2]. vm_compute in Hr. injection Hr as <- <-.
    vm_compute in Hx1. injection Hx1 as <-. vm_compute in Hx2. discriminate Hx2.
  - exists m1, selExpr, newSel, newIs. by split.
Defined.

(** ** Where the code departs from the specification *)

(** C1, evaluated at [Selection(b > 5) -> LeftOuterJoin(a = x)(Scan(T),
    Scan(S))]: PushSelDownJoin returns the join alone with
    [eraseOld = true], and the predicate [b > 5] of the matched Selection
    is held by no operator of the returned plan. *)
Theorem PushSelDownJoin_drops_outer_join_predicate :
  boundNode Examples.outerJoinMemo Examples.selJoinIter =
    Some (PSelection (LogicalSelection.mk [Examples.gtB5])) /\
  exists m',
    OnTransform (NewRulePushSelDownJoin Ref.collab) Examples.selJoinIter
      Examples.outerJoinMemo = (Ok (mkResult [4] true false), m') /\
    predicatesBelow 8 m' 4 =
      [EScalarFunction "eq" [EColumn Examples.colA; EColumn Examples.colX]] /\
    ~ In Examples.gtB5 (predicatesBelow 8 m' 4).
Proof.
  split; [reflexivity|]. eexists. split; [vm_compute; reflexivity|].
  split; [vm_compute; reflexivity|].
  vm_compute. intros [H|[]]. discriminate H.
Qed.

(** C6, evaluated at [TopN(by b desc, a asc) -> Projection(a := 1,
    b := x) -> Scan(S)]: the sort keys substituted through the projection
    are [x desc, 1 asc]. The new TopN keeps both, the constant included,
    and the matched TopN, cell 2 of the memo, is left with [x desc]
    instead of its own keys [b desc, a asc]. *)
Theorem PushTopNDownProjection_keeps_constant_key :
  plans Examples.topNProjMemo !! 2 =
    Some (PTopN (LogicalTopN.mk
            [ByItems.mk (EColumn Examples.colB) true;
             ByItems.mk (EColumn Examples.colA) false] 0 3)) /\
  OnTransform (NewRulePushTopNDownProjection Ref.collab) Examples.topNProjIter
    Examples.topNProjMemo =
    (Ok (mkResult [3] true false),
     mkMemo
       [ PTableScan (LogicalTableScan.mk Examples.S None []);
         PProjection (LogicalProjection.mk
           [EConstant (DInt 1); EColumn Examples.colX] [Examples.colA; Examples.colB]);
         PTopN (LogicalTopN.mk [ByItems.mk (EColumn Examples.colX) true] 0 3);
         PTopN (LogicalTopN.mk
           [ByItems.mk (EColumn Examples.colX) true;
            ByItems.mk (EConstant (DInt 1)) false] 0 3) ]
       [ GroupExpr.mk 0 [] (Some 0);
         GroupExpr.mk 1 [0] (Some 1);
         GroupExpr.mk 2 [1] (Some 2);
         GroupExpr.mk 1 [3] None;
         GroupExpr.mk 3 [0] (Some 3) ]
       [ Group.mk [0] [Examples.colX; Examples.colY] EngineTiDB;
         Group.mk [1] [Examples.colA; Examples.colB] EngineTiDB;
         Group.mk [2] [Examples.colA; Examples.colB] EngineTiDB;
         Group.mk [4] [Examples.colX; Examples.colY] EngineTiDB ]).
Proof. split; vm_compute; reflexivity. Qed.

(** C9, evaluated at [Selection(b > 5) -> InnerJoin(a = x, left: b > 0)
    (Scan(T), Scan(S))]: PushSelDownJoin overwrites the payload of the
    matched join, cell 2 of the memo: its left condition is gone and join
    keys are added. The GroupExpr that was matched still refers to that
    cell. *)
Theorem PushSelDownJoin_mutates_matched_join :
  plans Examples.innerFilterJoinMemo !! 2 =
    Some (PJoin (LogicalJoin.mk InnerJoin [Examples.gtB0] [] [Examples.eqAX] [] [] [])) /\
  exists m',
    OnTransform (NewRulePushSelDownJoin Ref.collab) Examples.selJoinIter
      Examples.innerFilterJoinMemo = (Ok (mkResult [5] true false), m') /\
    plans m' !! 2 =
      Some (PJoin (LogicalJoin.mk InnerJoin [] [] [Examples.eqAX] []
                     [Examples.colA] [Examples.colX])) /\
    exprs m' !! 2 = Some (GroupExpr.mk 2 [0; 1] (Some 2)) /\
    ~ extends Examples.innerFilterJoinMemo m'.
Proof.
  split; [reflexivity|]. eexists. split; [vm_compute; reflexivity|].
  split; [vm_compute; reflexivity|]. split; [vm_compute; reflexivity|].
  intros ([k Hk] & _ & _). vm_compute in Hk. discriminate Hk.
Qed.

(** ** Schemas of the replacements *)

Lemma GetOperand_Projection node :
  GetOperand node = OperandProjection -> exists p, node = PProjection p.
Proof. destruct node; try done. eauto. Qed.

Lemma GetOperand_TopN node :
  GetOperand node = OperandTopN -> exists p, node = PTopN p.
Proof. destruct node; try done. eauto. Qed.

Lemma GetOperand_Join node :
  GetOperand node = OperandJoin -> exists p, node = PJoin p.
Proof. destruct node; try done. eauto. Qed.

Lemma GetOperand_TableScan node :
  GetOperand node = OperandTableScan -> exists p, node = PTableScan p.
Proof. destruct node; try done. eauto. Qed.











Lemma Matched_any m e it :
  Matched m (NewPattern OperandAny e) it = true ->
  exists gr, groups m !! itGroup it = Some gr.
Proof.
  simpl. destruct (groups m !! itGroup it) as [gr|]; [eauto|done].
Qed.






(** A cell that has been written is read back, also after new cells
    were added behind it. *)
Lemma lookup_written {A} (l k : list A) j v w :
  l !! j = Some w -> (<[j := v]> l ++ k) !! j = Some v.
Proof.
  intros H%lookup_lt_Some. rewrite lookup_app_l by by rewrite length_insert.
  by apply list_lookup_insert_eq.
Qed.

Lemma lookup_written_nil {A} (l : list A) j v w :
  l !! j = Some w -> <[j := v]> l !! j = Some v.
Proof. intros H%lookup_lt_Some. by apply list_lookup_insert_eq. Qed.



Lemma Column_Equal_zip (l k : Schema) :
  length l = length k ->
  forallb (fun '(col, oldCol) => Column_Equal col oldCol) (zip l k) = true ->
  l = k.
Proof.
  revert k. induction l as [|a l IH]; intros [|b k]; simpl; try done.
  intros [= Hlen] H. unfold Column_Equal in H. boolify. subst b. f_equal. by apply IH.
Qed.





(** Every rule name is in the catalog. *)
Lemma catalog_complete (r : Rule) : exists o, r ∈ defaultRules o.
Proof.
  destruct r;
    [ exists OperandSelection | exists OperandSelection | exists OperandSelection
    | exists OperandDataSource | exists OperandAggregation | exists OperandSelection
    | exists OperandSelection | exists OperandSelection | exists OperandLimit
    | exists OperandSelection | exists OperandProjection | exists OperandProjection
    | exists OperandTopN | exists OperandAggregation ];
    simpl; repeat (first [apply list_elem_of_here | apply list_elem_of_further]).
Qed.





(** ** Rules that only add cells

    All rules but PushSelDownJoin and PushTopNDownProjection leave every
    cell of the memo as it was: what they build is new. *)

Lemma extends_refl m : extends m m.
Proof. by repeat split. Qed.

Lemma extends_trans m1 m2 m3 : extends m1 m2 -> extends m2 m3 -> extends m1 m3.
Proof.
  intros (? & ? & ?) (? & ? & ?). repeat split; by etrans.
Qed.

Ltac only_adds :=
  intros [= <- <-]; repeat split; simpl;
  first [reflexivity | by apply prefix_app_r].

Lemma Convert2GroupExpr_extends gather m e m' :
  Convert2GroupExpr gather m = (Ok e, m') ->
  extends m m' /\
  exists ge g gr, exprs m' !! e = Some ge /\ GroupExpr.Children ge = [g] /\
                  groups m' !! g = Some gr /\ length (groups m) <= g.
Proof.
  destruct gather as [[tg scan] s]. unfold Convert2GroupExpr. run.
  intros [= <- <-]. split; [apply extends_app|].
  do 3 eexists. split; [new_cell|]. split; [done|]. simpl. split; [new_cell|lia].
Qed.

Lemma EnumeratePaths_loop_extends gathers acc m es m' :
  EnumeratePaths_loop gathers acc m = (Ok es, m') -> extends m m'.
Proof.
  revert acc m. induction gathers as [|gather gathers IH]; intros acc m.
  - simpl. unfold ret. intros [= <- <-]. apply extends_refl.
  - simpl. unfold bind at 1.
    destruct (Convert2GroupExpr gather m) as [[e| |] m1] eqn:Hconv; try done.
    destruct (Convert2GroupExpr_extends _ _ _ _ Hconv)
      as (Hext & ge & g & gr & Hge & Hch & Hgr & Hnew).
    run. intros Hloop. apply IH in Hloop.
    eapply extends_trans; [|exact Hloop].
    destruct Hext as (Hp & He & [k Hk]). repeat split; simpl; [exact Hp|exact He|].
    rewrite Hk, insert_app_r_alt by done. by apply prefix_app_r.
Qed.

Ltac open2 H :=
  apply Matched_unary in H as (e & ge & node & gr1 & c0 & HB & Hits & Hgs & Hc); [|done..];
  apply Matched_node in Hc as (e0 & ge0 & node0 & gr0 & HB0); [|done];
  simpl in HB0;
  pose proof HB as [Hg He Hge Hm Ho Hn Hop Ha Hcs];
  pose proof HB0 as [Hg0 He0 Hge0 Hm0 Ho0 Hn0 Hop0 Ha0 Hcs0];
  pose proof (bn_arity _ _ _ _ _ _ _ HB0) as Har; simpl in Har;
  pose proof (bn_children _ _ _ _ _ _ _ HB0) as Hch.

Lemma rule_extends (X : Collab) (r : Rule) (m : Memo) (old : ExprIter)
    (res : Result) (m' : Memo) :
  r ≠ PushSelDownJoin -> r ≠ PushTopNDownProjection ->
  Matched m (GetPattern (NewRule X r)) old = true ->
  OnTransform (NewRule X r) old m = (Ok res, m') ->
  extends m m'.
Proof.
  intros Hne1 Hne2 H Hrun. destruct r; try done; simpl in Hrun.
  - (* PushSelDownTableScan *)
    open2 H.
    destruct (GetOperand_Selection node Hop) as [sel ->].
    destruct (GetOperand_TableScan node0 Hop0) as [ts ->].
    revert Hrun. unfold PushSelDownTableScan_OnTransform. run.
    destruct (LogicalTableScan.Handle ts) as [handle|]; [|only_adds].
    destruct (DetachCondsForColumn X _ handle) as [[accesses|] remained]; [|only_adds].
    run. destruct (decide _); run; only_adds.
  - (* PushSelDownIndexScan *)
    open2 H.
    destruct (GetOperand_Selection node Hop) as [sel ->].
    destruct (GetOperand_IndexScan node0 Hop0) as [idx ->].
    revert Hrun. unfold PushSelDownIndexScan_OnTransform. run.
    destruct (decide _); [only_adds|].
    destruct (DetachCondAndBuildRangeForIndex X _ _ _) as [err|rr]; [done|].
    destruct (sameConds X _ _); [only_adds|].
    destruct (decide _); run; only_adds.
  - (* PushSelDownTiKVSingleGather *)
    apply Matched_unary in H as (e & ge & node & gr1 & c0 & HB & Hits & Hgs & Hc); [|done..].
    apply Matched_unary in Hc as (e0 & ge0 & node0 & gr0 & c00 & HB0 & Hits0 & Hgs0 & Hc0);
      [|done..].
    apply Matched_any in Hc0 as [cg Hcg].
    pose proof HB as [Hg He Hge Hm Ho Hn Hop Ha Hcs].
    pose proof HB0 as [Hg0 He0 Hge0 Hm0 Ho0 Hn0 Hop0 Ha0 Hcs0].
    destruct (GetOperand_Selection node Hop) as [sel ->].
    destruct (GetOperand_TiKVSingleGather node0 Hop0) as [sg ->].
    revert Hrun. unfold PushSelDownTiKVSingleGather_OnTransform. run.
    destruct (ExpressionsToPB X _) as [pushed remained].
    destruct (decide _); [only_adds|].
    run. destruct (decide _); run; only_adds.
  - (* EnumeratePaths *)
    apply Matched_node in H as (e & ge & node & gr1 & HB); [|done].
    pose proof HB as [Hg He Hge Hm Ho Hn Hop Ha Hcs].
    destruct node; try done.
    revert Hrun. unfold EnumeratePaths_OnTransform. run.
    destruct (EnumeratePaths_loop _ _ m) as [[es| |] m2] eqn:Hloop; try done.
    intros [= <- <-]. by eapply EnumeratePaths_loop_extends.
  - (* PushAggDownGather *)
    open2 H.
    destruct (GetOperand_Aggregation node Hop) as [agg ->].
    destruct (GetOperand_TiKVSingleGather node0 Hop0) as [tg ->].
    destruct (GroupExpr.Children ge0) as [|x [|]] eqn:Hx; try done.
    apply Forall_singleton in Hch as [cg Hcg].
    revert Hrun. unfold PushAggDownGather_OnTransform. run.
    destruct (BuildFinalModeAggregation X _ _ _) as [[fa fg] ps]. run. only_adds.
  - (* PushSelDownSort *)
    open2 H.
    destruct (GetOperand_Selection node Hop) as [sel ->].
    destruct (GetOperand_Sort node0 Hop0) as [sort ->].
    destruct (GroupExpr.Children ge0) as [|x [|]] eqn:Hx; try done.
    apply Forall_singleton in Hch as [cg Hcg].
    revert Hrun. unfold PushSelDownSort_OnTransform. run. only_adds.
  - (* PushSelDownProjection *)
    open2 H.
    destruct (GetOperand_Selection node Hop) as [sel ->].
    destruct (GetOperand_Projection node0 Hop0) as [proj ->].
    destruct (GroupExpr.Children ge0) as [|x [|]] eqn:Hx; try done.
    apply Forall_singleton in Hch as [cg Hcg].
    revert Hrun. unfold PushSelDownProjection_OnTransform. run.
    destruct (existsb _ _); [only_adds|].
    destruct (decide _); [only_adds|].
    run. destruct (decide _); run; only_adds.
  - (* PushSelDownAggregation *)
    open2 H.
    destruct (GetOperand_Selection node Hop) as [sel ->].
    destruct (GetOperand_Aggregation node0 Hop0) as [aggr ->].
    destruct (GroupExpr.Children ge0) as [|x [|]] eqn:Hx; try done.
    apply Forall_singleton in Hch as [cg Hcg].
    revert Hrun. unfold PushSelDownAggregation_OnTransform. run.
    destruct (decide _); [only_adds|].
    run. destruct (decide _); run; only_adds.
  - (* TransformLimitToTopN *)
    open2 H.
    destruct (GetOperand_Limit node Hop) as [limit ->].
    destruct (GetOperand_Sort node0 Hop0) as [sort ->].
    destruct (GroupExpr.Children ge0) as [|x [|]] eqn:Hx; try done.
    revert Hrun. unfold TransformLimitToTopN_OnTransform. run. only_adds.
  - (* EliminateProjection *)
    apply Matched_unary in H as (e & ge & node & gr1 & c0 & HB & Hits & Hgs & Hc); [|done..].
    apply Matched_any in Hc as [cg Hcg].
    pose proof HB as [Hg He Hge Hm Ho Hn Hop Ha Hcs].
    revert Hrun. unfold EliminateProjection_OnTransform. run.
    destruct (decide _); [only_adds|]. destruct (forallb _ _); only_adds.
  - (* MergeAdjacentProjection *)
    open2 H.
    destruct (GetOperand_Projection node Hop) as [proj ->].
    destruct (GetOperand_Projection node0 Hop0) as [child ->].
    destruct (GroupExpr.Children ge0) as [|x [|]] eqn:Hx; try done.
    revert Hrun. unfold MergeAdjacentProjection_OnTransform. run.
    destruct (ExprsHasSideEffects X _); [only_adds|].
    run. destruct (buildReplace X _ _ _ _) as [replace|]; [|done]. run. only_adds.
  - (* MergeAggregationProjection *)
    open2 H.
    destruct (GetOperand_Aggregation node Hop) as [aggr ->].
    destruct (GetOperand_Projection node0 Hop0) as [child ->].
    destruct (GroupExpr.Children ge0) as [|x [|]] eqn:Hx; try done.
    revert Hrun. unfold MergeAggregationProjection_OnTransform. run.
    destruct (buildReplace X _ _ _ _) as [replace|]; [|done]. run. only_adds.
Qed.

(** X4. Every rule other than PushSelDownJoin and PushTopNDownProjection,
    when it returns on a binding of its pattern, has only added cells to
    the memo: every payload, GroupExpr and Group that was there is as it
    was. *)
Theorem rules_only_add_cells (X : Collab) (r : Rule) (m : Memo) (old : ExprIter)
    (res : Result) (m' : Memo) :
  r ≠ PushSelDownJoin -> r ≠ PushTopNDownProjection ->
  Matched m (GetPattern (NewRule X r)) old = true ->
  OnTransform (NewRule X r) old m = (Ok res, m') ->
  extends m m'.
Proof. apply rule_extends. Qed.


(** Without a constant among the substituted sort keys, the loop of
    PushTopNDownProjection changes nothing. *)
Lemma removeConstLoop_no_constant (arr : list ByItems.t) (i : nat) assigned :
  Forall (fun item => isConstant (ByItems.Expr item) = false) arr ->
  removeConstLoop i arr assigned = (arr, assigned).
Proof.
  intros Hall. induction i as [|j IH]; [done|]. simpl.
  destruct (arr !! j) as [item|] eqn:Hj; [|done].
  rewrite Forall_forall in Hall.
  rewrite (Hall item) by (apply list_elem_of_lookup; eauto). exact IH.
Qed.

(** ** Predicate conservation where the rules split by a test

    PushSelDownAggregation and PushSelDownProjection split the
    conditions of the Selection by a test on each condition: every
    condition goes to exactly one side. *)

Lemma split_conserves (f : Expression -> bool) (conds : list Expression) :
  filter (fun e => f e = false) conds ++ filter (fun e => f e = true) conds ≡ₚ conds.
Proof.
  induction conds as [|c conds IH]; [done|].
  rewrite !filter_cons. destruct (f c) eqn:Hc; simpl.
  - destruct (decide (true = false)); [done|]. destruct (decide (true = true)); [|done].
    rewrite <- Permutation_middle. by constructor.
  - destruct (decide (false = false)); [|done]. destruct (decide (false = true)); [done|].
    simpl. by constructor.
Qed.

(** The conditions below and above the projection are the conditions of
    the Selection, each one substituted or kept. *)
Lemma PushSelDownProjection_conserves (X : Collab) (projSchema : Schema)
    (exprs : list Expression) (conds : list Expression) :
  map (fun cond => ColumnSubstitute X cond projSchema exprs)
    (filter (fun cond => HasGetSetVarFunc X cond = false) conds) ++
  filter (fun cond => HasGetSetVarFunc X cond = true) conds
  ≡ₚ map (fun cond => if HasGetSetVarFunc X cond then cond
                      else ColumnSubstitute X cond projSchema exprs) conds.
Proof.
  induction conds as [|c conds IH]; [done|].
  rewrite !filter_cons. simpl. destruct (HasGetSetVarFunc X c) eqn:Hc; simpl.
  - destruct (decide (true = false)); [done|]. destruct (decide (true = true)); [|done].
    rewrite <- Permutation_middle. by constructor.
  - destruct (decide (false = false)); [|done]. destruct (decide (false = true)); [done|].
    simpl. by constructor.
Qed.

(** * Further properties of the rules *)

(** ** The catalog *)

(** X1. A rule is registered under an operand exactly when that operand is
    the root of its pattern. *)
Theorem catalog_by_root_operand (X : Collab) (r : Rule) (o : Operand) :
  r ∈ defaultRules o <-> patOperand (GetPattern (NewRule X r)) = o.
Proof.
  split.
  - destruct o; simpl; intros H;
      repeat (apply elem_of_cons in H as [->|H]; [reflexivity|]);
      by apply elem_of_nil in H.
  - intros <-. destruct r; simpl;
      repeat (first [apply list_elem_of_here | apply list_elem_of_further]).
Qed.

(** ** Errors *)

Lemma neverErr_ret {A} (a : A) : neverErr (ret a).
Proof. by intros m e m'. Qed.

Lemma neverErr_panic {A} : neverErr (@panic A).
Proof. by intros m e m'. Qed.

Lemma neverErr_bind {A B} (c : M A) (k : A -> M B) :
  neverErr c -> (forall a, neverErr (k a)) -> neverErr (bind c k).
Proof.
  intros Hc Hk m e m'. unfold bind.
  destruct (c m) as [[a|e0|] m1] eqn:Hcm; [apply Hk| |done].
  by destruct (Hc _ _ _ Hcm).
Qed.

Lemma neverErr_unwrap {A} (o : option A) : neverErr (unwrap o).
Proof. destruct o; [apply neverErr_ret|apply neverErr_panic]. Qed.

Lemma neverErr_step {A} (c : M A) :
  (forall m, c m = (Panic, m) \/ exists a m', c m = (Ok a, m')) -> neverErr c.
Proof. intros H m e m' Hc. destruct (H m) as [H'|(a & m1 & H')]; congruence. Qed.

(** The primitives of the memo never return an error. *)
Ltac never_err_prim :=
  solve [ apply neverErr_step; intros ?;
          unfold readPlan, readExpr, readGroup, Init, writePlan, writeExpr, writeGroup,
            NewGroupExpr, unwrap, ret, panic;
          repeat case_match; eauto ].

Ltac never_err :=
  repeat first
    [ apply neverErr_ret
    | apply neverErr_panic
    | apply neverErr_unwrap
    | apply neverErr_bind; [|intros ?]
    | progress unfold nodeOf, exprOf, GetExpr, child, childGroupOf, groupSchemaOf,
        SetChildren, appendChild, NewGroupWithSchema, SetEngineType,
        asSelection, asProjection, asAggregation, asJoin, asSort, asLimit, asTopN,
        asDataSource, asTableScan, asIndexScan, asTiKVSingleGather,
        buildChildSelectionGroup, Convert2GroupExpr, PushSelDownJoin_finish
    | case_match
    | never_err_prim ].

Lemma EnumeratePaths_loop_neverErr gathers acc :
  neverErr (EnumeratePaths_loop gathers acc).
Proof.
  revert acc. induction gathers as [|gather gathers IH]; intros acc; simpl.
  - apply neverErr_ret.
  - never_err. apply IH.
Qed.

(** X2. Of all the rules, only PushSelDownIndexScan can return an error:
    whatever the memo and the binding, the [Match] of every rule and the
    [OnTransform] of every other rule return a result or panic. *)
Theorem only_index_scan_returns_error (X : Collab) (r : Rule) (old : ExprIter) :
  neverErr (Match (NewRule X r) old) /\
  (r ≠ PushSelDownIndexScan -> neverErr (OnTransform (NewRule X r) old)).
Proof.
  split.
  - destruct r; simpl;
      unfold baseRule_Match, PushAggDownGather_Match, PushTopNDownProjection_Match,
        MergeAggregationProjection_Match; never_err.
  - intros Hne. destruct r; try done; simpl.
    + unfold PushSelDownTableScan_OnTransform. never_err.
    + unfold PushSelDownTiKVSingleGather_OnTransform. never_err.
    + unfold EnumeratePaths_OnTransform. never_err. apply EnumeratePaths_loop_neverErr.
    + unfold PushAggDownGather_OnTransform. never_err.
    + unfold PushSelDownSort_OnTransform. never_err.
    + unfold PushSelDownProjection_OnTransform. never_err.
    + unfold PushSelDownAggregation_OnTransform. never_err.
    + unfold TransformLimitToTopN_OnTransform. never_err.
    + unfold PushSelDownJoin_OnTransform. never_err.
    + unfold EliminateProjection_OnTransform. never_err.
    + unfold MergeAdjacentProjection_OnTransform. never_err.
    + unfold PushTopNDownProjection_OnTransform. never_err.
    + unfold MergeAggregationProjection_OnTransform. never_err.
Qed.

Lemma boundNode_intro m it e ge node :
  itElement it = Some e -> exprs m !! e = Some ge ->
  plans m !! GroupExpr.ExprNode ge = Some node ->
  boundNode m it = Some node.
Proof.
  intros He Hge Hn. unfold boundNode, boundExpr. rewrite He. simpl.
  rewrite Hge. simpl. done.
Qed.

(** X3. PushSelDownIndexScan returns an error exactly when it is given a
    Selection over an IndexScan with index columns and the range layer
    fails on the conditions of the Selection followed by the access
    conditions of the scan; the error is the range layer's, and the memo
    is as it was. *)
Theorem PushSelDownIndexScan_error (X : Collab) (old : ExprIter) (m : Memo)
    (e : string) (m' : Memo) :
  OnTransform (NewRule X PushSelDownIndexScan) old m = (Err e, m') <->
  m' = m /\
  exists sel idx,
    boundNode m old = Some (PSelection sel) /\
    childNode m old = Some (PIndexScan idx) /\
    LogicalIndexScan.IdxCols idx <> [] /\
    DetachCondAndBuildRangeForIndex X
      (LogicalSelection.Conditions sel ++ LogicalIndexScan.AccessConds idx)
      (LogicalIndexScan.IdxCols idx) (LogicalIndexScan.IdxColLens idx) = inl e.
Proof.
  split.
  - simpl. unfold PushSelDownIndexScan_OnTransform. unfold_prims.
    unfold boundNode, childNode, boundExpr.
    repeat (case_match; simpl in *; try done).
    simplify_eq. intros [= <- <-]. split; [done|].
    do 2 eexists. split; [by use_lookups|].
    split; [eapply boundNode_intro; eassumption|].
    split; [|eassumption]. intros Hnil.
    match goal with H : length _ ≠ 0 |- _ => apply H end. by rewrite Hnil.
  - intros (-> & sel & idx & Hn & Hc & Hcols & Hres).
    apply boundNode_inv in Hn as (e1 & ge & He & Hge & Hn).
    unfold childNode in Hc. destruct (itChildren old !! 0) as [c0|] eqn:Hc0; [|done].
    simpl in Hc. apply boundNode_inv in Hc as (e0 & ge0 & He0 & Hge0 & Hn0).
    simpl. unfold PushSelDownIndexScan_OnTransform. run.
    destruct (decide _) as [Hlen|]; [by destruct (LogicalIndexScan.IdxCols idx)|].
    by rewrite Hres.
Qed.

(** ** Declined rewrites *)

Lemma EnumeratePaths_loop_length gathers acc m es m' :
  EnumeratePaths_loop gathers acc m = (Ok es, m') ->
  length es = length acc + length gathers.
Proof.
  revert acc m. induction gathers as [|gather gathers IH]; intros acc m; simpl.
  - unfold ret. intros [= <- <-]. lia.
  - unfold bind at 1. destruct (Convert2GroupExpr gather m) as [[e| |] m1]; try done.
    unfold bind at 1. destruct (readExpr e m1) as [[ge| |] m2]; try done.
    unfold bind at 1. destruct (childGroupOf ge 0 m2) as [[g| |] m3]; try done.
    unfold bind at 1. destruct (SetEngineType g EngineTiKV m3) as [[g'| |] m4]; try done.
    intros H. apply IH in H. rewrite H, length_app. simpl. lia.
Qed.

Lemma readOnly_ret {A} (a : A) : readOnly (ret a).
Proof. intros m o m'. unfold ret. congruence. Qed.

Lemma readOnly_panic {A} : readOnly (@panic A).
Proof. intros m o m'. unfold panic. congruence. Qed.

Lemma readOnly_unwrap {A} (o : option A) : readOnly (unwrap o).
Proof. destruct o; [apply readOnly_ret|apply readOnly_panic]. Qed.

Lemma readOnly_bind {A B} (c : M A) (k : A -> M B) :
  readOnly c -> (forall a, readOnly (k a)) -> readOnly (bind c k).
Proof.
  intros Hc Hk m o m'. unfold bind.
  destruct (c m) as [[a|e0|] m1] eqn:Hcm; apply Hc in Hcm as ->;
    [apply Hk|congruence..].
Qed.

Lemma readOnly_readPlan p : readOnly (readPlan p).
Proof. intros m o m'. unfold readPlan. apply readOnly_unwrap. Qed.

Lemma readOnly_readExpr e : readOnly (readExpr e).
Proof. intros m o m'. unfold readExpr. apply readOnly_unwrap. Qed.

Lemma readOnly_readGroup g : readOnly (readGroup g).
Proof. intros m o m'. unfold readGroup. apply readOnly_unwrap. Qed.

Ltac read_only :=
  repeat first
    [ apply readOnly_ret
    | apply readOnly_panic
    | apply readOnly_unwrap
    | apply readOnly_readPlan
    | apply readOnly_readExpr
    | apply readOnly_readGroup
    | apply readOnly_bind; [|intros ?]
    | progress unfold nodeOf, exprOf, GetExpr, child, childGroupOf, groupSchemaOf,
        asSelection, asProjection, asAggregation, asJoin, asSort, asLimit, asTopN,
        asDataSource, asTableScan, asIndexScan, asTiKVSingleGather
    | case_match ].

Lemma rewrites_ret (es : list ptr) (o a : bool) :
  es <> [] -> rewrites (ret (mkResult es o a)).
Proof. intros Hes m res m'. unfold ret. by intros [= <- <-]. Qed.

Lemma rewrites_bind {A} (c : M A) (k : A -> M Result) :
  (forall a, rewrites (k a)) -> rewrites (bind c k).
Proof.
  intros Hk m res m'. unfold bind. destruct (c m) as [[a|e0|] m1]; [apply Hk|done..].
Qed.

Ltac rewrites_tac :=
  repeat first
    [ apply rewrites_ret; done
    | apply rewrites_bind; intros ?
    | progress unfold PushSelDownJoin_finish
    | case_match ].

Lemma declines_ret (r : Result) : declines (ret r).
Proof. intros m res m'. unfold ret. congruence. Qed.

Lemma declines_fail (e : string) : declines (fail e).
Proof. by intros m res m'. Qed.

Lemma declines_rewrites (c : M Result) : rewrites c -> declines c.
Proof. intros Hc m res m' Hrun Hnil. by destruct (Hc _ _ _ Hrun). Qed.

Lemma declines_bind {A} (c : M A) (k : A -> M Result) :
  readOnly c -> (forall a, declines (k a)) -> declines (bind c k).
Proof.
  intros Hc Hk m res m'. unfold bind.
  destruct (c m) as [[a|e0|] m1] eqn:Hcm; [|done..].
  apply Hc in Hcm as ->. apply Hk.
Qed.

Ltac declines_tac :=
  repeat first
    [ apply declines_ret
    | apply declines_fail
    | apply declines_bind; [solve [read_only]|intros ?]
    | apply declines_rewrites; solve [rewrites_tac]
    | case_match ].

(** X5. A rule that returns no new expression has left the memo as it was:
    whatever the binding, when [OnTransform] returns an empty list, no
    cell of the memo was written or added. *)
Theorem declined_rewrite_leaves_memo (X : Collab) (r : Rule) (old : ExprIter)
    (m : Memo) (res : Result) (m' : Memo) :
  OnTransform (NewRule X r) old m = (Ok res, m') ->
  newExprs res = [] ->
  m' = m.
Proof.
  revert m res m'. change (declines (OnTransform (NewRule X r) old)).
  destruct r; simpl.
  - unfold PushSelDownTableScan_OnTransform. declines_tac.
  - unfold PushSelDownIndexScan_OnTransform. declines_tac.
  - unfold PushSelDownTiKVSingleGather_OnTransform. declines_tac.
  - unfold EnumeratePaths_OnTransform.
    apply declines_bind; [solve [read_only]|intros ds].
    intros m res m'. unfold bind.
    destruct (EnumeratePaths_loop _ _ m) as [[es| |] m2] eqn:Hloop; try done.
    unfold ret. intros [= <- <-]. simpl. intros ->.
    pose proof (EnumeratePaths_loop_length _ _ _ _ _ Hloop) as Hlen.
    destruct (Convert2Gathers X ds); [|done]. simpl in Hloop. unfold ret in Hloop.
    congruence.
  - unfold PushAggDownGather_OnTransform. declines_tac.
  - unfold PushSelDownSort_OnTransform. declines_tac.
  - unfold PushSelDownProjection_OnTransform. declines_tac.
  - unfold PushSelDownAggregation_OnTransform. declines_tac.
  - unfold TransformLimitToTopN_OnTransform. declines_tac.
  - unfold PushSelDownJoin_OnTransform. declines_tac.
  - unfold EliminateProjection_OnTransform. declines_tac.
  - unfold MergeAdjacentProjection_OnTransform. declines_tac.
  - unfold PushTopNDownProjection_OnTransform. declines_tac.
  - unfold MergeAggregationProjection_OnTransform. declines_tac.
Qed.

(** ** Bindings are safe *)

Lemma GetOperand_DataSource node :
  GetOperand node = OperandDataSource -> exists p, node = PDataSource p.
Proof. destruct node; try done. eauto. Qed.

Lemma Convert2GroupExpr_returns gather m :
  exists e m', Convert2GroupExpr gather m = (Ok e, m').
Proof.
  destruct gather as [[tg scan] s]. unfold Convert2GroupExpr. run. by do 2 eexists.
Qed.

Lemma EnumeratePaths_loop_returns gathers acc m :
  exists es m', EnumeratePaths_loop gathers acc m = (Ok es, m').
Proof.
  revert acc m. induction gathers as [|gather gathers IH]; intros acc m; simpl.
  - by do 2 eexists.
  - unfold bind at 1.
    destruct (Convert2GroupExpr gather m) as [[e| |] m1] eqn:Hconv;
      try (destruct (Convert2GroupExpr_returns gather m) as (? & ? & ?); congruence).
    destruct (Convert2GroupExpr_extends _ _ _ _ Hconv)
      as (Hext & ge & g & gr & Hge & Hch & Hgr & Hnew).
    run. apply IH.
Qed.


Ltac returns := try left; run; do 2 eexists; reflexivity.

(** X6. On a binding of its pattern, the [Match] of every rule answers
    without touching the memo, and the [OnTransform] of every rule but
    PushSelDownJoin, MergeAdjacentProjection and
    MergeAggregationProjection returns a result, or, for
    PushSelDownIndexScan only, an error with the memo as it was: no type
    assertion fails, no nil reference is followed and no index is out of
    range. *)
Theorem rules_return_on_bindings (X : Collab) (r : Rule) (m : Memo) (old : ExprIter) :
  Matched m (GetPattern (NewRule X r)) old = true ->
  (exists b, Match (NewRule X r) old m = (Ok b, m)) /\
  (r ∉ [PushSelDownJoin; MergeAdjacentProjection; MergeAggregationProjection] ->
   (exists res m', OnTransform (NewRule X r) old m = (Ok res, m')) \/
   (r = PushSelDownIndexScan /\
    exists e, OnTransform (NewRule X r) old m = (Err e, m))).
Proof.
  intros H. destruct r; simpl.
  - (* PushSelDownTableScan *)
    open2 H. split; [by eexists|intros _].
    destruct (GetOperand_Selection node Hop) as [sel ->].
    destruct (GetOperand_TableScan node0 Hop0) as [ts ->].
    unfold PushSelDownTableScan_OnTransform. run.
    destruct (LogicalTableScan.Handle ts) as [handle|]; [|returns].
    destruct (DetachCondsForColumn X _ handle) as [[accesses|] remained]; [|returns].
    run. destruct (decide _); returns.
  - (* PushSelDownIndexScan *)
    open2 H. split; [by eexists|intros _].
    destruct (GetOperand_Selection node Hop) as [sel ->].
    destruct (GetOperand_IndexScan node0 Hop0) as [idx ->].
    unfold PushSelDownIndexScan_OnTransform. run.
    destruct (decide _); [returns|].
    destruct (DetachCondAndBuildRangeForIndex X _ _ _) as [err|rr];
      [right; split; [done|]; by eexists|].
    destruct (sameConds X _ _); [returns|].
    destruct (decide _); returns.
  - (* PushSelDownTiKVSingleGather *)
    apply Matched_unary in H as (e & ge & node & gr1 & c0 & HB & Hits & Hgs & Hc); [|done..].
    apply Matched_unary in Hc as (e0 & ge0 & node0 & gr0 & c00 & HB0 & Hits0 & Hgs0 & Hc0);
      [|done..].
    apply Matched_any in Hc0 as [cg Hcg].
    pose proof HB as [Hg He Hge Hm Ho Hn Hop Ha Hcs].
    pose proof HB0 as [Hg0 He0 Hge0 Hm0 Ho0 Hn0 Hop0 Ha0 Hcs0].
    split; [by eexists|intros _].
    destruct (GetOperand_Selection node Hop) as [sel ->].
    destruct (GetOperand_TiKVSingleGather node0 Hop0) as [sg ->].
    unfold PushSelDownTiKVSingleGather_OnTransform. run.
    destruct (ExpressionsToPB X _) as [pushed remained].
    destruct (decide _); [returns|].
    run. destruct (decide _); returns.
  - (* EnumeratePaths *)
    apply Matched_node in H as (e & ge & node & gr1 & HB); [|done].
    pose proof HB as [Hg He Hge Hm Ho Hn Hop Ha Hcs].
    split; [by eexists|intros _]. left.
    destruct (GetOperand_DataSource node Hop) as [ds ->].
    unfold EnumeratePaths_OnTransform. run.
    destruct (EnumeratePaths_loop_returns (Convert2Gathers X ds) [] m) as (es & m2 & ->).
    by do 2 eexists.
  - (* PushAggDownGather *)
    open2 H.
    destruct (GetOperand_Aggregation node Hop) as [agg ->].
    destruct (GetOperand_TiKVSingleGather node0 Hop0) as [tg ->].
    destruct (GroupExpr.Children ge0) as [|x [|]] eqn:Hx; try done.
    apply Forall_singleton in Hch as [cg Hcg].
    split.
    { unfold PushAggDownGather_Match. run. destruct (forallb _ _); by eexists. }
    intros _. unfold PushAggDownGather_OnTransform. run.
    destruct (BuildFinalModeAggregation X _ _ _) as [[fa fg] ps]. returns.
  - (* PushSelDownSort *)
    open2 H. split; [by eexists|intros _].
    destruct (GetOperand_Selection node Hop) as [sel ->].
    destruct (GetOperand_Sort node0 Hop0) as [sort ->].
    destruct (GroupExpr.Children ge0) as [|x [|]] eqn:Hx; try done.
    apply Forall_singleton in Hch as [cg Hcg].
    unfold PushSelDownSort_OnTransform. returns.
  - (* PushSelDownProjection *)
    open2 H. split; [by eexists|intros _].
    destruct (GetOperand_Selection node Hop) as [sel ->].
    destruct (GetOperand_Projection node0 Hop0) as [proj ->].
    destruct (GroupExpr.Children ge0) as [|x [|]] eqn:Hx; try done.
    apply Forall_singleton in Hch as [cg Hcg].
    unfold PushSelDownProjection_OnTransform. run.
    destruct (existsb _ _); [returns|].
    destruct (decide _); [returns|].
    run. destruct (decide _); returns.
  - (* PushSelDownAggregation *)
    open2 H. split; [by eexists|intros _].
    destruct (GetOperand_Selection node Hop) as [sel ->].
    destruct (GetOperand_Aggregation node0 Hop0) as [aggr ->].
    destruct (GroupExpr.Children ge0) as [|x [|]] eqn:Hx; try done.
    apply Forall_singleton in Hch as [cg Hcg].
    unfold PushSelDownAggregation_OnTransform. run.
    destruct (decide _); [returns|].
    run. destruct (decide _); returns.
  - (* TransformLimitToTopN *)
    open2 H. split; [by eexists|intros _].
    destruct (GetOperand_Limit node Hop) as [limit ->].
    destruct (GetOperand_Sort node0 Hop0) as [sort ->].
    destruct (GroupExpr.Children ge0) as [|x [|]] eqn:Hx; try done.
    unfold TransformLimitToTopN_OnTransform. returns.
  - (* PushSelDownJoin *)
    split; [by eexists|]. intros Hr. exfalso. apply Hr. apply list_elem_of_here.
  - (* EliminateProjection *)
    apply Matched_unary in H as (e & ge & node & gr1 & c0 & HB & Hits & Hgs & Hc); [|done..].
    apply Matched_any in Hc as [cg Hcg].
    pose proof HB as [Hg He Hge Hm Ho Hn Hop Ha Hcs].
    split; [by eexists|intros _].
    unfold EliminateProjection_OnTransform. run.
    destruct (decide _); [returns|]. destruct (forallb _ _); returns.
  - (* MergeAdjacentProjection *)
    split; [by eexists|]. intros Hr. exfalso. apply Hr.
    apply list_elem_of_further, list_elem_of_here.
  - (* PushTopNDownProjection *)
    open2 H.
    destruct (GetOperand_TopN node Hop) as [topN ->].
    destruct (GetOperand_Projection node0 Hop0) as [proj ->].
    destruct (GroupExpr.Children ge0) as [|x [|]] eqn:Hx; try done.
    apply Forall_singleton in Hch as [cg Hcg].
    split.
    { unfold PushTopNDownProjection_Match. run. destruct (existsb _ _); by eexists. }
    intros _. unfold PushTopNDownProjection_OnTransform. run.
    destruct (removeConstLoop _ _ _) as [newByItems [items|]]; returns.
  - (* MergeAggregationProjection *)
    open2 H.
    destruct (GetOperand_Aggregation node Hop) as [aggr ->].
    destruct (GetOperand_Projection node0 Hop0) as [child ->].
    split.
    { unfold MergeAggregationProjection_Match. run.
      destruct (ExprsHasSideEffects X _); by eexists. }
    intros Hr. exfalso. apply Hr.
    do 2 apply list_elem_of_further. apply list_elem_of_here.
Qed.

(** ** What the rules hand back *)

Lemma freshRoot_extends m0 m1 m2 e :
  extends m1 m2 -> freshRoot m0 m1 e -> freshRoot m0 m2 e.
Proof.
  intros (Hp & He & Hg) (Hlen & ge & node & Hge & Hown & Hn & Har & Hch).
  split; [done|]. exists ge, node.
  split; [by eapply prefix_lookup_Some|]. split; [done|].
  split; [by eapply prefix_lookup_Some|]. split; [done|].
  eapply Forall_impl; [exact Hch|]. intros g [gr Hgr]. exists gr.
  by eapply prefix_lookup_Some.
Qed.

Ltac old_or_new :=
  first [ new_cell
        | simpl; by use_lookups
        | simpl; apply lookup_app_l_Some; eassumption
        | simpl; eapply lookup_written; eassumption
        | simpl; eapply lookup_written_nil; eassumption
        | simpl; rewrite list_lookup_insert_ne by done;
          apply lookup_app_l_Some; eassumption ].

Ltac fresh_roots :=
  intros [= <- <-]; simpl;
  first
    [ by apply Forall_nil
    | apply Forall_singleton; split; [simpl; lia|];
      do 2 eexists;
      split; [new_cell|];
      split; [reflexivity|];
      split; [old_or_new|];
      split; [reflexivity|];
      repeat (apply Forall_cons; split; [eexists; old_or_new|]); by apply Forall_nil ].

Lemma Convert2GroupExpr_fresh gather m e m' :
  Convert2GroupExpr gather m = (Ok e, m') ->
  length (exprs m) <= e /\
  exists ge tg g gr,
    exprs m' !! e = Some ge /\ GroupExpr.Group ge = None /\
    plans m' !! GroupExpr.ExprNode ge = Some (PTiKVSingleGather tg) /\
    GroupExpr.Children ge = [g] /\ groups m' !! g = Some gr.
Proof.
  destruct gather as [[tg scan] s]. unfold Convert2GroupExpr. run.
  intros [= <- <-]. split; [simpl; lia|].
  do 4 eexists. split; [new_cell|]. split; [done|]. split; [new_cell|].
  split; [done|]. new_cell.
Qed.

Lemma EnumeratePaths_loop_fresh gathers acc m0 m es m' :
  Forall (freshRoot m0 m) acc ->
  length (exprs m0) <= length (exprs m) ->
  EnumeratePaths_loop gathers acc m = (Ok es, m') ->
  Forall (freshRoot m0 m') es.
Proof.
  revert acc m. induction gathers as [|gather gathers IH]; intros acc m Hacc Hlen.
  - simpl. unfold ret. by intros [= <- <-].
  - simpl. unfold bind at 1.
    destruct (Convert2GroupExpr gather m) as [[e| |] m1] eqn:Hconv; try done.
    destruct (Convert2GroupExpr_extends _ _ _ _ Hconv)
      as (Hext & ge & g & gr & Hge & Hch & Hgr & Hnew).
    destruct (Convert2GroupExpr_fresh _ _ _ _ Hconv)
      as (He & ge' & tg & g' & gr' & Hge' & Hown & Hn & Hch' & _).
    rewrite Hge in Hge'. injection Hge' as <-.
    rewrite Hch in Hch'. injection Hch' as <-.
    run. apply IH.
    + destruct Hext as (Hp & Hes & [k Hk]).
      assert (extends m (mkMemo (plans m1) (exprs m1)
                (<[g := Group.mk (Group.Equivalents gr) (Group.Schema gr) EngineTiKV]>
                   (groups m1)))) as Hext'.
      { repeat split; simpl; [exact Hp|exact Hes|].
        rewrite Hk, insert_app_r_alt by done. by apply prefix_app_r. }
      apply Forall_app. split.
      * eapply Forall_impl; [exact Hacc|]. intros x. by apply freshRoot_extends.
      * apply Forall_singleton. split; [lia|].
        exists ge, (PTiKVSingleGather tg). simpl.
        split; [done|]. split; [done|]. split; [done|]. rewrite Hch.
        split; [done|]. apply Forall_singleton.
        rewrite list_lookup_insert_eq by (by eapply lookup_lt_Some). by eexists.
    + simpl. destruct Hext as (_ & [k Hk] & _). rewrite Hk, length_app. lia.
Qed.

Lemma PushSelDownJoin_finish_fresh X m0 m jn je j l r gl gr' lc rc res m' :
  exprs m0 = exprs m ->
  plans m !! jn = Some (PJoin j) ->
  GroupExpr.Children je = [l; r] ->
  groups m !! l = Some gl -> groups m !! r = Some gr' ->
  PushSelDownJoin_finish X jn je lc rc m = (Ok res, m') ->
  Forall (freshRoot m0 m') (newExprs res).
Proof.
  intros Hm0 Hj Hch Hl Hr. unfold freshRoot. rewrite Hm0. unfold PushSelDownJoin_finish. run.
  destruct (appendJoinKeys _ j) as [j'|]; [|done].
  unfold buildChildSelectionGroup. run.
  destruct (decide _), (decide _); run; fresh_roots.
Qed.

(** X7. Every rule but EliminateProjection, when it returns on a binding of
    its pattern, hands back only GroupExprs that it has just made: each
    one is a new cell of the memo, belongs to no Group yet, refers to a
    payload of the memo and has as many children as its operand takes,
    all of them Groups of the memo. *)
Theorem rules_return_fresh_roots (X : Collab) (r : Rule) (m : Memo) (old : ExprIter)
    (res : Result) (m' : Memo) :
  r ≠ EliminateProjection ->
  Matched m (GetPattern (NewRule X r)) old = true ->
  OnTransform (NewRule X r) old m = (Ok res, m') ->
  Forall (freshRoot m m') (newExprs res).
Proof.
  intros Hne H Hrun. destruct r; try done; simpl in Hrun.
  - (* PushSelDownTableScan *)
    open2 H.
    destruct (GetOperand_Selection node Hop) as [sel ->].
    destruct (GetOperand_TableScan node0 Hop0) as [ts ->].
    revert Hrun. unfold PushSelDownTableScan_OnTransform. run.
    destruct (LogicalTableScan.Handle ts) as [handle|]; [|fresh_roots].
    destruct (DetachCondsForColumn X _ handle) as [[accesses|] remained]; [|fresh_roots].
    run. destruct (decide _); run; fresh_roots.
  - (* PushSelDownIndexScan *)
    open2 H.
    destruct (GetOperand_Selection node Hop) as [sel ->].
    destruct (GetOperand_IndexScan node0 Hop0) as [idx ->].
    revert Hrun. unfold PushSelDownIndexScan_OnTransform. run.
    destruct (decide _); [fresh_roots|].
    destruct (DetachCondAndBuildRangeForIndex X _ _ _) as [err|rr]; [done|].
    destruct (sameConds X _ _); [fresh_roots|].
    destruct (decide _); run; fresh_roots.
  - (* PushSelDownTiKVSingleGather *)
    apply Matched_unary in H as (e & ge & node & gr1 & c0 & HB & Hits & Hgs & Hc); [|done..].
    apply Matched_unary in Hc as (e0 & ge0 & node0 & gr0 & c00 & HB0 & Hits0 & Hgs0 & Hc0);
      [|done..].
    apply Matched_any in Hc0 as [cg Hcg].
    pose proof HB as [Hg He Hge Hm Ho Hn Hop Ha Hcs].
    pose proof HB0 as [Hg0 He0 Hge0 Hm0 Ho0 Hn0 Hop0 Ha0 Hcs0].
    destruct (GetOperand_Selection node Hop) as [sel ->].
    destruct (GetOperand_TiKVSingleGather node0 Hop0) as [sg ->].
    revert Hrun. unfold PushSelDownTiKVSingleGather_OnTransform. run.
    destruct (ExpressionsToPB X _) as [pushed remained].
    destruct (decide _); [fresh_roots|].
    run. destruct (decide _); run; fresh_roots.
  - (* EnumeratePaths *)
    apply Matched_node in H as (e & ge & node & gr1 & HB); [|done].
    pose proof HB as [Hg He Hge Hm Ho Hn Hop Ha Hcs].
    destruct (GetOperand_DataSource node Hop) as [ds ->].
    revert Hrun. unfold EnumeratePaths_OnTransform. run.
    destruct (EnumeratePaths_loop _ _ m) as [[es| |] m2] eqn:Hloop; try done.
    intros [= <- <-]. simpl.
    eapply EnumeratePaths_loop_fresh; [|done|exact Hloop]. by apply Forall_nil.
  - (* PushAggDownGather *)
    open2 H.
    destruct (GetOperand_Aggregation node Hop) as [agg ->].
    destruct (GetOperand_TiKVSingleGather node0 Hop0) as [tg ->].
    destruct (GroupExpr.Children ge0) as [|x [|]] eqn:Hx; try done.
    apply Forall_singleton in Hch as [cg Hcg].
    revert Hrun. unfold PushAggDownGather_OnTransform. run.
    destruct (BuildFinalModeAggregation X _ _ _) as [[fa fg] ps]. run. fresh_roots.
  - (* PushSelDownSort *)
    open2 H.
    destruct (GetOperand_Selection node Hop) as [sel ->].
    destruct (GetOperand_Sort node0 Hop0) as [sort ->].
    destruct (GroupExpr.Children ge0) as [|x [|]] eqn:Hx; try done.
    apply Forall_singleton in Hch as [cg Hcg].
    revert Hrun. unfold PushSelDownSort_OnTransform. run. fresh_roots.
  - (* PushSelDownProjection *)
    open2 H.
    destruct (GetOperand_Selection node Hop) as [sel ->].
    destruct (GetOperand_Projection node0 Hop0) as [proj ->].
    destruct (GroupExpr.Children ge0) as [|x [|]] eqn:Hx; try done.
    apply Forall_singleton in Hch as [cg Hcg].
    revert Hrun. unfold PushSelDownProjection_OnTransform. run.
    destruct (existsb _ _); [fresh_roots|].
    destruct (decide _); [fresh_roots|].
    run. destruct (decide _); run; fresh_roots.
  - (* PushSelDownAggregation *)
    open2 H.
    destruct (GetOperand_Selection node Hop) as [sel ->].
    destruct (GetOperand_Aggregation node0 Hop0) as [aggr ->].
    destruct (GroupExpr.Children ge0) as [|x [|]] eqn:Hx; try done.
    apply Forall_singleton in Hch as [cg Hcg].
    revert Hrun. unfold PushSelDownAggregation_OnTransform. run.
    destruct (decide _); [fresh_roots|].
    run. destruct (decide _); run; fresh_roots.
  - (* TransformLimitToTopN *)
    open2 H.
    destruct (GetOperand_Limit node Hop) as [limit ->].
    destruct (GetOperand_Sort node0 Hop0) as [sort ->].
    destruct (GroupExpr.Children ge0) as [|x [|]] eqn:Hx; try done.
    apply Forall_singleton in Hch as [cg Hcg].
    revert Hrun. unfold TransformLimitToTopN_OnTransform. run. fresh_roots.
  - (* PushSelDownJoin *)
    open2 H.
    destruct (GetOperand_Selection node Hop) as [sel ->].
    destruct (GetOperand_Join node0 Hop0) as [join ->].
    destruct (GroupExpr.Children ge0) as [|l [|r [|]]] eqn:Hx; try done.
    apply Forall_cons in Hch as [[gl Hgl] Hch]. apply Forall_singleton in Hch as [gr' Hgr'].
    revert Hrun. unfold PushSelDownJoin_OnTransform. run.
    destruct (LogicalJoin.JoinType join).
    + destruct (Conds2TableDual X join _) as [dual|].
      * run. fresh_roots.
      * run. destruct (ExtractOnCondition X join _ _ _) as [[[eqc lp] rp] oc]. run.
        eapply PushSelDownJoin_finish_fresh; [done| |exact Hx|exact Hgl|exact Hgr'].
        simpl. eapply lookup_written_nil. exact Hn0.
    + by eapply PushSelDownJoin_finish_fresh.
    + by eapply PushSelDownJoin_finish_fresh.
  - (* MergeAdjacentProjection *)
    open2 H.
    destruct (GetOperand_Projection node Hop) as [proj ->].
    destruct (GetOperand_Projection node0 Hop0) as [child ->].
    destruct (GroupExpr.Children ge0) as [|x [|]] eqn:Hx; try done.
    apply Forall_singleton in Hch as [cg Hcg].
    revert Hrun. unfold MergeAdjacentProjection_OnTransform. run.
    destruct (ExprsHasSideEffects X _); [fresh_roots|].
    run. destruct (buildReplace X _ _ _ _) as [replace|]; [|done]. run. fresh_roots.
  - (* PushTopNDownProjection *)
    open2 H.
    destruct (GetOperand_TopN node Hop) as [topN ->].
    destruct (GetOperand_Projection node0 Hop0) as [proj ->].
    destruct (GroupExpr.Children ge0) as [|x [|]] eqn:Hx; try done.
    apply Forall_singleton in Hch as [cg Hcg].
    assert (GroupExpr.ExprNode ge ≠ GroupExpr.ExprNode ge0) as Hdiff
      by (intros Heq; rewrite Heq in Hn; congruence).
    revert Hrun. unfold PushTopNDownProjection_OnTransform. run.
    destruct (removeConstLoop _ _ _) as [newByItems [items|]]; run; fresh_roots.
  - (* MergeAggregationProjection *)
    open2 H.
    destruct (GetOperand_Aggregation node Hop) as [aggr ->].
    destruct (GetOperand_Projection node0 Hop0) as [child ->].
    destruct (GroupExpr.Children ge0) as [|x [|]] eqn:Hx; try done.
    apply Forall_singleton in Hch as [cg Hcg].
    revert Hrun. unfold MergeAggregationProjection_OnTransform. run.
    destruct (buildReplace X _ _ _ _) as [replace|]; [|done]. run. fresh_roots.
Qed.

(** ** The loop of PushTopNDownProjection *)

Lemma drop_last {A} (l : list A) (d : A) :
  last l = Some d -> drop (length l - 1) l = [d].
Proof.
  intros [l' ->]%last_Some. rewrite length_app. simpl.
  replace (length l' + 1 - 1) with (length l') by lia.
  by rewrite drop_app_length.
Qed.

Lemma filter_all {A} (P : A -> Prop) `{!forall x, Decision (P x)} (l : list A) :
  length (filter P l) = length l -> filter P l = l.
Proof.
  induction l as [|x l IH]; [done|]. rewrite filter_cons.
  destruct (decide (P x)); simpl.
  - intros [= Hl]. by rewrite IH.
  - intros Hl. pose proof (length_filter P l). lia.
Qed.

Lemma removeConstLoop_closed (pre suf : list ByItems.t) assigned (d : ByItems.t) :
  last (pre ++ suf) = Some d ->
  removeConstLoop (length pre) (pre ++ suf) assigned =
    let keep := filter notConstant pre in
    let final := keep ++ suf ++ replicate (length pre - length keep) d in
    (final,
     if decide (length keep = length pre) then assigned
     else Some (take (length (pre ++ suf) - 1) final)).
Proof.
  revert suf assigned. induction pre as [|x pre IH] using rev_ind; intros suf assigned Hd.
  - simpl. by rewrite app_nil_r.
  - rewrite length_app. simpl. rewrite Nat.add_1_r. simpl.
    rewrite <- app_assoc. simpl. rewrite list_lookup_middle by done.
    pose proof (length_filter notConstant pre) as Hle.
    rewrite filter_app, filter_cons, filter_nil.
    rewrite <- app_assoc in Hd. simpl in Hd.
    destruct (isConstant (ByItems.Expr x)) eqn:Hx.
    + destruct (decide (notConstant x)) as [Hnc|_];
        [unfold notConstant in Hnc; congruence|].
      assert (appendInPlace (length pre) (pre ++ x :: suf) = pre ++ suf ++ [d]) as ->.
      { unfold appendInPlace. rewrite take_app_length.
        rewrite (drop_last _ _ Hd).
        replace (pre ++ x :: suf) with ((pre ++ [x]) ++ suf) by (by rewrite <- app_assoc).
        replace (S (length pre)) with (length (pre ++ [x]))
          by (rewrite length_app; simpl; lia).
        by rewrite drop_app_length. }
      rewrite IH by (by rewrite !app_assoc, last_snoc).
      simpl. rewrite app_nil_r.
      replace (S (length pre) - length (filter notConstant pre))
        with (S (length pre - length (filter notConstant pre))) by lia.
      simpl. rewrite <- !app_assoc. simpl. f_equal.
      assert (length (pre ++ suf ++ [d]) = length (pre ++ x :: suf)) as Hlen
        by (rewrite ?length_app; simpl; rewrite ?length_app; simpl; lia).
      destruct (decide (length (filter notConstant pre) = S (length pre))); [lia|].
      destruct (decide (length (filter notConstant pre) = length pre)) as [Heq|Hneq].
      * rewrite Heq, Nat.sub_diag. simpl. by rewrite (filter_all _ _ Heq).
      * by rewrite Hlen.
    + destruct (decide (notConstant x)) as [_|Hnc]; [|by destruct Hnc].
      rewrite IH by done. simpl.
      replace (S (length pre) - length (filter notConstant pre ++ [x]))
        with (length pre - length (filter notConstant pre))
        by (rewrite length_app; simpl; lia).
      rewrite <- !app_assoc. simpl. f_equal.
      destruct (decide (length (filter notConstant pre) = length pre)),
        (decide (length (filter notConstant pre ++ [x]) = S (length pre))) as [Hq|Hq];
        try done; rewrite length_app in Hq; simpl in Hq; lia.
Qed.

Lemma removeConstLoop_whole (arr : list ByItems.t) :
  removeConstLoop (length arr) arr None =
    (withoutConstants arr,
     if decide (Forall notConstant arr) then None
     else Some (take (length arr - 1) (withoutConstants arr))) /\
  length (withoutConstants arr) = length arr.
Proof.
  unfold withoutConstants.
  pose proof (length_filter notConstant arr) as Hle.
  destruct (last arr) as [d|] eqn:Hd.
  - split; [|rewrite length_app, length_replicate; lia].
    pose proof (removeConstLoop_closed arr [] None d) as H.
    rewrite app_nil_r in H. rewrite (H Hd). simpl. f_equal.
    destruct (decide (length (filter notConstant arr) = length arr)) as [Heq|Hneq];
      destruct (decide (Forall notConstant arr)) as [Hall|Hnall]; try done.
    + destruct Hnall. rewrite <- (filter_all _ _ Heq). apply Forall_forall. intros x Hx.
      by apply list_elem_of_filter in Hx as [? _].
    + destruct Hneq. clear -Hall.
      induction Hall as [|x l Hx _ IH]; [done|]. rewrite filter_cons.
      destruct (decide (notConstant x)); [|done]. simpl. by rewrite IH.
  - apply last_None in Hd as ->. simpl. split; [|done].
    by destruct (decide (Forall notConstant [])) as [|[]].
Qed.

(** X9. The loop "remove meaningless constant sort items", run over a whole
    array, leaves in the array the items that are not constants, in
    order, followed by copies of the last item: the array keeps its
    length. It assigns to the sort items of the matched TopN only if some
    item is a constant, and then all of the array but its last place. *)
Theorem removeConstLoop_spec (arr : list ByItems.t) :
  removeConstLoop (length arr) arr None =
    (withoutConstants arr,
     if decide (Forall notConstant arr) then None
     else Some (take (length arr - 1) (withoutConstants arr))) /\
  length (withoutConstants arr) = length arr.
Proof. apply removeConstLoop_whole. Qed.


(** X10. On every binding [TopN -> Projection -> X], PushTopNDownProjection
    returns one new GroupExpr that supersedes the matched one: the
    payload of the matched Projection, shared, over a new Group of X's
    schema whose member is a new TopN over X. The new TopN has the offset
    and the count of the matched one and as many sort items as it: the
    items substituted through the projection that are not constants,
    then copies of the last one. When a substituted item is a constant,
    the sort items of the matched TopN are overwritten with all of these
    but the last; otherwise the matched TopN is as it was. *)
Theorem PushTopNDownProjection_contract (X : Collab) (m : Memo) (old : ExprIter) :
  Matched m PushTopNDownProjection_Pattern old = true ->
  exists topNExpr0 topN c0 projExpr0 proj pg x cg,
    boundExpr m old = Some topNExpr0 /\
    boundNode m old = Some (PTopN topN) /\
    itChildren old = [c0] /\
    boundExpr m c0 = Some projExpr0 /\
    boundNode m c0 = Some (PProjection proj) /\
    groups m !! itGroup c0 = Some pg /\
    GroupExpr.Children projExpr0 = [x] /\
    groups m !! x = Some cg /\
    let byItems :=
      map (fun item => ByItems.mk
                      (ColumnSubstitute X (ByItems.Expr item) (Group.Schema pg)
                         (LogicalProjection.Exprs proj))
                      (ByItems.Desc item))
        (LogicalTopN.ByItems topN) in
    let newTopN :=
      PTopN (LogicalTopN.mk (withoutConstants byItems)
               (LogicalTopN.Offset topN) (LogicalTopN.Count topN)) in
    length (withoutConstants byItems) = length (LogicalTopN.ByItems topN) /\
    OnTransform (NewRulePushTopNDownProjection X) old m =
      (Ok (mkResult [length (exprs m)] true false),
       mkMemo
         ((if decide (Forall notConstant byItems) then plans m
           else <[GroupExpr.ExprNode topNExpr0 :=
                    PTopN (LogicalTopN.mk
                             (take (length byItems - 1) (withoutConstants byItems))
                             (LogicalTopN.Offset topN) (LogicalTopN.Count topN))]>
                  (plans m)) ++ [newTopN])
         (exprs m ++
            [GroupExpr.mk (GroupExpr.ExprNode projExpr0) [length (groups m)] None;
             GroupExpr.mk (length (plans m)) [x] (Some (length (groups m)))])
         (groups m ++ [Group.mk [length (exprs m) + 1] (Group.Schema cg) EngineTiDB])).
Proof.
  intros H. open2 H.
  destruct (GetOperand_TopN node Hop) as [topN ->].
  destruct (GetOperand_Projection node0 Hop0) as [proj ->].
  destruct (GroupExpr.Children ge0) as [|x [|]] eqn:Hx; try done.
  apply Forall_singleton in Hch as [cg Hcg].
  destruct (BoundNode_boundNode _ _ _ _ _ _ _ HB) as [? ?].
  destruct (BoundNode_boundNode _ _ _ _ _ _ _ HB0) as [? ?].
  exists ge, topN, c0, ge0, proj, gr0, x, cg.
  do 8 (split; [done|]). intros byItems newTopN.
  destruct (removeConstLoop_whole byItems) as [Hloop Hlen].
  split; [by rewrite Hlen; unfold byItems; rewrite length_map|].
  simpl. unfold PushTopNDownProjection_OnTransform. run.
  fold byItems. rewrite Hloop.
  destruct (decide (Forall notConstant byItems)); run; try done.
  by rewrite insert_app_l by (by eapply lookup_lt_Some).
Qed.

(** ** EliminateProjection *)

Lemma Column_Equal_zip_refl (l : Schema) :
  forallb (fun '(col, oldCol) => Column_Equal col oldCol) (zip l l) = true.
Proof.
  induction l as [|a l IH]; [done|]. simpl. rewrite IH.
  unfold Column_Equal. by rewrite bool_decide_eq_true_2.
Qed.

(** X11. On every binding [Projection -> X], EliminateProjection leaves the
    memo as it was; it rewrites exactly when the Group of the projection
    and the Group of X have the same schema, column by column, and then
    it hands back the members of X's Group, all of them, to supersede the
    projection. *)
Theorem EliminateProjection_contract (X : Collab) (m : Memo) (old : ExprIter) :
  Matched m EliminateProjection_Pattern old = true ->
  exists c gr cg,
    itChildren old = [c] /\
    groups m !! itGroup old = Some gr /\
    groups m !! itGroup c = Some cg /\
    OnTransform (NewRule X EliminateProjection) old m =
      (Ok (if decide (Group.Schema cg = Group.Schema gr)
           then mkResult (Group.Equivalents cg) true false
           else noRewrite), m).
Proof.
  intros H.
  apply Matched_unary in H as (e & ge & node & gr1 & c0 & HB & Hits & Hgs & Hc); [|done..].
  apply Matched_any in Hc as [cg Hcg].
  pose proof HB as [Hg He Hge Hm Ho Hn Hop Ha Hcs].
  exists c0, gr1, cg. do 3 (split; [done|]).
  simpl. unfold EliminateProjection_OnTransform. run.
  destruct (decide (Group.Schema cg = Group.Schema gr1)) as [Heq|Hneq].
  - rewrite Heq. destruct (decide _) as [Hlen|_]; [done|].
    by rewrite Column_Equal_zip_refl.
  - destruct (decide _) as [Hlen|Hlen]; [done|].
    destruct (forallb _ _) eqn:Hall; [|done].
    destruct Hneq. apply Column_Equal_zip; [|done].
    destruct (decide (length (Group.Schema cg) = length (Group.Schema gr1))); [done|].
    by destruct Hlen.
Qed.

(** ** No predicate is lost below a Sort or an Aggregation *)

Lemma newPredicates_new d m m' (e : ptr) ge :
  length (exprs m) <= e -> exprs m' !! e = Some ge ->
  newPredicates (S d) m m' e =
    from_option condsOfPlan [] (plans m' !! GroupExpr.ExprNode ge) ++
    flat_map
      (fun g => match groups m' !! g with
                | None => []
                | Some gr => flat_map (newPredicates d m m') (Group.Equivalents gr)
                end)
      (GroupExpr.Children ge).
Proof.
  intros Hle Hge. cbn [newPredicates]. destruct (decide _); [lia|]. by rewrite Hge.
Qed.

Lemma newPredicates_old d m m' (l : list ptr) :
  Forall (fun e => e < length (exprs m)) l ->
  flat_map (newPredicates d m m') l = [].
Proof.
  induction 1 as [|e l He _ IH]; [done|]. simpl. rewrite IH, app_nil_r.
  destruct d; [done|]. cbn [newPredicates]. by destruct (decide _).
Qed.

Lemma membersOwned_old m g gr :
  membersOwned m -> groups m !! g = Some gr ->
  Forall (fun e => e < length (exprs m)) (Group.Equivalents gr).
Proof.
  intros Hown Hg. apply Forall_forall. intros e He.
  destruct (Hown _ _ _ Hg He) as (ge & Hge & _). by eapply lookup_lt_Some.
Qed.

Arguments newPredicates : simpl never.

Ltac np_new :=
  erewrite newPredicates_new; [|simpl; lia|new_cell]; simpl.

(** X12. When PushSelDownSort or PushSelDownAggregation rewrites a binding
    in a memo whose Groups hold cells of the memo, the Selections of the
    replacement hold the conditions of the matched Selection, each one
    once: none is lost, none is added. *)
Theorem selection_pushdown_conserves (X : Collab) (r : Rule) (m : Memo) (old : ExprIter)
    (sel : LogicalSelection.t) (res : Result) (m' : Memo) (d : nat) :
  r ∈ [PushSelDownSort; PushSelDownAggregation] ->
  membersOwned m ->
  Matched m (GetPattern (NewRule X r)) old = true ->
  boundNode m old = Some (PSelection sel) ->
  OnTransform (NewRule X r) old m = (Ok res, m') ->
  3 <= d ->
  res = noRewrite \/
  exists e, newExprs res = [e] /\
            newPredicates d m m' e ≡ₚ LogicalSelection.Conditions sel.
Proof.
  intros Hr Hown H Hsel Hrun Hd.
  destruct d as [|[|[|d]]]; try lia. clear Hd.
  apply elem_of_cons in Hr as [->|Hr]; [|apply list_elem_of_singleton in Hr as ->].
  - (* PushSelDownSort *)
    simpl in Hrun. open2 H.
    destruct (BoundNode_boundNode _ _ _ _ _ _ _ HB) as [_ Hn'].
    rewrite Hn' in Hsel. injection Hsel as ->.
    destruct (GetOperand_Sort node0 Hop0) as [sort ->].
    destruct (GroupExpr.Children ge0) as [|x [|]] eqn:Hx; try done.
    apply Forall_singleton in Hch as [cg Hcg].
    pose proof (membersOwned_old _ _ _ Hown Hcg) as Hold.
    revert Hrun. unfold PushSelDownSort_OnTransform. run.
    intros [= <- <-]. right. eexists. split; [done|].
    np_new. run. np_new. run. rewrite newPredicates_old by done.
    by rewrite !app_nil_r.
  - (* PushSelDownAggregation *)
    simpl in Hrun. open2 H.
    destruct (BoundNode_boundNode _ _ _ _ _ _ _ HB) as [_ Hn'].
    rewrite Hn' in Hsel. injection Hsel as ->.
    destruct (GetOperand_Aggregation node0 Hop0) as [aggr ->].
    destruct (GroupExpr.Children ge0) as [|x [|]] eqn:Hx; try done.
    apply Forall_singleton in Hch as [cg Hcg].
    pose proof (membersOwned_old _ _ _ Hown Hcg) as Hold.
    revert Hrun. unfold PushSelDownAggregation_OnTransform. run.
    destruct (decide _) as [|Hpush]; [intros [= <- <-]; by left|].
    run. destruct (decide _) as [Htop|Htop]; run;
      intros [= <- <-]; right; (eexists; split; [done|]).
    + np_new. run. np_new. run. rewrite newPredicates_old by done.
      rewrite !app_nil_r.
      rewrite <- (split_conserves
                   (containCol X (aggrNoGroupBySchema (Group.Schema gr0)
                                    (GetGroupByCols X aggr)))
                   (LogicalSelection.Conditions sel)) at 2.
      apply length_zero_iff_nil in Htop. by rewrite Htop, app_nil_r.
    + np_new. run. np_new. run. np_new. run. rewrite newPredicates_old by done.
      rewrite !app_nil_r.
      rewrite <- (split_conserves
                   (containCol X (aggrNoGroupBySchema (Group.Schema gr0)
                                    (GetGroupByCols X aggr)))
                   (LogicalSelection.Conditions sel)) at 3.
      apply Permutation_app_comm.
Qed.

(** X13. When PushSelDownTableScan, PushSelDownIndexScan or
    PushSelDownTiKVSingleGather rewrites a binding, and the range layer
    and the storage-tier classifier split the conditions they are given,
    the replacement holds the conditions of the matched Selection and
    the access conditions of the matched scan, each one once. *)
Theorem storage_pushdown_conserves (X : Collab) (r : Rule) (m : Memo) (old : ExprIter)
    (sel : LogicalSelection.t) (below : LogicalPlan) (res : Result) (m' : Memo) (d : nat) :
  splitsConditions X ->
  r ∈ [PushSelDownTableScan; PushSelDownIndexScan; PushSelDownTiKVSingleGather] ->
  membersOwned m ->
  Matched m (GetPattern (NewRule X r)) old = true ->
  boundNode m old = Some (PSelection sel) ->
  childNode m old = Some below ->
  OnTransform (NewRule X r) old m = (Ok res, m') ->
  3 <= d ->
  res = noRewrite \/
  exists e, newExprs res = [e] /\
            newPredicates d m m' e ≡ₚ LogicalSelection.Conditions sel ++ condsOfPlan below.
Proof.
  intros (Hts & Hidx & Hpb) Hr Hown H Hsel Hbelow Hrun Hd.
  destruct d as [|[|[|d]]]; try lia. clear Hd.
  apply elem_of_cons in Hr as [->|Hr];
    [|apply elem_of_cons in Hr as [->|Hr]; [|apply list_elem_of_singleton in Hr as ->]].
  - (* PushSelDownTableScan *)
    simpl in Hrun. open2 H.
    destruct (BoundNode_boundNode _ _ _ _ _ _ _ HB) as [_ Hn'].
    rewrite Hn' in Hsel. injection Hsel as ->.
    destruct (BoundNode_boundNode _ _ _ _ _ _ _ HB0) as [_ Hn0'].
    unfold childNode in Hbelow. rewrite Hits in Hbelow. simpl in Hbelow.
    rewrite Hn0' in Hbelow. injection Hbelow as <-.
    destruct (GetOperand_TableScan node0 Hop0) as [ts ->].
    revert Hrun. unfold PushSelDownTableScan_OnTransform. run.
    destruct (LogicalTableScan.Handle ts) as [handle|]; [|intros [= <- <-]; by left].
    destruct (DetachCondsForColumn X _ handle) as [[accesses|] remained] eqn:Hdet;
      [|intros [= <- <-]; by left].
    apply Hts in Hdet.
    run. destruct (decide _) as [Hrem|Hrem]; run;
      intros [= <- <-]; right; (eexists; split; [done|]).
    + np_new. run. rewrite app_nil_r.
      apply length_zero_iff_nil in Hrem. subst remained. rewrite app_nil_r in Hdet.
      rewrite <- Hdet. apply Permutation_app_comm.
    + np_new. run. np_new. run. rewrite !app_nil_r.
      rewrite <- Hdet.
      rewrite (Permutation_app_comm accesses remained), <- app_assoc.
      apply Permutation_app_head, Permutation_app_comm.
  - (* PushSelDownIndexScan *)
    simpl in Hrun. open2 H.
    destruct (BoundNode_boundNode _ _ _ _ _ _ _ HB) as [_ Hn'].
    rewrite Hn' in Hsel. injection Hsel as ->.
    destruct (BoundNode_boundNode _ _ _ _ _ _ _ HB0) as [_ Hn0'].
    unfold childNode in Hbelow. rewrite Hits in Hbelow. simpl in Hbelow.
    rewrite Hn0' in Hbelow. injection Hbelow as <-.
    destruct (GetOperand_IndexScan node0 Hop0) as [idx ->].
    revert Hrun. unfold PushSelDownIndexScan_OnTransform. run.
    destruct (decide _); [intros [= <- <-]; by left|].
    destruct (DetachCondAndBuildRangeForIndex X _ _ _) as [err|rr] eqn:Hdet; [done|].
    apply Hidx in Hdet.
    destruct (sameConds X _ _); [intros [= <- <-]; by left|].
    destruct (decide _) as [Hrem|Hrem]; run;
      intros [= <- <-]; right; (eexists; split; [done|]).
    + np_new. run. rewrite app_nil_r.
      apply length_zero_iff_nil in Hrem. rewrite Hrem, app_nil_r in Hdet. done.
    + np_new. run. np_new. run. rewrite !app_nil_r.
      rewrite <- Hdet. apply Permutation_app_comm.
  - (* PushSelDownTiKVSingleGather *)
    simpl in Hrun.
    apply Matched_unary in H as (e & ge & node & gr1 & c0 & HB & Hits & Hgs & Hc); [|done..].
    apply Matched_unary in Hc as (e0 & ge0 & node0 & gr0 & c00 & HB0 & Hits0 & Hgs0 & Hc0);
      [|done..].
    apply Matched_any in Hc0 as [cg Hcg].
    pose proof HB as [Hg He Hge Hm Ho Hn Hop Ha Hcs].
    pose proof HB0 as [Hg0 He0 Hge0 Hm0 Ho0 Hn0 Hop0 Ha0 Hcs0].
    destruct (BoundNode_boundNode _ _ _ _ _ _ _ HB) as [_ Hn'].
    rewrite Hn' in Hsel. injection Hsel as ->.
    destruct (BoundNode_boundNode _ _ _ _ _ _ _ HB0) as [_ Hn0'].
    unfold childNode in Hbelow. rewrite Hits in Hbelow. simpl in Hbelow.
    rewrite Hn0' in Hbelow. injection Hbelow as <-.
    destruct (GetOperand_TiKVSingleGather node0 Hop0) as [sg ->].
    pose proof (membersOwned_old _ _ _ Hown Hcg) as Hold.
    revert Hrun. unfold PushSelDownTiKVSingleGather_OnTransform. run.
    destruct (ExpressionsToPB X _) as [pushed remained] eqn:Hsplit.
    apply Hpb in Hsplit.
    destruct (decide _); [intros [= <- <-]; by left|].
    run. destruct (decide _) as [Hrem|Hrem]; run;
      intros [= <- <-]; right; (eexists; split; [done|]).
    + np_new. run. np_new. run. rewrite newPredicates_old by done.
      rewrite !app_nil_r.
      apply length_zero_iff_nil in Hrem. subst remained. by rewrite app_nil_r in Hsplit.
    + np_new. run. np_new. run. np_new. run. rewrite newPredicates_old by done.
      rewrite !app_nil_r. rewrite <- Hsplit. apply Permutation_app_comm.
Qed.

(** X14. When PushSelDownProjection rewrites a binding, the Selections of the
    replacement hold one condition for each condition of the matched
    Selection: the condition itself, above the projection, when it reads
    or writes a session variable, and otherwise, below the projection,
    the condition with the columns of the projection's Group replaced by
    the expressions of the projection. The memo the rule leaves says
    where each one is: a new Selection with the replaced conditions, in
    a new Group of the schema of the Group below the projection, under a
    new GroupExpr that shares the payload of the projection; and, when
    some condition stays, that GroupExpr in a new Group of the
    projection's schema under a new Selection with the conditions that
    stay, which is then the GroupExpr returned. *)
Theorem projection_pushdown_conserves (X : Collab) (m : Memo) (old c : ExprIter)
    (sel : LogicalSelection.t) (proj : LogicalProjection.t) (pg : Group.t)
    (res : Result) (m' : Memo) (d : nat) :
  membersOwned m ->
  Matched m PushSelDownProjection_Pattern old = true ->
  boundNode m old = Some (PSelection sel) ->
  itChildren old = [c] ->
  boundNode m c = Some (PProjection proj) ->
  groups m !! itGroup c = Some pg ->
  OnTransform (NewRule X PushSelDownProjection) old m = (Ok res, m') ->
  3 <= d ->
  let below :=
    map (fun cond => ColumnSubstitute X cond (Group.Schema pg)
                       (LogicalProjection.Exprs proj))
      (filter (fun cond => HasGetSetVarFunc X cond = false)
         (LogicalSelection.Conditions sel)) in
  let above :=
    filter (fun cond => HasGetSetVarFunc X cond = true)
      (LogicalSelection.Conditions sel) in
  res = noRewrite \/
  exists projExpr x cg,
    boundExpr m c = Some projExpr /\
    GroupExpr.Children projExpr = [x] /\
    groups m !! x = Some cg /\
    below <> [] /\
    let belowSel := GroupExpr.mk (length (plans m)) [x] (Some (length (groups m))) in
    let belowGroup := Group.mk [length (exprs m)] (Group.Schema cg) EngineTiDB in
    (res, m') =
      match above with
      | [] =>
        (mkResult [length (exprs m) + 1] true false,
         mkMemo
           (plans m ++ [PSelection (LogicalSelection.mk below)])
           (exprs m ++
              [belowSel;
               GroupExpr.mk (GroupExpr.ExprNode projExpr) [length (groups m)] None])
           (groups m ++ [belowGroup]))
      | _ :: _ =>
        (mkResult [length (exprs m) + 2] true false,
         mkMemo
           (plans m ++ [PSelection (LogicalSelection.mk below);
                        PSelection (LogicalSelection.mk above)])
           (exprs m ++
              [belowSel;
               GroupExpr.mk (GroupExpr.ExprNode projExpr) [length (groups m)]
                 (Some (length (groups m) + 1));
               GroupExpr.mk (length (plans m) + 1) [length (groups m) + 1] None])
           (groups m ++
              [belowGroup;
               Group.mk [length (exprs m) + 1] (Group.Schema pg) EngineTiDB]))
      end /\
    exists e, newExprs res = [e] /\
      newPredicates d m m' e ≡ₚ
        map (fun cond => if HasGetSetVarFunc X cond then cond
                         else ColumnSubstitute X cond (Group.Schema pg)
                                (LogicalProjection.Exprs proj))
          (LogicalSelection.Conditions sel).
Proof.
  intros Hown H Hsel Hchild Hproj Hpg Hrun Hd below above.
  destruct d as [|[|[|d]]]; try lia. clear Hd.
  simpl in Hrun. open2 H.
  rewrite Hits in Hchild. injection Hchild as <-.
  destruct (BoundNode_boundNode _ _ _ _ _ _ _ HB) as [_ Hn'].
  rewrite Hn' in Hsel. injection Hsel as ->.
  destruct (BoundNode_boundNode _ _ _ _ _ _ _ HB0) as [Hbe0 Hn0'].
  rewrite Hn0' in Hproj. injection Hproj as ->.
  rewrite Hg0 in Hpg. injection Hpg as ->.
  destruct (GroupExpr.Children ge0) as [|x [|]] eqn:Hx; try done.
  apply Forall_singleton in Hch as [cg Hcg].
  pose proof (membersOwned_old _ _ _ Hown Hcg) as Hold.
  revert Hrun. unfold PushSelDownProjection_OnTransform. run.
  destruct (existsb _ _); [intros [= <- <-]; by left|].
  fold below above.
  destruct (decide _) as [|Hpush]; [intros [= <- <-]; by left|].
  assert (below <> []) as Hbelow by (by intros Hnil; rewrite Hnil in Hpush).
  run. fold below above. destruct (decide _) as [Htop|Htop]; run; fold below above;
    intros [= <- <-]; right; exists ge0, x, cg; (do 4 (split; [done|])).
  - apply length_zero_iff_nil in Htop. rewrite Htop. split; [done|].
    eexists. split; [done|].
    np_new. run. np_new. run. rewrite newPredicates_old by done.
    rewrite !app_nil_r.
    rewrite <- (PushSelDownProjection_conserves X (Group.Schema pg)
                  (LogicalProjection.Exprs proj) (LogicalSelection.Conditions sel)).
    fold below above. by rewrite Htop, app_nil_r.
  - destruct above as [|a above'] eqn:Habove; [done|]. split; [done|].
    eexists. split; [done|].
    np_new. run. np_new. run. np_new. run. rewrite newPredicates_old by done.
    rewrite !app_nil_r.
    rewrite <- (PushSelDownProjection_conserves X (Group.Schema pg)
                  (LogicalProjection.Exprs proj) (LogicalSelection.Conditions sel)).
    fold below. unfold above in Habove. rewrite Habove.
    apply (Permutation_app_comm (a :: above') below).
Qed.

(** ** The schema test of PushSelDownAggregation *)





(** ** Join keys *)

Lemma appendJoinKeys_Some eqs join :
  Forall columnEquality eqs ->
  appendJoinKeys eqs join = Some (withKeys join (leftKeys eqs) (rightKeys eqs)).
Proof.
  intros Hwf. revert join. induction Hwf as [|f eqs (a & b & rest & Hf) _ IH]; intros join.
  - destruct join. unfold withKeys. simpl. by rewrite !app_nil_r.
  - simpl. rewrite Hf. simpl. rewrite IH. unfold withKeys, leftKeys, rightKeys. simpl.
    by rewrite <- !app_assoc.
Qed.

Lemma appendJoinKeys_is_Some eqs join :
  is_Some (appendJoinKeys eqs join) <-> Forall columnEquality eqs.
Proof.
  split; [|intros H; rewrite appendJoinKeys_Some by done; by eexists].
  revert join. induction eqs as [|f eqs IH]; intros join; [by constructor|].
  simpl. destruct (GetArgs f) as [|[a| |] [|[b| |] rest]] eqn:Hf; simpl;
    try (by intros [? ?]).
  intros Hsome. constructor; [by exists a, b, rest|]. by eapply IH.
Qed.

(** X16. On a binding [Selection -> Join] (for an inner join, one whose
    conditions are not a constant contradiction), PushSelDownJoin returns
    exactly when every equal condition of the join, as the rule has set
    them, compares a column with a column; otherwise the type assertion
    on its arguments stops the rule. *)
Theorem PushSelDownJoin_asserts_column_equalities (X : Collab) (m : Memo)
    (old c : ExprIter) (sel : LogicalSelection.t) (joinExpr : GroupExpr.t)
    (join : LogicalJoin.t) (l r : ptr) (lg rg : Group.t) :
  Matched m PushSelDownJoin_Pattern old = true ->
  boundNode m old = Some (PSelection sel) ->
  itChildren old = [c] ->
  boundExpr m c = Some joinExpr ->
  plans m !! GroupExpr.ExprNode joinExpr = Some (PJoin join) ->
  GroupExpr.Children joinExpr = [l; r] ->
  groups m !! l = Some lg ->
  groups m !! r = Some rg ->
  (LogicalJoin.JoinType join = InnerJoin ->
   Conds2TableDual X join (combinedCond X join sel) = None) ->
  let eqs :=
    match LogicalJoin.JoinType join with
    | InnerJoin =>
      (ExtractOnCondition X join (combinedCond X join sel)
         (Group.Schema lg) (Group.Schema rg)).1.1.1
    | _ => LogicalJoin.EqualConditions join
    end in
  (Forall columnEquality eqs /\
   exists res m', OnTransform (NewRule X PushSelDownJoin) old m = (Ok res, m')) \/
  (~ Forall columnEquality eqs /\
   exists m', OnTransform (NewRule X PushSelDownJoin) old m = (Panic, m')).
Proof.
  intros H Hsel Hchild Hje Hjoin Hlr Hlg Hrg Hdual eqs.
  open2 H.
  rewrite Hits in Hchild. injection Hchild as <-.
  destruct (BoundNode_boundNode _ _ _ _ _ _ _ HB) as [_ Hn'].
  rewrite Hn' in Hsel. injection Hsel as ->.
  destruct (BoundNode_boundNode _ _ _ _ _ _ _ HB0) as [He0' _].
  rewrite He0' in Hje. injection Hje as ->.
  rewrite Hn0 in Hjoin. injection Hjoin as ->.
  assert (forall j lc rc m1,
            exprs m1 = exprs m -> groups m1 = groups m ->
            plans m1 !! GroupExpr.ExprNode joinExpr = Some (PJoin j) ->
            (Forall columnEquality (LogicalJoin.EqualConditions j) /\
             exists res m', PushSelDownJoin_finish X (GroupExpr.ExprNode joinExpr)
                              joinExpr lc rc m1 = (Ok res, m')) \/
            (~ Forall columnEquality (LogicalJoin.EqualConditions j) /\
             exists m', PushSelDownJoin_finish X (GroupExpr.ExprNode joinExpr)
                          joinExpr lc rc m1 = (Panic, m'))) as Hfinish.
  { intros j lc rc m1 Hes Hgs1 Hj. unfold PushSelDownJoin_finish. run.
    destruct (appendJoinKeys _ j) as [j'|] eqn:Hkeys.
    - left. split; [apply (appendJoinKeys_is_Some _ j); by eexists|].
      unfold buildChildSelectionGroup. run. rewrite Hgs1.
      destruct (decide _), (decide _); run; by do 2 eexists.
    - right. split; [|by eexists].
      intros Hwf. apply (appendJoinKeys_is_Some _ j) in Hwf as [? Hwf]. congruence. }
  simpl. unfold PushSelDownJoin_OnTransform. run. subst eqs.
  destruct (LogicalJoin.JoinType join) eqn:Hjt.
  - rewrite (Hdual eq_refl). run.
    destruct (ExtractOnCondition X join _ _ _) as [[[eqc lp] rp] oc]. run.
    apply (Hfinish (LogicalJoin.mk InnerJoin [] [] eqc oc
                      (LogicalJoin.LeftJoinKeys join) (LogicalJoin.RightJoinKeys join)));
      [done..|].
    simpl. eapply lookup_written_nil. exact Hn0.
  - by apply (Hfinish join).
  - by apply (Hfinish join).
Qed.

Ltac rerun := repeat (try unfold_prims; use_lookups; norm_memo).

Lemma joinKeys_length eqs :
  Forall columnEquality eqs ->
  length (leftKeys eqs) = length eqs /\ length (rightKeys eqs) = length eqs.
Proof.
  induction 1 as [|f eqs (a & b & rest & Hf) _ [IH1 IH2]]; [done|].
  unfold leftKeys, rightKeys in *. simpl. rewrite Hf. simpl.
  split; f_equal; [exact IH1|exact IH2].
Qed.

(** X17. PushSelDownJoin is not idempotent on the join it matches. On a
    binding [Selection -> Join] whose join is not an inner join (and
    whose equal conditions compare columns), the rule appends one left
    and one right join key for each equal condition to the payload of
    the matched join; applied to the same binding again, it appends the
    same keys once more. *)
Theorem PushSelDownJoin_keys_accumulate (X : Collab) (m : Memo) (old c : ExprIter)
    (joinExpr : GroupExpr.t) (join : LogicalJoin.t) :
  RemoveDupExprs X [] = [] ->
  Matched m PushSelDownJoin_Pattern old = true ->
  itChildren old = [c] ->
  boundExpr m c = Some joinExpr ->
  plans m !! GroupExpr.ExprNode joinExpr = Some (PJoin join) ->
  LogicalJoin.JoinType join ≠ InnerJoin ->
  Forall columnEquality (LogicalJoin.EqualConditions join) ->
  let lk := leftKeys (LogicalJoin.EqualConditions join) in
  let rk := rightKeys (LogicalJoin.EqualConditions join) in
  length lk = length (LogicalJoin.EqualConditions join) /\
  length rk = length (LogicalJoin.EqualConditions join) /\
  exists res1 m1 res2 m2,
    OnTransform (NewRule X PushSelDownJoin) old m = (Ok res1, m1) /\
    plans m1 !! GroupExpr.ExprNode joinExpr = Some (PJoin (withKeys join lk rk)) /\
    OnTransform (NewRule X PushSelDownJoin) old m1 = (Ok res2, m2) /\
    plans m2 !! GroupExpr.ExprNode joinExpr =
      Some (PJoin (withKeys join (lk ++ lk) (rk ++ rk))).
Proof.
  intros Hdup H Hchild Hje Hjoin Houter Hwf lk rk.
  destruct (joinKeys_length _ Hwf) as [Hlk Hrk].
  split; [done|]. split; [done|]. clear Hlk Hrk.
  open2 H.
  rewrite Hits in Hchild. injection Hchild as <-.
  destruct (BoundNode_boundNode _ _ _ _ _ _ _ HB0) as [He0' _].
  rewrite He0' in Hje. injection Hje as ->.
  rewrite Hn0 in Hjoin. injection Hjoin as ->.
  destruct (GetOperand_Selection node Hop) as [sel ->].
  destruct (GroupExpr.Children joinExpr) as [|l [|r [|]]] eqn:Hx; try done.
  assert (GroupExpr.ExprNode ge ≠ GroupExpr.ExprNode joinExpr) as Hdiff
    by (intros Heq; rewrite Heq in Hn; congruence).
  pose proof (lookup_lt_Some _ _ _ Hn0) as Hlt.
  pose proof (appendJoinKeys_Some _ join Hwf) as Hkeys1.
  pose proof (appendJoinKeys_Some _ (withKeys join lk rk) Hwf) as Hkeys2.
  fold lk rk in Hkeys1. simpl in Hkeys2. fold lk rk in Hkeys2.
  assert (withKeys (withKeys join lk rk) lk rk = withKeys join (lk ++ lk) (rk ++ rk))
    as Hwk by (unfold withKeys; simpl; by rewrite <- !app_assoc).
  rewrite Hwk in Hkeys2. clear Hwk.
  eexists _, _, _, _. split; [|split; [|split]].
  - simpl. unfold PushSelDownJoin_OnTransform. run.
    destruct (LogicalJoin.JoinType join) eqn:Hjt; [done| |];
      unfold PushSelDownJoin_finish, buildChildSelectionGroup; run;
      rewrite ?Hkeys1, ?Hdup; run; reflexivity.
  - simpl. by rewrite list_lookup_insert_eq.
  - assert (<[GroupExpr.ExprNode joinExpr := PJoin (withKeys join lk rk)]> (plans m)
              !! GroupExpr.ExprNode ge = Some (PSelection sel)) as Hn1
      by (rewrite list_lookup_insert_ne by done; exact Hn).
    assert (<[GroupExpr.ExprNode joinExpr := PJoin (withKeys join lk rk)]> (plans m)
              !! GroupExpr.ExprNode joinExpr = Some (PJoin (withKeys join lk rk))) as Hj1
      by (by apply list_lookup_insert_eq).
    simpl. unfold PushSelDownJoin_OnTransform. rerun.
    destruct (LogicalJoin.JoinType join) eqn:Hjt; [done| |];
      unfold PushSelDownJoin_finish, buildChildSelectionGroup; rerun;
      rewrite ?Hkeys2, ?Hdup; rerun; reflexivity.
  - simpl. rewrite list_insert_insert_eq. by rewrite list_lookup_insert_eq.
Qed.

(** ** Merging through a projection *)

Lemma buildReplace_is_Some (X : Collab) cols i (childExprs : list Expression) replace :
  is_Some (buildReplace X cols i childExprs replace) <->
  cols = [] \/ i + length cols <= length childExprs.
Proof.
  revert i replace. induction cols as [|col cols IH]; intros i replace; simpl.
  - split; [by left|by eexists].
  - destruct (childExprs !! i) as [e|] eqn:He; simpl.
    + apply lookup_lt_Some in He. rewrite IH. split.
      * intros [->|Hle]; right; simpl; lia.
      * intros [?|Hle]; [done|]. right. lia.
    + apply lookup_ge_None in He. split; [by intros [? ?]|].
      intros [?|Hle]; [done|]. lia.
Qed.

(** X18. MergeAdjacentProjection (when the lower projection has no side
    effect) and MergeAggregationProjection read one expression of the
    lower projection for each column of the schema of its Group: on a
    binding of their pattern they return one new GroupExpr that
    supersedes the matched one when the projection has at least as many
    expressions as that schema has columns, and stop on an index out of
    range, the memo untouched, when it has fewer. *)
Theorem projection_merge_bounds (X : Collab) (r : Rule) (m : Memo) (old c : ExprIter)
    (child : LogicalProjection.t) (cg : Group.t) :
  r ∈ [MergeAdjacentProjection; MergeAggregationProjection] ->
  Matched m (GetPattern (NewRule X r)) old = true ->
  itChildren old = [c] ->
  boundNode m c = Some (PProjection child) ->
  groups m !! itGroup c = Some cg ->
  (r = MergeAdjacentProjection ->
   ExprsHasSideEffects X (LogicalProjection.Exprs child) = false) ->
  (length (Group.Schema cg) <= length (LogicalProjection.Exprs child) /\
   exists e m',
     OnTransform (NewRule X r) old m = (Ok (mkResult [e] true false), m')) \/
  (length (LogicalProjection.Exprs child) < length (Group.Schema cg) /\
   OnTransform (NewRule X r) old m = (Panic, m)).
Proof.
  intros Hr H Hchild Hproj Hcg Hside.
  pose proof (buildReplace_is_Some X (Group.Schema cg) 0
                (LogicalProjection.Exprs child) ∅) as Hbounds.
  apply elem_of_cons in Hr as [->|Hr]; [|apply list_elem_of_singleton in Hr as ->].
  - (* MergeAdjacentProjection *)
    open2 H.
    rewrite Hits in Hchild. injection Hchild as <-.
    destruct (BoundNode_boundNode _ _ _ _ _ _ _ HB0) as [_ Hn0'].
    rewrite Hn0' in Hproj. injection Hproj as ->.
    rewrite Hg0 in Hcg. injection Hcg as ->.
    destruct (GetOperand_Projection node Hop) as [proj ->].
    destruct (GroupExpr.Children ge0) as [|x [|]] eqn:Hx; try done.
    simpl. unfold MergeAdjacentProjection_OnTransform. run.
    rewrite (Hside eq_refl). run.
    destruct (buildReplace X _ _ _ _) as [replace|].
    + left. split.
      * destruct Hbounds as [Hb _]. destruct Hb as [Hnil|Hle]; [by eexists| |lia].
        rewrite Hnil. simpl. lia.
      * run. by do 2 eexists.
    + right. split; [|done].
      destruct (decide (length (LogicalProjection.Exprs child) < length (Group.Schema cg)))
        as [|Hnlt]; [done|].
      destruct Hbounds as [_ Hb]. destruct Hb as [? ?]; [right; lia|done].
  - (* MergeAggregationProjection *)
    open2 H.
    rewrite Hits in Hchild. injection Hchild as <-.
    destruct (BoundNode_boundNode _ _ _ _ _ _ _ HB0) as [_ Hn0'].
    rewrite Hn0' in Hproj. injection Hproj as ->.
    rewrite Hg0 in Hcg. injection Hcg as ->.
    destruct (GetOperand_Aggregation node Hop) as [aggr ->].
    destruct (GroupExpr.Children ge0) as [|x [|]] eqn:Hx; try done.
    simpl. unfold MergeAggregationProjection_OnTransform. run.
    destruct (buildReplace X _ _ _ _) as [replace|].
    + left. split.
      * destruct Hbounds as [Hb _]. destruct Hb as [Hnil|Hle]; [by eexists| |lia].
        rewrite Hnil. simpl. lia.
      * run. by do 2 eexists.
    + right. split; [|done].
      destruct (decide (length (LogicalProjection.Exprs child) < length (Group.Schema cg)))
        as [|Hnlt]; [done|].
      destruct Hbounds as [_ Hb]. destruct Hb as [? ?]; [right; lia|done].
Qed.

(** ** EnumeratePaths *)

Lemma gatherOfPath_extends m m' e path :
  extends m m' -> gatherOfPath m e path -> gatherOfPath m' e path.
Proof.
  intros (Hp & He & Hg) (ge & g & gr & Hge & Hn & Hch & Hgr & Ht & Hs).
  exists ge, g, gr. split; [by eapply prefix_lookup_Some|].
  split; [by eapply prefix_lookup_Some|]. split; [done|].
  split; [by eapply prefix_lookup_Some|]. done.
Qed.

Lemma Convert2GroupExpr_shape tg scan s m e m' :
  Convert2GroupExpr (tg, scan, s) m = (Ok e, m') ->
  exists ge g gr,
    exprs m' !! e = Some ge /\
    plans m' !! GroupExpr.ExprNode ge = Some (PTiKVSingleGather tg) /\
    GroupExpr.Children ge = [g] /\
    groups m' !! g = Some gr /\ Group.Schema gr = s.
Proof.
  unfold Convert2GroupExpr. run. intros [= <- <-].
  do 3 eexists. split; [new_cell|]. split; [new_cell|]. split; [done|].
  split; [new_cell|done].
Qed.

Lemma EnumeratePaths_loop_paths gathers acc m es m' :
  EnumeratePaths_loop gathers acc m = (Ok es, m') ->
  exists new, es = acc ++ new /\ Forall2 (gatherOfPath m') new gathers.
Proof.
  revert acc m. induction gathers as [|gather gathers IH]; intros acc m.
  - simpl. unfold ret. intros [= <- <-]. exists []. by rewrite app_nil_r.
  - simpl. unfold bind at 1.
    destruct (Convert2GroupExpr gather m) as [[e| |] m1] eqn:Hconv; try done.
    destruct gather as [[tg scan] s].
    destruct (Convert2GroupExpr_shape _ _ _ _ _ _ Hconv)
      as (ge & g & gr & Hge & Hn & Hch & Hgr & Hs).
    run. intros Hloop.
    pose proof (EnumeratePaths_loop_extends _ _ _ _ _ Hloop) as Hext.
    apply IH in Hloop as (new & -> & Hnew).
    exists (e :: new). rewrite <- app_assoc. split; [done|].
    constructor; [|done].
    eapply gatherOfPath_extends; [exact Hext|].
    exists ge, g, (Group.mk (Group.Equivalents gr) (Group.Schema gr) EngineTiKV).
    simpl. split; [done|]. split; [done|]. split; [done|].
    split; [|done]. apply list_lookup_insert_eq. by eapply lookup_lt_Some.
Qed.

(** X19. On every binding of a DataSource, EnumeratePaths returns one new
    GroupExpr for each access path of the data source, in their order,
    with [eraseOld = true] also when there is no path: each one is the
    gather of its path over a Group that the rule has put on the storage
    tier, with the schema of the path. *)
Theorem EnumeratePaths_contract (X : Collab) (m : Memo) (old : ExprIter) :
  Matched m EnumeratePaths_Pattern old = true ->
  exists ds es m',
    boundNode m old = Some (PDataSource ds) /\
    OnTransform (NewRule X EnumeratePaths) old m = (Ok (mkResult es true false), m') /\
    Forall2 (gatherOfPath m') es (Convert2Gathers X ds).
Proof.
  intros H.
  apply Matched_node in H as (e & ge & node & gr1 & HB); [|done].
  pose proof HB as [Hg He Hge Hm Ho Hn Hop Ha Hcs].
  destruct (BoundNode_boundNode _ _ _ _ _ _ _ HB) as [_ Hn'].
  destruct (GetOperand_DataSource node Hop) as [ds ->].
  destruct (EnumeratePaths_loop_returns (Convert2Gathers X ds) [] m) as (es & m2 & Hloop).
  exists ds, es, m2. split; [done|].
  destruct (EnumeratePaths_loop_paths _ _ _ _ _ Hloop) as (new & -> & Hnew).
  split; [|done]. simpl. unfold EnumeratePaths_OnTransform. run. by rewrite Hloop.
Qed.

(** ** Bindings survive the rules *)

Lemma Pattern_ind' (P : Pattern -> Prop) :
  (forall o e ps, Forall P ps -> P (mkPattern o e ps)) ->
  forall p, P p.
Proof.
  intros Hp. fix IH 1. intros [o e ps]. apply Hp.
  induction ps as [|p ps IHps]; constructor; [apply IH|apply IHps].
Qed.

Lemma keepsOperands_refl m : keepsOperands m m.
Proof. repeat split; [done..|]. intros i node Hn. by exists node. Qed.

Lemma keepsOperands_trans m1 m2 m3 :
  keepsOperands m1 m2 -> keepsOperands m2 m3 -> keepsOperands m1 m3.
Proof.
  intros (He & Hg & Hp) (He' & Hg' & Hp'). repeat split; [by etrans..|].
  intros i node Hn. destruct (Hp _ _ Hn) as (node' & Hn' & Ho).
  destruct (Hp' _ _ Hn') as (node'' & Hn'' & Ho'). exists node''. split; [done|congruence].
Qed.

Lemma extends_keepsOperands m m' : extends m m' -> keepsOperands m m'.
Proof.
  intros (Hp & He & Hg). repeat split; [done..|].
  intros i node Hn. exists node. split; [by eapply prefix_lookup_Some|done].
Qed.

Lemma Matched_keepsOperands m m' :
  keepsOperands m m' ->
  forall p it, Matched m p it = true -> Matched m' p it = true.
Proof.
  intros (He & Hg & Hp) p. induction p as [o en ps IH] using Pattern_ind'. intros it.
  cbn [Matched patOperand patEngine patChildren].
  destruct (groups m !! itGroup it) as [gr|] eqn:Hgr; [|done].
  assert (groups m' !! itGroup it = Some gr) as -> by (by eapply prefix_lookup_Some).
  intros [Hen H]%andb_prop. rewrite Hen. cbn [andb].
  destruct (decide (o = OperandAny)); [done|].
  destruct (itElement it) as [e|]; [|done].
  destruct (exprs m !! e) as [ge|] eqn:Hge; [|done].
  assert (exprs m' !! e = Some ge) as -> by (by eapply prefix_lookup_Some).
  destruct (plans m !! GroupExpr.ExprNode ge) as [node|] eqn:Hn; [|done].
  destruct (Hp _ _ Hn) as (node' & -> & Ho). rewrite Ho.
  apply andb_prop in H as [H Hch]. apply andb_prop in H as [H Hgs].
  rewrite H. cbn [andb].
  apply andb_true_intro. split.
  - rewrite forallb_forall in Hgs. apply forallb_forall. intros g Hin.
    specialize (Hgs g Hin). apply bool_decide_eq_true_1 in Hgs as [gr' Hgr'].
    apply bool_decide_eq_true_2. exists gr'. by eapply prefix_lookup_Some.
  - destruct ps as [|p1 ps1]; [done|].
    destruct (itChildren it) as [|it' its']; [done|].
    destruct (GroupExpr.Children ge) as [|g gs']; [done|].
    apply Forall_cons in IH as [IH1 IH].
    apply andb_prop in Hch as [[Hg1 Hm1]%andb_prop Hrest].
    rewrite Hg1, (IH1 _ Hm1). cbn [andb].
    clear -IH Hrest. revert its' gs' Hrest.
    induction IH as [|p' ps' IHp' _ IHl]; intros its gs; destruct its, gs; simpl; try done.
    intros [[Hg2 Hm2]%andb_prop Hrest]%andb_prop.
    rewrite Hg2, (IHp' _ Hm2). simpl. by apply IHl.
Qed.

Lemma operand_written (l k : list LogicalPlan) (n : ptr) v node0 :
  l !! n = Some node0 -> GetOperand v = GetOperand node0 ->
  forall (i : ptr) node,
    l !! i = Some node ->
    exists node', (<[n := v]> l ++ k) !! i = Some node' /\
                  GetOperand node' = GetOperand node.
Proof.
  intros Hn Ho i node Hi. destruct (decide (i = n)) as [->|Hne].
  - exists v. split; [|congruence].
    apply lookup_app_l_Some, list_lookup_insert_eq. by eapply lookup_lt_Some.
  - exists node. split; [|done].
    apply lookup_app_l_Some. by rewrite list_lookup_insert_ne.
Qed.

Lemma operand_written_nil (l : list LogicalPlan) (n : ptr) v node0 :
  l !! n = Some node0 -> GetOperand v = GetOperand node0 ->
  forall (i : ptr) node,
    l !! i = Some node ->
    exists node', <[n := v]> l !! i = Some node' /\ GetOperand node' = GetOperand node.
Proof.
  intros Hn Ho i node Hi.
  destruct (operand_written l [] n v node0 Hn Ho i node Hi) as (node' & Hl & Ho').
  exists node'. by rewrite app_nil_r in Hl.
Qed.

Ltac keeps :=
  intros [= <- <-]; repeat split; simpl;
  [first [reflexivity | by apply prefix_app_r]..|];
  rewrite ?insert_app_l by (by eapply lookup_lt_Some);
  first [ eapply operand_written; [eassumption|done]
        | eapply operand_written_nil; [eassumption|done]
        | intros i node Hi; exists node; split; [by apply lookup_app_l_Some|done] ].

Lemma PushSelDownJoin_finish_keeps X m jn je j l r gl gr' lc rc res m' :
  plans m !! jn = Some (PJoin j) ->
  GroupExpr.Children je = [l; r] ->
  groups m !! l = Some gl -> groups m !! r = Some gr' ->
  PushSelDownJoin_finish X jn je lc rc m = (Ok res, m') ->
  keepsOperands m m'.
Proof.
  intros Hj Hch Hl Hr. unfold PushSelDownJoin_finish. run.
  destruct (appendJoinKeys _ j) as [j'|]; [|done].
  unfold buildChildSelectionGroup. run.
  destruct (decide _), (decide _); run; keeps.
Qed.

(** X8. No rule takes a binding away: when a rule returns on a binding of
    its pattern, every binding of every pattern in the memo it was given
    is a binding of that pattern in the memo it leaves, also for
    PushSelDownJoin and PushTopNDownProjection, which overwrite a payload
    of the binding they are given. *)
Theorem bindings_survive (X : Collab) (r : Rule) (m : Memo) (old : ExprIter)
    (res : Result) (m' : Memo) (p : Pattern) (it : ExprIter) :
  Matched m (GetPattern (NewRule X r)) old = true ->
  OnTransform (NewRule X r) old m = (Ok res, m') ->
  Matched m p it = true ->
  Matched m' p it = true.
Proof.
  intros H Hrun. apply Matched_keepsOperands.
  destruct r;
    try (apply extends_keepsOperands;
         eapply rule_extends; [| |exact H|exact Hrun]; done);
    simpl in Hrun.
  - (* PushSelDownJoin *)
    open2 H.
    destruct (GetOperand_Selection node Hop) as [sel ->].
    destruct (GetOperand_Join node0 Hop0) as [join ->].
    destruct (GroupExpr.Children ge0) as [|l [|r [|]]] eqn:Hx; try done.
    apply Forall_cons in Hch as [[gl Hgl] Hch]. apply Forall_singleton in Hch as [gr' Hgr'].
    revert Hrun. unfold PushSelDownJoin_OnTransform. run.
    destruct (LogicalJoin.JoinType join).
    + destruct (Conds2TableDual X join _) as [dual|].
      * run. keeps.
      * run. destruct (ExtractOnCondition X join _ _ _) as [[[eqc lp] rp] oc]. run.
        intros Hfin.
        eapply PushSelDownJoin_finish_keeps in Hfin;
          [|simpl; eapply lookup_written_nil; exact Hn0|exact Hx|exact Hgl|exact Hgr'].
        eapply keepsOperands_trans; [|exact Hfin].
        repeat split; simpl; [done..|]. by eapply operand_written_nil.
    + by eapply PushSelDownJoin_finish_keeps.
    + by eapply PushSelDownJoin_finish_keeps.
  - (* PushTopNDownProjection *)
    open2 H.
    destruct (GetOperand_TopN node Hop) as [topN ->].
    destruct (GetOperand_Projection node0 Hop0) as [proj ->].
    destruct (GroupExpr.Children ge0) as [|x [|]] eqn:Hx; try done.
    apply Forall_singleton in Hch as [cg Hcg].
    revert Hrun. unfold PushTopNDownProjection_OnTransform. run.
    destruct (removeConstLoop _ _ _) as [newByItems [items|]]; run; keeps.
Qed.

(** * The properties at concrete bindings *)

(** X4, at [Selection(a = 1, b > 2) -> IndexScan(T, index on a)] and the
    rule PushSelDownIndexScan. *)
Lemma rules_only_add_cells_witness :
  PushSelDownIndexScan ≠ PushSelDownJoin /\
  PushSelDownIndexScan ≠ PushTopNDownProjection /\
  Matched Examples.selIndexScanMemo
    (GetPattern (NewRule Ref.collab PushSelDownIndexScan)) Examples.selIndexScanIter = true /\
  exists res m',
    OnTransform (NewRule Ref.collab PushSelDownIndexScan) Examples.selIndexScanIter
      Examples.selIndexScanMemo = (Ok res, m') /\
    extends Examples.selIndexScanMemo m'.
Proof.
  split; [done|]. split; [done|]. split; [vm_compute; reflexivity|].
  eexists _, _. split; [vm_compute; reflexivity|].
  eapply (rules_only_add_cells Ref.collab PushSelDownIndexScan Examples.selIndexScanMemo
            Examples.selIndexScanIter); [done|done|vm_compute; reflexivity|].
  vm_compute; reflexivity.
Defined.

(** X5, at [Projection(x + 1) -> Projection(x := setvar("v", a)) -> Scan(T)],
    where MergeAdjacentProjection declines. *)
Lemma declined_rewrite_leaves_memo_witness :
  exists res m',
    OnTransform (NewRule Ref.collab MergeAdjacentProjection) Examples.projProjIter
      Examples.projProjMemo = (Ok res, m') /\
    newExprs res = [] /\
    m' = Examples.projProjMemo.
Proof.
  eexists _, _. split; [vm_compute; reflexivity|]. split; [reflexivity|].
  eapply (declined_rewrite_leaves_memo Ref.collab MergeAdjacentProjection
            Examples.projProjIter Examples.projProjMemo);
    [vm_compute; reflexivity|reflexivity].
Defined.

(** X6, at [Selection(b > 5) -> Sort(by a asc) -> Scan(T)] and the rule
    PushSelDownSort. *)
Lemma rules_return_on_bindings_witness :
  Matched MoreExamples.selSortMemo (GetPattern (NewRule Ref.collab PushSelDownSort))
    MoreExamples.selSortIter = true /\
  (exists b, Match (NewRule Ref.collab PushSelDownSort) MoreExamples.selSortIter
               MoreExamples.selSortMemo = (Ok b, MoreExamples.selSortMemo)) /\
  (PushSelDownSort ∉ [PushSelDownJoin; MergeAdjacentProjection; MergeAggregationProjection] ->
   (exists res m', OnTransform (NewRule Ref.collab PushSelDownSort) MoreExamples.selSortIter
                     MoreExamples.selSortMemo = (Ok res, m')) \/
   (PushSelDownSort = PushSelDownIndexScan /\
    exists e, OnTransform (NewRule Ref.collab PushSelDownSort) MoreExamples.selSortIter
                MoreExamples.selSortMemo = (Err e, MoreExamples.selSortMemo))).
Proof.
  split; [vm_compute; reflexivity|].
  apply (rules_return_on_bindings Ref.collab PushSelDownSort MoreExamples.selSortMemo
           MoreExamples.selSortIter).
  vm_compute; reflexivity.
Defined.

(** X7, at [Selection(b > 5) -> LeftOuterJoin(a = x)(Scan(T), Scan(S))] and
    the rule PushSelDownJoin. *)
Lemma rules_return_fresh_roots_witness :
  PushSelDownJoin ≠ EliminateProjection /\
  Matched Examples.outerJoinMemo (GetPattern (NewRule Ref.collab PushSelDownJoin))
    Examples.selJoinIter = true /\
  exists res m',
    OnTransform (NewRule Ref.collab PushSelDownJoin) Examples.selJoinIter
      Examples.outerJoinMemo = (Ok res, m') /\
    Forall (freshRoot Examples.outerJoinMemo m') (newExprs res).
Proof.
  split; [done|]. split; [vm_compute; reflexivity|].
  eexists _, _. split; [vm_compute; reflexivity|].
  eapply (rules_return_fresh_roots Ref.collab PushSelDownJoin Examples.outerJoinMemo
            Examples.selJoinIter); [done|vm_compute; reflexivity|].
  vm_compute; reflexivity.
Defined.

(** X10, at [TopN(by b desc, a asc) -> Projection(a := 1, b := x) -> Scan(S)]. *)
Lemma PushTopNDownProjection_contract_witness :
  Matched Examples.topNProjMemo PushTopNDownProjection_Pattern Examples.topNProjIter = true /\
  exists topNExpr0 topN c0 projExpr0 proj pg x cg,
    boundExpr Examples.topNProjMemo Examples.topNProjIter = Some topNExpr0 /\
    boundNode Examples.topNProjMemo Examples.topNProjIter = Some (PTopN topN) /\
    itChildren Examples.topNProjIter = [c0] /\
    boundExpr Examples.topNProjMemo c0 = Some projExpr0 /\
    boundNode Examples.topNProjMemo c0 = Some (PProjection proj) /\
    groups Examples.topNProjMemo !! itGroup c0 = Some pg /\
    GroupExpr.Children projExpr0 = [x] /\
    groups Examples.topNProjMemo !! x = Some cg /\
    let byItems :=
      map (fun item => ByItems.mk
                      (ColumnSubstitute Ref.collab (ByItems.Expr item) (Group.Schema pg)
                         (LogicalProjection.Exprs proj))
                      (ByItems.Desc item))
        (LogicalTopN.ByItems topN) in
    let newTopN :=
      PTopN (LogicalTopN.mk (withoutConstants byItems)
               (LogicalTopN.Offset topN) (LogicalTopN.Count topN)) in
    length (withoutConstants byItems) = length (LogicalTopN.ByItems topN) /\
    OnTransform (NewRulePushTopNDownProjection Ref.collab) Examples.topNProjIter
      Examples.topNProjMemo =
      (Ok (mkResult [length (exprs Examples.topNProjMemo)] true false),
       mkMemo
         ((if decide (Forall notConstant byItems) then plans Examples.topNProjMemo
           else <[GroupExpr.ExprNode topNExpr0 :=
                    PTopN (LogicalTopN.mk
                             (take (length byItems - 1) (withoutConstants byItems))
                             (LogicalTopN.Offset topN) (LogicalTopN.Count topN))]>
                  (plans Examples.topNProjMemo)) ++ [newTopN])
         (exprs Examples.topNProjMemo ++
            [GroupExpr.mk (GroupExpr.ExprNode projExpr0)
               [length (groups Examples.topNProjMemo)] None;
             GroupExpr.mk (length (plans Examples.topNProjMemo)) [x]
               (Some (length (groups Examples.topNProjMemo)))])
         (groups Examples.topNProjMemo ++
            [Group.mk [length (exprs Examples.topNProjMemo) + 1] (Group.Schema cg)
               EngineTiDB])).
Proof.
  split; [vm_compute; reflexivity|].
  apply (PushTopNDownProjection_contract Ref.collab Examples.topNProjMemo
           Examples.topNProjIter).
  vm_compute; reflexivity.
Defined.

(** X11, at [Projection(a, b) -> Scan(T)], where both Groups have the schema
    [a, b]. *)
Lemma EliminateProjection_contract_witness :
  Matched MoreExamples.elimProjMemo EliminateProjection_Pattern
    MoreExamples.elimProjIter = true /\
  exists c gr cg,
    itChildren MoreExamples.elimProjIter = [c] /\
    groups MoreExamples.elimProjMemo !! itGroup MoreExamples.elimProjIter = Some gr /\
    groups MoreExamples.elimProjMemo !! itGroup c = Some cg /\
    OnTransform (NewRule Ref.collab EliminateProjection) MoreExamples.elimProjIter
      MoreExamples.elimProjMemo =
      (Ok (if decide (Group.Schema cg = Group.Schema gr)
           then mkResult (Group.Equivalents cg) true false
           else noRewrite), MoreExamples.elimProjMemo).
Proof.
  split; [vm_compute; reflexivity|].
  apply (EliminateProjection_contract Ref.collab MoreExamples.elimProjMemo
           MoreExamples.elimProjIter).
  vm_compute; reflexivity.
Defined.

Ltac members_owned :=
  intros g gr e Hg Hin;
  repeat (destruct g as [|g]; simpl in Hg;
          [injection Hg as <-; apply list_elem_of_singleton in Hin as ->;
           eexists; split; reflexivity|]);
  done.

Lemma selSortMemo_membersOwned : membersOwned MoreExamples.selSortMemo.
Proof. members_owned. Qed.

Lemma selIndexScanMemo_membersOwned : membersOwned Examples.selIndexScanMemo.
Proof. members_owned. Qed.

Lemma selProjMemo_membersOwned : membersOwned MoreExamples.selProjMemo.
Proof. members_owned. Qed.

(** X12, at [Selection(b > 5) -> Sort(by a asc) -> Scan(T)] and the rule
    PushSelDownSort. *)
Lemma selection_pushdown_conserves_witness :
  PushSelDownSort ∈ [PushSelDownSort; PushSelDownAggregation] /\
  membersOwned MoreExamples.selSortMemo /\
  Matched MoreExamples.selSortMemo (GetPattern (NewRule Ref.collab PushSelDownSort))
    MoreExamples.selSortIter = true /\
  boundNode MoreExamples.selSortMemo MoreExamples.selSortIter =
    Some (PSelection (LogicalSelection.mk [Examples.gtB5])) /\
  3 <= 3 /\
  exists res m',
    OnTransform (NewRule Ref.collab PushSelDownSort) MoreExamples.selSortIter
      MoreExamples.selSortMemo = (Ok res, m') /\
    (res = noRewrite \/
     exists e, newExprs res = [e] /\
               newPredicates 3 MoreExamples.selSortMemo m' e ≡ₚ
                 LogicalSelection.Conditions (LogicalSelection.mk [Examples.gtB5])).
Proof.
  assert (PushSelDownSort ∈ [PushSelDownSort; PushSelDownAggregation]) as Hin
    by apply list_elem_of_here.
  split; [exact Hin|]. split; [exact selSortMemo_membersOwned|].
  split; [vm_compute; reflexivity|]. split; [reflexivity|]. split; [lia|].
  eexists _, _. split; [vm_compute; reflexivity|].
  eapply (selection_pushdown_conserves Ref.collab PushSelDownSort MoreExamples.selSortMemo
            MoreExamples.selSortIter _ _ _ 3 Hin selSortMemo_membersOwned);
    [vm_compute; reflexivity|reflexivity|vm_compute; reflexivity|lia].
Defined.

Lemma filter_split (f : Expression -> bool) (conds : list Expression) :
  filter (fun e => f e = true) conds ++ filter (fun e => f e = false) conds ≡ₚ conds.
Proof. rewrite Permutation_app_comm. apply split_conserves. Qed.

Lemma Ref_splitsConditions : splitsConditions Ref.collab.
Proof.
  split; [|split]; simpl.
  - intros conds handle acc rem. unfold Ref.DetachCondsForColumn.
    destruct (filter _ conds) as [|a l] eqn:Hacc; [done|].
    intros [= <- <-]. rewrite <- Hacc. apply filter_split.
  - intros conds cols lens res. unfold Ref.DetachCondAndBuildRangeForIndex.
    destruct cols as [|c cols]; [done|]. intros [= <-]. simpl. apply filter_split.
  - intros conds pushed rem. unfold Ref.ExpressionsToPB. intros [= <- <-].
    apply split_conserves.
Qed.

(** X13, at [Selection(a = 1, b > 2) -> IndexScan(T, index on a)] and the
    rule PushSelDownIndexScan. *)
Lemma storage_pushdown_conserves_witness :
  splitsConditions Ref.collab /\
  PushSelDownIndexScan ∈
    [PushSelDownTableScan; PushSelDownIndexScan; PushSelDownTiKVSingleGather] /\
  membersOwned Examples.selIndexScanMemo /\
  Matched Examples.selIndexScanMemo (GetPattern (NewRule Ref.collab PushSelDownIndexScan))
    Examples.selIndexScanIter = true /\
  boundNode Examples.selIndexScanMemo Examples.selIndexScanIter =
    Some (PSelection (LogicalSelection.mk [Examples.eqA1; Examples.gtB2])) /\
  3 <= 3 /\
  exists below res m',
    childNode Examples.selIndexScanMemo Examples.selIndexScanIter = Some below /\
    OnTransform (NewRule Ref.collab PushSelDownIndexScan) Examples.selIndexScanIter
      Examples.selIndexScanMemo = (Ok res, m') /\
    (res = noRewrite \/
     exists e, newExprs res = [e] /\
               newPredicates 3 Examples.selIndexScanMemo m' e ≡ₚ
                 LogicalSelection.Conditions
                   (LogicalSelection.mk [Examples.eqA1; Examples.gtB2]) ++
                 condsOfPlan below).
Proof.
  assert (PushSelDownIndexScan ∈
            [PushSelDownTableScan; PushSelDownIndexScan; PushSelDownTiKVSingleGather])
    as Hin by apply list_elem_of_further, list_elem_of_here.
  split; [exact Ref_splitsConditions|]. split; [exact Hin|].
  split; [exact selIndexScanMemo_membersOwned|].
  split; [vm_compute; reflexivity|]. split; [reflexivity|]. split; [lia|].
  eexists _, _, _. split; [reflexivity|]. split; [vm_compute; reflexivity|].
  eapply (storage_pushdown_conserves Ref.collab PushSelDownIndexScan
            Examples.selIndexScanMemo Examples.selIndexScanIter _ _ _ _ 3
            Ref_splitsConditions Hin selIndexScanMemo_membersOwned);
    [vm_compute; reflexivity|reflexivity|reflexivity|vm_compute; reflexivity|lia].
Defined.

(** X14, at [Selection(b > 5, getvar(7) = a) -> Projection(a := x, b := y) ->
    Scan(S)]. *)
Lemma projection_pushdown_conserves_witness :
  membersOwned MoreExamples.selProjMemo /\
  Matched MoreExamples.selProjMemo PushSelDownProjection_Pattern
    MoreExamples.selProjIter = true /\
  3 <= 3 /\
  exists sel c proj pg res m',
    boundNode MoreExamples.selProjMemo MoreExamples.selProjIter = Some (PSelection sel) /\
    itChildren MoreExamples.selProjIter = [c] /\
    boundNode MoreExamples.selProjMemo c = Some (PProjection proj) /\
    groups MoreExamples.selProjMemo !! itGroup c = Some pg /\
    OnTransform (NewRule Ref.collab PushSelDownProjection) MoreExamples.selProjIter
      MoreExamples.selProjMemo = (Ok res, m') /\
    let below :=
      map (fun cond => ColumnSubstitute Ref.collab cond (Group.Schema pg)
                         (LogicalProjection.Exprs proj))
        (filter (fun cond => HasGetSetVarFunc Ref.collab cond = false)
           (LogicalSelection.Conditions sel)) in
    let above :=
      filter (fun cond => HasGetSetVarFunc Ref.collab cond = true)
        (LogicalSelection.Conditions sel) in
    (res = noRewrite \/
     exists projExpr x cg,
       boundExpr MoreExamples.selProjMemo c = Some projExpr /\
       GroupExpr.Children projExpr = [x] /\
       groups MoreExamples.selProjMemo !! x = Some cg /\
       below <> [] /\
       let belowSel := GroupExpr.mk 3 [x] (Some 3) in
       let belowGroup := Group.mk [3] (Group.Schema cg) EngineTiDB in
       (res, m') =
         match above with
         | [] =>
           (mkResult [4] true false,
            mkMemo
              (plans MoreExamples.selProjMemo ++ [PSelection (LogicalSelection.mk below)])
              (exprs MoreExamples.selProjMemo ++
                 [belowSel; GroupExpr.mk (GroupExpr.ExprNode projExpr) [3] None])
              (groups MoreExamples.selProjMemo ++ [belowGroup]))
         | _ :: _ =>
           (mkResult [5] true false,
            mkMemo
              (plans MoreExamples.selProjMemo ++
                 [PSelection (LogicalSelection.mk below);
                  PSelection (LogicalSelection.mk above)])
              (exprs MoreExamples.selProjMemo ++
                 [belowSel;
                  GroupExpr.mk (GroupExpr.ExprNode projExpr) [3] (Some 4);
                  GroupExpr.mk 4 [4] None])
              (groups MoreExamples.selProjMemo ++
                 [belowGroup; Group.mk [4] (Group.Schema pg) EngineTiDB]))
         end /\
       exists e, newExprs res = [e] /\
         newPredicates 3 MoreExamples.selProjMemo m' e ≡ₚ
           map (fun cond => if HasGetSetVarFunc Ref.collab cond then cond
                            else ColumnSubstitute Ref.collab cond (Group.Schema pg)
                                   (LogicalProjection.Exprs proj))
             (LogicalSelection.Conditions sel)).
Proof.
  split; [exact selProjMemo_membersOwned|].
  split; [vm_compute; reflexivity|]. split; [lia|].
  eexists _, _, _, _, _, _.
  split; [reflexivity|]. split; [reflexivity|]. split; [reflexivity|].
  split; [reflexivity|]. split; [vm_compute; reflexivity|].
  exact (projection_pushdown_conserves Ref.collab MoreExamples.selProjMemo
            MoreExamples.selProjIter _ _ _ _ _ _ 3 selProjMemo_membersOwned
            eq_refl eq_refl eq_refl eq_refl eq_refl eq_refl
            (Nat.le_refl 3)).
Defined.


(** X16, at [Selection(b > 5) -> LeftOuterJoin(a = x)(Scan(T), Scan(S))]. *)
Lemma PushSelDownJoin_asserts_column_equalities_witness :
  Matched Examples.outerJoinMemo PushSelDownJoin_Pattern Examples.selJoinIter = true /\
  exists sel c joinExpr join l r lg rg,
    boundNode Examples.outerJoinMemo Examples.selJoinIter = Some (PSelection sel) /\
    itChildren Examples.selJoinIter = [c] /\
    boundExpr Examples.outerJoinMemo c = Some joinExpr /\
    plans Examples.outerJoinMemo !! GroupExpr.ExprNode joinExpr = Some (PJoin join) /\
    GroupExpr.Children joinExpr = [l; r] /\
    groups Examples.outerJoinMemo !! l = Some lg /\
    groups Examples.outerJoinMemo !! r = Some rg /\
    (LogicalJoin.JoinType join = InnerJoin ->
     Conds2TableDual Ref.collab join (combinedCond Ref.collab join sel) = None) /\
    let eqs :=
      match LogicalJoin.JoinType join with
      | InnerJoin =>
        (ExtractOnCondition Ref.collab join (combinedCond Ref.collab join sel)
           (Group.Schema lg) (Group.Schema rg)).1.1.1
      | _ => LogicalJoin.EqualConditions join
      end in
    (Forall columnEquality eqs /\
     exists res m', OnTransform (NewRule Ref.collab PushSelDownJoin) Examples.selJoinIter
                      Examples.outerJoinMemo = (Ok res, m')) \/
    (~ Forall columnEquality eqs /\
     exists m', OnTransform (NewRule Ref.collab PushSelDownJoin) Examples.selJoinIter
                  Examples.outerJoinMemo = (Panic, m')).
Proof.
  split; [vm_compute; reflexivity|].
  eexists _, _, _, _, _, _, _, _.
  split; [reflexivity|]. split; [reflexivity|]. split; [reflexivity|].
  split; [reflexivity|]. split; [reflexivity|]. split; [reflexivity|].
  split; [reflexivity|]. split; [intros [=]|].
  eapply (PushSelDownJoin_asserts_column_equalities Ref.collab Examples.outerJoinMemo
            Examples.selJoinIter);
    [vm_compute; reflexivity|reflexivity..|intros [=]].
Defined.

(** X17, at [Selection(b > 5) -> LeftOuterJoin(a = x)(Scan(T), Scan(S))]: the
    join keys [a] and [x] are appended twice. *)
Lemma PushSelDownJoin_keys_accumulate_witness :
  RemoveDupExprs Ref.collab [] = [] /\
  Matched Examples.outerJoinMemo PushSelDownJoin_Pattern Examples.selJoinIter = true /\
  exists c joinExpr join,
    itChildren Examples.selJoinIter = [c] /\
    boundExpr Examples.outerJoinMemo c = Some joinExpr /\
    plans Examples.outerJoinMemo !! GroupExpr.ExprNode joinExpr = Some (PJoin join) /\
    LogicalJoin.JoinType join ≠ InnerJoin /\
    Forall columnEquality (LogicalJoin.EqualConditions join) /\
    let lk := leftKeys (LogicalJoin.EqualConditions join) in
    let rk := rightKeys (LogicalJoin.EqualConditions join) in
    length lk = length (LogicalJoin.EqualConditions join) /\
    length rk = length (LogicalJoin.EqualConditions join) /\
    exists res1 m1 res2 m2,
      OnTransform (NewRule Ref.collab PushSelDownJoin) Examples.selJoinIter
        Examples.outerJoinMemo = (Ok res1, m1) /\
      plans m1 !! GroupExpr.ExprNode joinExpr = Some (PJoin (withKeys join lk rk)) /\
      OnTransform (NewRule Ref.collab PushSelDownJoin) Examples.selJoinIter m1 =
        (Ok res2, m2) /\
      plans m2 !! GroupExpr.ExprNode joinExpr =
        Some (PJoin (withKeys join (lk ++ lk) (rk ++ rk))).
Proof.
  assert (Forall columnEquality [Examples.eqAX]) as Hwf
    by (repeat constructor; by exists Examples.colA, Examples.colX, []).
  split; [reflexivity|]. split; [vm_compute; reflexivity|].
  eexists _, _, _.
  split; [reflexivity|]. split; [reflexivity|]. split; [reflexivity|].
  split; [done|]. split; [exact Hwf|].
  eapply (PushSelDownJoin_keys_accumulate Ref.collab Examples.outerJoinMemo
            Examples.selJoinIter);
    [reflexivity|vm_compute; reflexivity|reflexivity|reflexivity|reflexivity|done
    |exact Hwf].
Defined.

(** X18, at [Aggregation(count(a)) -> Projection(a := x) -> Scan(S)] and the
    rule MergeAggregationProjection. *)
Lemma projection_merge_bounds_witness :
  MergeAggregationProjection ∈ [MergeAdjacentProjection; MergeAggregationProjection] /\
  Matched MoreExamples.aggProjMemo
    (GetPattern (NewRule Ref.collab MergeAggregationProjection))
    MoreExamples.aggProjIter = true /\
  exists c child cg,
    itChildren MoreExamples.aggProjIter = [c] /\
    boundNode MoreExamples.aggProjMemo c = Some (PProjection child) /\
    groups MoreExamples.aggProjMemo !! itGroup c = Some cg /\
    (MergeAggregationProjection = MergeAdjacentProjection ->
     ExprsHasSideEffects Ref.collab (LogicalProjection.Exprs child) = false) /\
    ((length (Group.Schema cg) <= length (LogicalProjection.Exprs child) /\
      exists e m',
        OnTransform (NewRule Ref.collab MergeAggregationProjection)
          MoreExamples.aggProjIter MoreExamples.aggProjMemo =
          (Ok (mkResult [e] true false), m')) \/
     (length (LogicalProjection.Exprs child) < length (Group.Schema cg) /\
      OnTransform (NewRule Ref.collab MergeAggregationProjection)
        MoreExamples.aggProjIter MoreExamples.aggProjMemo =
        (Panic, MoreExamples.aggProjMemo))).
Proof.
  assert (MergeAggregationProjection ∈
            [MergeAdjacentProjection; MergeAggregationProjection]) as Hin
    by apply list_elem_of_further, list_elem_of_here.
  split; [exact Hin|]. split; [vm_compute; reflexivity|].
  eexists _, _, _.
  split; [reflexivity|]. split; [reflexivity|]. split; [reflexivity|].
  split; [intros [=]|].
  eapply (projection_merge_bounds Ref.collab MergeAggregationProjection
            MoreExamples.aggProjMemo MoreExamples.aggProjIter _ _ _ Hin);
    [vm_compute; reflexivity|reflexivity|reflexivity|reflexivity|intros [=]].
Defined.

(** X19, at [DataSource(T)], with the table scan as its one access path. *)
Lemma EnumeratePaths_contract_witness :
  Matched MoreExamples.dataSourceMemo EnumeratePaths_Pattern
    MoreExamples.dataSourceIter = true /\
  exists ds es m',
    boundNode MoreExamples.dataSourceMemo MoreExamples.dataSourceIter =
      Some (PDataSource ds) /\
    OnTransform (NewRule Ref.collab EnumeratePaths) MoreExamples.dataSourceIter
      MoreExamples.dataSourceMemo = (Ok (mkResult es true false), m') /\
    Forall2 (gatherOfPath m') es (Convert2Gathers Ref.collab ds).
Proof.
  split; [vm_compute; reflexivity|].
  apply (EnumeratePaths_contract Ref.collab MoreExamples.dataSourceMemo
           MoreExamples.dataSourceIter).
  vm_compute; reflexivity.
Defined.

(** X8, at [Selection(b > 5) -> InnerJoin(a = x, left: b > 0)(Scan(T),
    Scan(S))] and the rule PushSelDownJoin, which overwrites the join:
    the binding it was given is still a binding of its pattern. *)
Lemma bindings_survive_witness :
  Matched Examples.innerFilterJoinMemo (GetPattern (NewRule Ref.collab PushSelDownJoin))
    Examples.selJoinIter = true /\
  Matched Examples.innerFilterJoinMemo PushSelDownJoin_Pattern Examples.selJoinIter = true /\
  exists res m',
    OnTransform (NewRule Ref.collab PushSelDownJoin) Examples.selJoinIter
      Examples.innerFilterJoinMemo = (Ok res, m') /\
    Matched m' PushSelDownJoin_Pattern Examples.selJoinIter = true.
Proof.
  split; [vm_compute; reflexivity|]. split; [vm_compute; reflexivity|].
  eexists _, _. split; [vm_compute; reflexivity|].
  eapply (bindings_survive Ref.collab PushSelDownJoin Examples.innerFilterJoinMemo
            Examples.selJoinIter _ _ PushSelDownJoin_Pattern Examples.selJoinIter);
    vm_compute; reflexivity.
Defined.
